(** * Buglab solver: the walk simulator, the score cache, the candidate
      generator and the search strategies of [buglab solver.cpp].

    The C++ program fixes the grid size and the deep-jump depth as
    [constexpr] values of [namespace Config]; here they are the fields of a
    [Config] record that every definition receives, so that the worked
    examples on small grids and the production size 29 x 19 are instances
    of the same definitions.

    Integers ([int], [long long]) are modelled by [Z].  Signed overflow is
    undefined behaviour in C++ and no arithmetic of the program comes near
    the limits for the grid sizes it is built for (coordinates stay in
    [-1 .. MAZE_WIDTH], counters below [MAZE_WIDTH * MAZE_HEIGHT * 1000 + 2]).

    The code of the standard library is not part of the program:
    [std::sort], [std::priority_queue], [std::shuffle] and the random
    draws are parameters, classes whose fields are what the standard
    guarantees of them, and the theorems hold of every instance.  The
    instances defined here serve to run the searches on small grids.

    The other two programs of the repository follow, each in a module of
    its own: [binary heap.cpp] in [binary_heap], [calculator.cpp] in
    [calculator]. *)

From Stdlib Require Import ZArith List Lia Bool Permutation Sorted Ascii.
From stdpp Require Import gmap strings list fin_maps sorting.

Local Open Scope Z_scope.

(* ===================================================================== *)
(** * Configuration *)
(* ===================================================================== *)

Record Config := {
  MAZE_WIDTH : Z;
  MAZE_HEIGHT : Z;
  DEEP_JUMP_DEPTH : Z;
  RANDOMIZE_CELL_ORDER : bool
}.

(** The values compiled into the program. *)
Definition shipped_config : Config :=
  {| MAZE_WIDTH := 29; MAZE_HEIGHT := 19; DEEP_JUMP_DEPTH := 2;
     RANDOMIZE_CELL_ORDER := true |}.

(** The 2 x 2 grid of the worked examples. *)
Definition config_2x2 : Config :=
  {| MAZE_WIDTH := 2; MAZE_HEIGHT := 2; DEEP_JUMP_DEPTH := 2;
     RANDOMIZE_CELL_ORDER := true |}.

(** The 3 x 3 grid, on which a single wall can lengthen the walk. *)
Definition config_3x3 : Config :=
  {| MAZE_WIDTH := 3; MAZE_HEIGHT := 3; DEEP_JUMP_DEPTH := 2;
     RANDOMIZE_CELL_ORDER := true |}.

(* ===================================================================== *)
(** * Points and directions *)
(* ===================================================================== *)

Record Point := { coordinate_x : Z; coordinate_y : Z }.

(** [Point::operator==] *)
Definition Point_eqb (a b : Point) : bool :=
  (coordinate_x a =? coordinate_x b) && (coordinate_y a =? coordinate_y b).

(** [Point::operator+] *)
Definition Point_add (a b : Point) : Point :=
  {| coordinate_x := coordinate_x a + coordinate_x b;
     coordinate_y := coordinate_y a + coordinate_y b |}.

#[export] Instance Point_eq_dec : EqDecision Point.
Proof. solve_decision. Defined.

Record Direction := { delta : Point; priority : Z }.

#[export] Instance Direction_eq_dec : EqDecision Direction.
Proof. solve_decision. Defined.

(** [Direction::operator==] compares the deltas only. *)
Definition Direction_eqb (a b : Direction) : bool :=
  Point_eqb (delta a) (delta b).

Module Directions.
Definition LEFT : Direction :=
  {| delta := {| coordinate_x := -1; coordinate_y := 0 |}; priority := 1 |}.
Definition UP : Direction :=
  {| delta := {| coordinate_x := 0; coordinate_y := -1 |}; priority := 2 |}.
Definition RIGHT : Direction :=
  {| delta := {| coordinate_x := 1; coordinate_y := 0 |}; priority := 3 |}.
Definition DOWN : Direction :=
  {| delta := {| coordinate_x := 0; coordinate_y := 1 |}; priority := 4 |}.
Definition ALL : list Direction := [UP; DOWN; LEFT; RIGHT].
End Directions.

(* ===================================================================== *)
(** * Grids: [std::vector<std::vector<T>>] indexed [g[y][x]] *)
(* ===================================================================== *)

(** Reading [g[p.y][p.x]].  An index outside the vector is undefined
    behaviour in C++; the model returns [d] there.  Every read the program
    makes is at a point inside the grid. *)
Definition grid_get {A} (d : A) (g : list (list A)) (p : Point) : A :=
  match g !! Z.to_nat (coordinate_y p) with
  | Some row =>
      match row !! Z.to_nat (coordinate_x p) with
      | Some v => v
      | None => d
      end
  | None => d
  end.

(** Writing [g[p.y][p.x] = v]; outside the vector the model leaves the
    grid as it is. *)
Definition grid_set {A} (g : list (list A)) (p : Point) (v : A) : list (list A) :=
  match g !! Z.to_nat (coordinate_y p) with
  | Some row =>
      <[Z.to_nat (coordinate_y p) := <[Z.to_nat (coordinate_x p) := v]> row]> g
  | None => g
  end.

(** The cells of the grid in the order of the nested loops
    [for y (or r) in 0..H-1, for x (or c) in 0..W-1]. *)
Definition all_cells (cfg : Config) : list Point :=
  r ← seqZ 0 (MAZE_HEIGHT cfg);
  (λ c, {| coordinate_x := c; coordinate_y := r |}) <$> seqZ 0 (MAZE_WIDTH cfg).

(* ===================================================================== *)
(** * class Maze *)
(* ===================================================================== *)

Record Maze := { wall_grid : list (list bool) }.

#[export] Instance Maze_eq_dec : EqDecision Maze.
Proof. solve_decision. Defined.

Definition START_POINT : Point := {| coordinate_x := 0; coordinate_y := 0 |}.

Definition FINISH_POINT (cfg : Config) : Point :=
  {| coordinate_x := MAZE_WIDTH cfg - 1; coordinate_y := MAZE_HEIGHT cfg - 1 |}.

(** The constructor [Maze()]: no walls. *)
Definition Maze_new (cfg : Config) : Maze :=
  {| wall_grid :=
       replicate (Z.to_nat (MAZE_HEIGHT cfg))
                 (replicate (Z.to_nat (MAZE_WIDTH cfg)) false) |}.

Definition is_within_bounds (cfg : Config) (point : Point) : bool :=
  (0 <=? coordinate_y point) && (coordinate_y point <? MAZE_HEIGHT cfg)
  && (0 <=? coordinate_x point) && (coordinate_x point <? MAZE_WIDTH cfg).

Definition is_wall_at (m : Maze) (point : Point) : bool :=
  grid_get false (wall_grid m) point.

Definition set_wall_at (m : Maze) (point : Point) (has_wall : bool) : Maze :=
  {| wall_grid := grid_set (wall_grid m) point has_wall |}.

(** A layout has [MAZE_HEIGHT] rows of [MAZE_WIDTH] cells each; this is
    what [Maze()] builds and what [set_wall_at] keeps. *)
Definition maze_wf (cfg : Config) (m : Maze) : Prop :=
  length (wall_grid m) = Z.to_nat (MAZE_HEIGHT cfg) ∧
  Forall (λ row, length row = Z.to_nat (MAZE_WIDTH cfg)) (wall_grid m).

Definition config_wf (cfg : Config) : Prop :=
  0 < MAZE_WIDTH cfg ∧ 0 < MAZE_HEIGHT cfg.

(** ** [Maze::has_path_to_finish] *)

(** The body of [for (direction : Directions::ALL)] inside the traversal. *)
Definition bfs_visit (cfg : Config) (m : Maze) (current_point : Point)
    (acc : list Point * list (list bool)) (direction : Direction)
    : list Point * list (list bool) :=
  let '(q, visited) := acc in
  let next_point := Point_add current_point (delta direction) in
  if is_within_bounds cfg next_point
     && negb (grid_get false visited next_point)
     && negb (is_wall_at m next_point)
  then (q ++ [next_point], grid_set visited next_point true)
  else (q, visited).

(** [while (!q.empty())]: [None] means that the fuel ran out before the
    loop ended. *)
Fixpoint bfs_loop (cfg : Config) (m : Maze) (fuel : nat)
    (q : list Point) (visited : list (list bool)) : option bool :=
  match fuel with
  | O => None
  | S fuel' =>
      match q with
      | [] => Some false
      | current_point :: q' =>
          if Point_eqb current_point (FINISH_POINT cfg) then Some true
          else
            let '(q'', visited') :=
              fold_left (bfs_visit cfg m current_point) Directions.ALL (q', visited) in
            bfs_loop cfg m fuel' q'' visited'
      end
  end.

Definition bfs_fuel (cfg : Config) : nat :=
  (Z.to_nat (MAZE_HEIGHT cfg) * Z.to_nat (MAZE_WIDTH cfg) + 2)%nat.

Definition has_path_to_finish_run (cfg : Config) (m : Maze) : option bool :=
  if is_wall_at m START_POINT || is_wall_at m (FINISH_POINT cfg) then Some false
  else
    let visited :=
      replicate (Z.to_nat (MAZE_HEIGHT cfg))
                (replicate (Z.to_nat (MAZE_WIDTH cfg)) false) in
    bfs_loop cfg m (bfs_fuel cfg) [START_POINT] (grid_set visited START_POINT true).

(** ** [Maze::to_string_representation] *)

Definition to_string_representation (cfg : Config) (m : Maze) : string :=
  fold_left
    (λ repr p, repr +:+ (if is_wall_at m p then "1" else "0"))
    (all_cells cfg) "".

(* ===================================================================== *)
(** * class BugSimulator *)
(* ===================================================================== *)

Record SimState := {
  pos : Point;
  visit_counts : list (list Z);
  steps : Z;
  last_dir : Direction
}.

(** [W * H * 1000], the bound of the divergence guard. *)
Definition step_budget (cfg : Config) : Z :=
  MAZE_WIDTH cfg * MAZE_HEIGHT cfg * 1000.

(** The visit counts after the two initialisation loops: -1 on walls, 0
    elsewhere. *)
Definition init_visit_counts (cfg : Config) (m : Maze) : list (list Z) :=
  (λ r, (λ c, if is_wall_at m {| coordinate_x := c; coordinate_y := r |}
              then -1 else 0) <$> seqZ 0 (MAZE_WIDTH cfg))
  <$> seqZ 0 (MAZE_HEIGHT cfg).

Definition init_state (cfg : Config) (m : Maze) : SimState :=
  {| pos := START_POINT;
     visit_counts := grid_set (init_visit_counts cfg m) START_POINT 1;
     steps := 0;
     last_dir := Directions.DOWN |}.

(** The loop condition
    [pos.x != MAZE_WIDTH - 1 || pos.y != MAZE_HEIGHT - 1]. *)
Definition not_at_finish (cfg : Config) (p : Point) : bool :=
  negb (coordinate_x p =? MAZE_WIDTH cfg - 1)
  || negb (coordinate_y p =? MAZE_HEIGHT cfg - 1).

(** The body of [for (dir : Directions::ALL)]: [acc] is
    [(min_visits, best_dirs)]. *)
Definition scan_dir (cfg : Config) (vc : list (list Z)) (p : Point)
    (acc : Z * list Direction) (dir : Direction) : Z * list Direction :=
  let '(min_visits, best_dirs) := acc in
  let next_pos := Point_add p (delta dir) in
  if negb (is_within_bounds cfg next_pos) || (grid_get 0 vc next_pos =? -1)
  then acc
  else
    let neighbor_visits := grid_get 0 vc next_pos in
    if (min_visits =? -1) || (neighbor_visits <? min_visits)
    then (neighbor_visits, [dir])
    else if neighbor_visits =? min_visits
         then (min_visits, best_dirs ++ [dir])
         else acc.

(** The tie set the loop over the four directions leaves in [best_dirs]. *)
Definition best_dirs_of (cfg : Config) (vc : list (list Z)) (p : Point)
    : list Direction :=
  snd (fold_left (scan_dir cfg vc p) Directions.ALL (-1, [])).

(** [std::max_element] with the comparison [a.priority < b.priority] on a
    range that starts with [d]: the first of the largest elements. *)
Definition max_element_priority (d : Direction) (l : list Direction) : Direction :=
  fold_left (λ largest x, if priority largest <? priority x then x else largest) l d.

(** The choice among a tie set [d :: l]. *)
Definition choose_direction (last : Direction) (d : Direction) (l : list Direction)
    : Direction :=
  if existsb (λ x, Direction_eqb x last) (d :: l) then last
  else max_element_priority d l.

Inductive IterResult :=
| Return (score : Z)
| Continue (st : SimState).

(** One execution of the body of the [while] loop. *)
Definition loop_body (cfg : Config) (st : SimState) : IterResult :=
  if step_budget cfg <? steps st then Return (-2)
  else
    match best_dirs_of cfg (visit_counts st) (pos st) with
    | [] => Return (-1)
    | d :: l =>
        let chosen_direction := choose_direction (last_dir st) d l in
        let pos' := Point_add (pos st) (delta chosen_direction) in
        Continue
          {| pos := pos';
             visit_counts :=
               grid_set (visit_counts st) pos'
                        (grid_get 0 (visit_counts st) pos' + 1);
             steps := steps st + 1;
             last_dir := chosen_direction |}
    end.

(** The [while] loop.  The result carries, next to the value returned, the
    number of times the body was entered. [None]: the fuel ran out. *)
Fixpoint walk_loop (cfg : Config) (fuel : nat) (st : SimState) : option (Z * nat) :=
  match fuel with
  | O => None
  | S fuel' =>
      if not_at_finish cfg (pos st) then
        match loop_body cfg st with
        | Return score => Some (score, 1%nat)
        | Continue st' =>
            (λ r, (fst r, S (snd r))) <$> walk_loop cfg fuel' st'
        end
      else Some (steps st, 0%nat)
  end.

Definition walk_fuel (cfg : Config) : nat := S (Z.to_nat (step_budget cfg + 2)).

(** [BugSimulator::calculate_score], with the number of loop iterations. *)
Definition calculate_score_run (cfg : Config) (m : Maze) : option (Z * nat) :=
  match has_path_to_finish_run cfg m with
  | None => None
  | Some false => Some (-1, 0%nat)
  | Some true => walk_loop cfg (walk_fuel cfg) (init_state cfg m)
  end.

(** The two functions as the rest of the program sees them.  Both runs
    always end within their fuel ([has_path_to_finish_run_total] and
    [calculate_score_run_total] below), so the second branch of each
    [match] is never taken. *)
Definition has_path_to_finish (cfg : Config) (m : Maze) : bool :=
  match has_path_to_finish_run cfg m with
  | Some b => b
  | None => false
  end.

Definition calculate_score (cfg : Config) (m : Maze) : Z :=
  match calculate_score_run cfg m with
  | Some (score, _) => score
  | None => 0
  end.

(* ===================================================================== *)
(** * class SolverBase *)
(* ===================================================================== *)

(** [SolverState = std::pair<Maze, long long>] *)
Definition SolverState : Type := Maze * Z.

(** Ascending order of score: [b.second < a.second] does not hold. *)
Definition score_le (a b : SolverState) : Prop := snd a <= snd b.

(** The lines the solvers print with [std::endl]; the status line, the
    spinner and the progress bar are display only and are left out. *)
Inductive ConsoleLine :=
| RecordFound (score : Z)
| DeadEndFound
| EvaluatingNewStates (n : nat)
| JumpUnsuccessful
| JumpSuccessful (n : nat).

(** The members of [SolverBase].  [records] is what [notify_new_record]
    received so far, oldest first (the record sink: log line and maze
    files); [simulator_calls] counts the calls of
    [BugSimulator::calculate_score]. *)
Record SolverBase := {
  highest_known_score_ : Z;
  score_cache_ : gmap string Z;
  globally_visited_layouts_ : gset string;
  records : list (Maze * Z);
  console : list ConsoleLine;
  simulator_calls : nat
}.

Definition set_highest (score : Z) (b : SolverBase) : SolverBase :=
  {| highest_known_score_ := score;
     score_cache_ := score_cache_ b;
     globally_visited_layouts_ := globally_visited_layouts_ b;
     records := records b;
     console := console b;
     simulator_calls := simulator_calls b |}.

Definition mark_visited (repr : string) (b : SolverBase) : SolverBase :=
  {| highest_known_score_ := highest_known_score_ b;
     score_cache_ := score_cache_ b;
     globally_visited_layouts_ := {[repr]} ∪ globally_visited_layouts_ b;
     records := records b;
     console := console b;
     simulator_calls := simulator_calls b |}.

Definition print_line (line : ConsoleLine) (b : SolverBase) : SolverBase :=
  {| highest_known_score_ := highest_known_score_ b;
     score_cache_ := score_cache_ b;
     globally_visited_layouts_ := globally_visited_layouts_ b;
     records := records b;
     console := console b ++ [line];
     simulator_calls := simulator_calls b |}.

(** [SolverBase::get_score_for_maze] *)
Definition get_score_for_maze (cfg : Config) (b : SolverBase) (maze : Maze)
    : Z * SolverBase :=
  let repr := to_string_representation cfg maze in
  match score_cache_ b !! repr with
  | Some cached => (cached, b)
  | None =>
      let score := calculate_score cfg maze in
      (score,
       {| highest_known_score_ := highest_known_score_ b;
          score_cache_ := <[repr := score]> (score_cache_ b);
          globally_visited_layouts_ := globally_visited_layouts_ b;
          records := records b;
          console := console b;
          simulator_calls := S (simulator_calls b) |})
  end.

(** [SolverBase::notify_new_record] *)
Definition notify_new_record (b : SolverBase) (maze : Maze) (score : Z) : SolverBase :=
  {| highest_known_score_ := highest_known_score_ b;
     score_cache_ := score_cache_ b;
     globally_visited_layouts_ := globally_visited_layouts_ b;
     records := records b ++ [(maze, score)];
     console := console b ++ [RecordFound score];
     simulator_calls := simulator_calls b |}.

(** The members before the body of the constructor runs;
    [highest_known_score_] has no initialiser and is assigned before it is
    read. *)
Definition fresh_members : SolverBase :=
  {| highest_known_score_ := 0;
     score_cache_ := ∅;
     globally_visited_layouts_ := ∅;
     records := [];
     console := [];
     simulator_calls := 0 |}.

(** The constructor [SolverBase::SolverBase]. *)
Definition SolverBase_new (cfg : Config) : SolverBase :=
  let initial_maze := Maze_new cfg in
  let '(initial_score, b) := get_score_for_maze cfg fresh_members initial_maze in
  notify_new_record (set_highest initial_score b) initial_maze initial_score.

(** The update rule the strategies share:
    [if (score > highest_known_score_) { highest_known_score_ = score;
    notify_new_record(maze, score); }]. *)
Definition update_record (b : SolverBase) (maze : Maze) (score : Z) : SolverBase :=
  if highest_known_score_ b <? score
  then notify_new_record (set_highest score b) maze score
  else b.

(** The cells the generator and the strategies may wall: not the start,
    not the finish, not already a wall. *)
Definition is_placeable (cfg : Config) (m : Maze) (p : Point) : bool :=
  negb (((coordinate_x p =? 0) && (coordinate_y p =? 0))
        || ((coordinate_x p =? MAZE_WIDTH cfg - 1)
            && (coordinate_y p =? MAZE_HEIGHT cfg - 1))
        || is_wall_at m p).

(* ===================================================================== *)
(** * class GreedyDfsSolver *)
(* ===================================================================== *)

Record GreedyDfsSolver := {
  greedy_base : SolverBase;
  (** [std::stack]: the head of the list is the top. *)
  states_to_explore_stack_ : list SolverState
}.

(** ** [generate_unique_candidates] *)

(** The body of the two nested [for] loops for one cell [p]; [acc] is
    [(candidates, bfs_queue, local_visited)]. *)
Definition expand_cell (cfg : Config) (globally_visited : gset string)
    (current_maze : Maze) (depth : Z)
    (acc : list Maze * list (Maze * Z) * gset string) (p : Point)
    : list Maze * list (Maze * Z) * gset string :=
  let '(candidates, bfs_queue, local_visited) := acc in
  if is_placeable cfg current_maze p then
    let next_maze := set_wall_at current_maze p true in
    let repr := to_string_representation cfg next_maze in
    if decide (repr ∈ local_visited) then acc
    else
      (if decide (repr ∈ globally_visited) then candidates
       else candidates ++ [next_maze],
       bfs_queue ++ [(next_maze, depth + 1)],
       {[repr]} ∪ local_visited)
  else acc.

(** [while (!bfs_queue.empty())]; [None]: the fuel ran out. *)
Fixpoint generate_loop (cfg : Config) (globally_visited : gset string)
    (jump_depth : Z) (fuel : nat)
    (candidates : list Maze) (bfs_queue : list (Maze * Z))
    (local_visited : gset string) : option (list Maze) :=
  match fuel with
  | O => None
  | S fuel' =>
      match bfs_queue with
      | [] => Some candidates
      | (current_maze, depth) :: rest =>
          if jump_depth <=? depth
          then generate_loop cfg globally_visited jump_depth fuel'
                             candidates rest local_visited
          else
            let '(candidates', bfs_queue', local_visited') :=
              fold_left (expand_cell cfg globally_visited current_maze depth)
                        (all_cells cfg) (candidates, rest, local_visited) in
            generate_loop cfg globally_visited jump_depth fuel'
                          candidates' bfs_queue' local_visited'
      end
  end.

(** The number of nodes of the complete tree of height [r] in which every
    node has [n] children: a bound on the layouts the enumeration can
    take from its queue. *)
Fixpoint tree_weight (n : nat) (r : nat) : nat :=
  match r with
  | O => 1
  | S r' => S (n * tree_weight n r')
  end.

Definition generate_fuel (cfg : Config) (jump_depth : Z) : nat :=
  S (tree_weight (length (all_cells cfg)) (Z.to_nat jump_depth)).

Definition generate_unique_candidates_run (cfg : Config) (b : SolverBase)
    (initial_maze : Maze) (jump_depth : Z) : option (list Maze) :=
  generate_loop cfg (globally_visited_layouts_ b) jump_depth
    (generate_fuel cfg jump_depth)
    [] [(initial_maze, 0)] {[to_string_representation cfg initial_maze]}.

(** The enumeration always ends within its fuel
    ([generate_unique_candidates_run_total] below). *)
Definition generate_unique_candidates (cfg : Config) (b : SolverBase)
    (initial_maze : Maze) (jump_depth : Z) : list Maze :=
  match generate_unique_candidates_run cfg b initial_maze jump_depth with
  | Some candidates => candidates
  | None => []
  end.

(** ** [evaluate_and_process_candidates] *)

(** The scoring loop: [acc] is the base (its cache changes) and
    [improvements]. *)
Definition evaluate_candidate (cfg : Config) (state : SolverState)
    (acc : SolverBase * list SolverState) (candidate : Maze)
    : SolverBase * list SolverState :=
  let '(b, improvements) := acc in
  let '(score, b') := get_score_for_maze cfg b candidate in
  if snd state <? score then (b', improvements ++ [(candidate, score)])
  else (b', improvements).

(** [std::sort] with the comparison [a.second < b.second]: library code,
    not part of the program.  The standard fixes that the result holds the
    entries of the range in ascending order of score and leaves the order
    of entries of equal score open, so the sort is a function of which
    only that much is known. *)
Class Sorter := {
  sort : list SolverState → list SolverState;
  sort_perm : ∀ l, sort l ≡ₚ l;
  sort_sorted : ∀ l, StronglySorted score_le (sort l)
}.

(** The body of [for (const auto& s : improvements)]. *)
Definition push_improvement (cfg : Config) (g : GreedyDfsSolver) (s : SolverState)
    : GreedyDfsSolver :=
  let b := update_record (greedy_base g) (fst s) (snd s) in
  {| greedy_base := mark_visited (to_string_representation cfg (fst s)) b;
     states_to_explore_stack_ := s :: states_to_explore_stack_ g |}.

Definition with_base (b : SolverBase) (g : GreedyDfsSolver) : GreedyDfsSolver :=
  {| greedy_base := b; states_to_explore_stack_ := states_to_explore_stack_ g |}.

Definition print_if (cond : bool) (line : ConsoleLine) (b : SolverBase) : SolverBase :=
  if cond then print_line line b else b.

Definition evaluate_and_process_candidates {sorter : Sorter} (cfg : Config)
    (g : GreedyDfsSolver) (candidates : list Maze) (state : SolverState) (is_deep : bool)
    : bool * GreedyDfsSolver :=
  let b0 := print_if is_deep (EvaluatingNewStates (length candidates)) (greedy_base g) in
  let '(b1, improvements) :=
    fold_left (evaluate_candidate cfg state) candidates (b0, []) in
  let b2 :=
    print_if is_deep
      (match improvements with
       | [] => JumpUnsuccessful
       | _ => JumpSuccessful (length improvements)
       end) b1 in
  match improvements with
  | [] => (false, with_base b2 g)
  | _ =>
      (true, fold_left (push_improvement cfg) (sort improvements)
                       (with_base b2 g))
  end.

Definition find_and_push_potential_next_states {sorter : Sorter} (cfg : Config)
    (g : GreedyDfsSolver) (state : SolverState) (depth : Z) : bool * GreedyDfsSolver :=
  let candidates := generate_unique_candidates cfg (greedy_base g) (fst state) depth in
  match candidates with
  | [] => (false, g)
  | _ => evaluate_and_process_candidates cfg g candidates state (1 <? depth)
  end.

(** ** [GreedyDfsSolver::solve] *)

(** The solver when the loop of [solve] is first reached: the constructor
    has run and the empty layout is on the stack and marked visited. *)
Definition greedy_start (cfg : Config) : GreedyDfsSolver :=
  let b := SolverBase_new cfg in
  {| greedy_base := mark_visited (to_string_representation cfg (Maze_new cfg)) b;
     states_to_explore_stack_ := [(Maze_new cfg, highest_known_score_ b)] |}.

(** One iteration of [while (!states_to_explore_stack_.empty())]; [None]
    when the stack is empty and the loop ends. *)
Definition greedy_iter {sorter : Sorter} (cfg : Config) (g : GreedyDfsSolver)
    : option GreedyDfsSolver :=
  match states_to_explore_stack_ g with
  | [] => None
  | current_state :: rest =>
      let g0 := {| greedy_base := greedy_base g; states_to_explore_stack_ := rest |} in
      let '(improvement_found, g1) :=
        find_and_push_potential_next_states cfg g0 current_state 1 in
      if negb improvement_found && (1 <? DEEP_JUMP_DEPTH cfg) then
        let g2 := with_base (print_line DeadEndFound (greedy_base g1)) g1 in
        Some (snd (find_and_push_potential_next_states cfg g2 current_state
                     (DEEP_JUMP_DEPTH cfg)))
      else Some g1
  end.

(** The solver after at most [n] iterations of the loop of [solve]. *)
Fixpoint greedy_loop {sorter : Sorter} (cfg : Config) (n : nat) (g : GreedyDfsSolver)
    : GreedyDfsSolver :=
  match n with
  | O => g
  | S n' =>
      match greedy_iter cfg g with
      | None => g
      | Some g' => greedy_loop cfg n' g'
      end
  end.

Definition greedy_run {sorter : Sorter} (cfg : Config) (n : nat) : GreedyDfsSolver :=
  greedy_loop cfg n (greedy_start cfg).

(** A sort to run the search with: insertion sort, which keeps entries of
    equal score in the order they have in the range. *)
Fixpoint insert_by_score (s : SolverState) (l : list SolverState) : list SolverState :=
  match l with
  | [] => [s]
  | t :: l' => if snd t <? snd s then t :: insert_by_score s l' else s :: l
  end.

Definition sort_by_score (l : list SolverState) : list SolverState :=
  fold_right insert_by_score [] l.

Definition insertion_sorter : Sorter.
Proof.
  assert (∀ s l, insert_by_score s l ≡ₚ s :: l) as Hinsert.
  { intros s l. induction l as [|t l IH]; simpl; [done|].
    destruct (snd t <? snd s); [|done]. rewrite IH. apply Permutation_swap. }
  assert (∀ s l, StronglySorted score_le l →
                 StronglySorted score_le (insert_by_score s l)) as Hsorted.
  { intros s l. induction l as [|t l IH]; intros Hl; simpl.
    - repeat constructor.
    - apply StronglySorted_cons in Hl as [Hall Hl].
      destruct (snd t <? snd s) eqn:Hlt.
      + apply Z.ltb_lt in Hlt. apply StronglySorted_cons. split; [|by apply IH].
        rewrite Hinsert. constructor; [unfold score_le; lia|done].
      + apply Z.ltb_ge in Hlt. apply StronglySorted_cons. split.
        * constructor; [done|].
          eapply Forall_impl; [exact Hall|]. unfold score_le. intros; lia.
        * by apply StronglySorted_cons. }
  refine {| sort := sort_by_score |}.
  - intros l. unfold sort_by_score. induction l as [|s l IH]; simpl; [done|].
    by rewrite Hinsert, IH.
  - intros l. unfold sort_by_score. induction l as [|s l IH]; simpl; [constructor|].
    by apply Hsorted.
Defined.

(* ===================================================================== *)
(** * class BestFirstSolver *)
(* ===================================================================== *)

(** [std::shuffle] driven by the [std::mt19937] generator: the library code
    is not part of the program, so the generator state is a type [G] and
    the shuffle a function that returns some permutation of its argument
    and the next generator state. *)
Class Shuffler (G : Type) := {
  shuffle : G → list Point → list Point * G;
  shuffle_perm : ∀ g l, fst (shuffle g l) ≡ₚ l
}.

(** [std::priority_queue<SolverState, std::vector<SolverState>,
    StateComparator>]: library code as well.  A queue is a value of a type
    [Q]; [pq_empty] is the queue the constructor makes, [pq_push] is
    [push], and [pq_pop] is [top] followed by [pop], with [None] where
    [empty()] holds.  [pq_entries] is what the queue holds.  The standard
    fixes that [top] is an entry that [StateComparator] puts below no
    other, an entry of greatest score, and leaves open which of several
    such entries it is. *)
Class PriorityQueue (Q : Type) := {
  pq_empty : Q;
  pq_push : SolverState → Q → Q;
  pq_pop : Q → option (SolverState * Q);
  pq_entries : Q → list SolverState;
  pq_entries_empty : pq_entries pq_empty = [];
  pq_entries_push : ∀ s q, pq_entries (pq_push s q) ≡ₚ s :: pq_entries q;
  pq_pop_None : ∀ q, pq_pop q = None → pq_entries q = [];
  pq_pop_Some : ∀ q s q',
    pq_pop q = Some (s, q') →
    pq_entries q ≡ₚ s :: pq_entries q'
    ∧ ∀ e, e ∈ pq_entries q' → snd e <= snd s
}.

Definition placeable_cells (cfg : Config) (m : Maze) : list Point :=
  filter (λ p, is_placeable cfg m p = true) (all_cells cfg).

(** The body of [for (const auto& p : placeable_cells)]; [acc] is the base
    and the frontier. *)
Definition best_first_visit {Q} {queue : PriorityQueue Q} (cfg : Config)
    (current_maze : Maze) (acc : SolverBase * Q) (p : Point) : SolverBase * Q :=
  let '(b, pq) := acc in
  let next_maze := set_wall_at current_maze p true in
  let repr := to_string_representation cfg next_maze in
  if decide (repr ∈ globally_visited_layouts_ b) then acc
  else
    let '(score, b1) := get_score_for_maze cfg b next_maze in
    let b2 := update_record b1 next_maze score in
    (mark_visited repr b2, pq_push (next_maze, score) pq).

(** The members of the solver and the locals [pq] and [rng] of [solve]. *)
Record BestFirstSolver (G Q : Type) := {
  best_first_base : SolverBase;
  pq_ : Q;
  rng_ : G
}.
Arguments best_first_base {G Q} _.
Arguments pq_ {G Q} _.
Arguments rng_ {G Q} _.

(** The cells in the order in which the loop visits them. *)
Definition visiting_order `{Shuffler G} (cfg : Config) (rng : G) (m : Maze)
    : list Point * G :=
  if RANDOMIZE_CELL_ORDER cfg then shuffle rng (placeable_cells cfg m)
  else (placeable_cells cfg m, rng).

Definition best_first_start `{Shuffler G} {Q} {queue : PriorityQueue Q}
    (cfg : Config) (seed : G) : BestFirstSolver G Q :=
  let b := SolverBase_new cfg in
  {| best_first_base := mark_visited (to_string_representation cfg (Maze_new cfg)) b;
     pq_ := pq_push (Maze_new cfg, highest_known_score_ b) pq_empty;
     rng_ := seed |}.

(** One iteration of [while (!pq.empty())]. *)
Definition best_first_iter `{Shuffler G} {Q} {queue : PriorityQueue Q} (cfg : Config)
    (s : BestFirstSolver G Q) : option (BestFirstSolver G Q) :=
  match pq_pop (pq_ s) with
  | None => None
  | Some (current_state, rest) =>
      let '(cells, rng') := visiting_order cfg (rng_ s) (fst current_state) in
      let '(b, pq') :=
        fold_left (best_first_visit cfg (fst current_state)) cells
                  (best_first_base s, rest) in
      Some {| best_first_base := b; pq_ := pq'; rng_ := rng' |}
  end.

Fixpoint best_first_loop `{Shuffler G} {Q} {queue : PriorityQueue Q}
    (cfg : Config) (n : nat) (s : BestFirstSolver G Q) : BestFirstSolver G Q :=
  match n with
  | O => s
  | S n' =>
      match best_first_iter cfg s with
      | None => s
      | Some s' => best_first_loop cfg n' s'
      end
  end.

Definition best_first_run `{Shuffler G} {Q} {queue : PriorityQueue Q}
    (cfg : Config) (seed : G) (n : nat) : BestFirstSolver G Q :=
  best_first_loop cfg n (best_first_start cfg seed).

(** The shuffler that leaves the order alone. *)
#[export] Instance identity_shuffler : Shuffler unit :=
  {| shuffle := λ g l, (l, g); shuffle_perm := λ g l, reflexivity l |}.

(** A queue to run the search with: the entries in a list, the newest
    first; the entry taken out is the first of those of greatest score. *)
Fixpoint take_greatest (pq : list SolverState)
    : option (SolverState * list SolverState) :=
  match pq with
  | [] => None
  | x :: rest =>
      match take_greatest rest with
      | None => Some (x, [])
      | Some (y, rest') =>
          if snd x <? snd y then Some (y, x :: rest') else Some (x, rest)
      end
  end.

Definition list_priority_queue : PriorityQueue (list SolverState).
Proof.
  refine {| pq_empty := []; pq_push := cons; pq_pop := take_greatest;
            pq_entries := λ q, q |}.
  - done.
  - done.
  - intros [|x q]; [done|]. simpl. destruct (take_greatest q) as [[y rest]|]; [|done].
    by destruct (snd x <? snd y).
  - intros q. induction q as [|a q IH]; intros x rest; [done|].
    simpl. destruct (take_greatest q) as [[y rest']|] eqn:Hpop.
    + destruct (IH y rest' eq_refl) as [Hperm Hmax].
      destruct (snd a <? snd y) eqn:Hlt; intros [= <- <-].
      * apply Z.ltb_lt in Hlt. split.
        -- rewrite Hperm. apply Permutation_swap.
        -- intros z [->|Hz]%elem_of_cons; [lia|by apply Hmax].
      * apply Z.ltb_ge in Hlt. split; [done|].
        intros z Hz. rewrite Hperm in Hz.
        apply elem_of_cons in Hz as [->|Hz]; [done|].
        specialize (Hmax z Hz). lia.
    + intros [= <- <-]. destruct q as [|b q].
      * split; [done|]. by intros y ?%elem_of_nil.
      * simpl in Hpop. destruct (take_greatest q) as [[y rest']|]; [|done].
        by destruct (snd b <? snd y).
Defined.

Definition maze_of (rows : list (list bool)) : Maze := {| wall_grid := rows |}.

(** A 19 x 20 grid and a layout of it on which the walk is long: [#] is a
    wall.
<<
      ...#.####.##.#.#...
      .....#.........#...
      ..#..#..#.##.#.##.#
      .#.#.##..###.##....
      ..#...##.##...###.#
      .#.#.##...##.##....
      .#.....#.###.##.#.#
      #..#.#....##....#.#
      .#.##.##.###.#.#...
      ...#....##..#.#.#.#
      .#.###.#.#......#.#
      #...#......#####...
      ##.###..#...#...#..
      .....##..#..#.....#
      #.#.#.#.#....#.#.##
      ...#.#...#...#..##.
      #...###.##.####.#.#
      ##....#.#.#.#.#...#
      ...............#.#.
      #.#.....#.....##...
>> *)
Definition config_19x20 : Config :=
  {| MAZE_WIDTH := 19; MAZE_HEIGHT := 20; DEEP_JUMP_DEPTH := 2;
     RANDOMIZE_CELL_ORDER := true |}.

Definition long_walk_19x20 : Maze :=
  maze_of
    [[false; false; false; true; false; true; true; true; true; false;
      true; true; false; true; false; true; false; false; false];
     [false; false; false; false; false; true; false; false; false; false;
      false; false; false; false; false; true; false; false; false];
     [false; false; true; false; false; true; false; false; true; false;
      true; true; false; true; false; true; true; false; true];
     [false; true; false; true; false; true; true; false; false; true;
      true; true; false; true; true; false; false; false; false];
     [false; false; true; false; false; false; true; true; false; true;
      true; false; false; false; true; true; true; false; true];
     [false; true; false; true; false; true; true; false; false; false;
      true; true; false; true; true; false; false; false; false];
     [false; true; false; false; false; false; false; true; false; true;
      true; true; false; true; true; false; true; false; true];
     [true; false; false; true; false; true; false; false; false; false;
      true; true; false; false; false; false; true; false; true];
     [false; true; false; true; true; false; true; true; false; true;
      true; true; false; true; false; true; false; false; false];
     [false; false; false; true; false; false; false; false; true; true;
      false; false; true; false; true; false; true; false; true];
     [false; true; false; true; true; true; false; true; false; true;
      false; false; false; false; false; false; true; false; true];
     [true; false; false; false; true; false; false; false; false; false;
      false; true; true; true; true; true; false; false; false];
     [true; true; false; true; true; true; false; false; true; false;
      false; false; true; false; false; false; true; false; false];
     [false; false; false; false; false; true; true; false; false; true;
      false; false; true; false; false; false; false; false; true];
     [true; false; true; false; true; false; true; false; true; false;
      false; false; false; true; false; true; false; true; true];
     [false; false; false; true; false; true; false; false; false; true;
      false; false; false; true; false; false; true; true; false];
     [true; false; false; false; true; true; true; false; true; true;
      false; true; true; true; true; false; true; false; true];
     [true; true; false; false; false; false; true; false; true; false;
      true; false; true; false; true; false; false; false; true];
     [false; false; false; false; false; false; false; false; false; false;
      false; false; false; false; false; true; false; true; false];
     [true; false; true; false; false; false; false; false; true; false;
      false; false; false; false; true; true; false; false; false]].

(* ===================================================================== *)
(** * Vocabulary of the statements *)
(* ===================================================================== *)

(** A grid of [h] rows of [w] cells. *)
Definition grid_dims {A} (h w : nat) (g : list (list A)) : Prop :=
  length g = h ∧ Forall (λ row, length row = w) g.

(** The cells not yet marked in the [visited] grid of the traversal. *)
Fixpoint count_false (row : list bool) : nat :=
  match row with
  | [] => 0
  | b :: row' => ((if b then 0 else 1) + count_false row')%nat
  end.

Fixpoint unvisited_count (g : list (list bool)) : nat :=
  match g with
  | [] => 0
  | row :: g' => (count_false row + unvisited_count g')%nat
  end.

(** An open cell: inside the grid and not a wall. *)
Definition open_cell (cfg : Config) (m : Maze) (p : Point) : Prop :=
  is_within_bounds cfg p = true ∧ is_wall_at m p = false.

Definition adjacent (p q : Point) : Prop :=
  ∃ d, d ∈ Directions.ALL ∧ q = Point_add p (delta d).

(** A four-connected path of open cells from [p] to the last argument. *)
Inductive connected (cfg : Config) (m : Maze) (p : Point) : Point → Prop :=
| connected_here : open_cell cfg m p → connected cfg m p p
| connected_step q r :
    connected cfg m p q → adjacent q r → open_cell cfg m r →
    connected cfg m p r.

(** The states the walk goes through: [walk_reaches cfg st st'] when the
    loop, started in [st], comes to test its condition in [st']. *)
Inductive walk_reaches (cfg : Config) (st : SimState) : SimState → Prop :=
| walk_reaches_here : walk_reaches cfg st st
| walk_reaches_step st' st'' :
    walk_reaches cfg st st' →
    not_at_finish cfg (pos st') = true →
    loop_body cfg st' = Continue st'' →
    walk_reaches cfg st st''.

(** A direction whose target the scan of the neighbours accepts: inside
    the grid and not marked -1. *)
Definition eligible (cfg : Config) (vc : list (list Z)) (p : Point)
    (d : Direction) : Prop :=
  is_within_bounds cfg (Point_add p (delta d)) = true
  ∧ grid_get 0 vc (Point_add p (delta d)) ≠ -1.

(** The visit count the scan reads for the neighbour in direction [d]. *)
Definition neighbor_visits_of (vc : list (list Z)) (p : Point) (d : Direction) : Z :=
  grid_get 0 vc (Point_add p (delta d)).

(** What [(min_visits, best_dirs)] are once the scan has gone through the
    directions [seen]. *)
Definition scan_inv (cfg : Config) (vc : list (list Z)) (p : Point)
    (seen : list Direction) (acc : Z * list Direction) : Prop :=
  (fst acc = -1 ∧ snd acc = [] ∧ ∀ y, y ∈ seen → ¬ eligible cfg vc p y)
  ∨ (0 <= fst acc ∧ snd acc ≠ []
     ∧ (∀ x, x ∈ snd acc ↔
             x ∈ seen ∧ eligible cfg vc p x ∧ neighbor_visits_of vc p x = fst acc)
     ∧ (∀ y, y ∈ seen → eligible cfg vc p y → fst acc <= neighbor_visits_of vc p y)).

(** Scoring the layouts of a list one after the other, as the strategies
    do between two calls for the same key. *)
Definition score_all (cfg : Config) (b : SolverBase) (mazes : list Maze) : SolverBase :=
  fold_left (λ b maze, snd (get_score_for_maze cfg b maze)) mazes b.

(** The weight of the queue of the enumeration: an entry at depth [d]
    counts for the tree it can still unfold. *)
Definition queue_weight (cfg : Config) (jump_depth : Z) (q : list (Maze * Z)) : nat :=
  sum_list_with
    (λ e, tree_weight (length (all_cells cfg)) (Z.to_nat (jump_depth - snd e))) q.

(** What holds of [candidates] and [local_visited] throughout one call of
    the enumeration on [base]. *)
Definition generate_inv (cfg : Config) (globally_visited : gset string)
    (base : Maze) (candidates : list Maze) (local_visited : gset string) : Prop :=
  to_string_representation cfg base ∈ local_visited
  ∧ NoDup (to_string_representation cfg <$> candidates)
  ∧ ∀ c, c ∈ candidates →
         to_string_representation cfg c ∈ local_visited
         ∧ (to_string_representation cfg c ∉ globally_visited)
         ∧ (to_string_representation cfg c ≠ to_string_representation cfg base).

(** A layout whose start and finish cells are as in [base]. *)
Definition same_ends (cfg : Config) (base m : Maze) : Prop :=
  is_wall_at m START_POINT = is_wall_at base START_POINT
  ∧ is_wall_at m (FINISH_POINT cfg) = is_wall_at base (FINISH_POINT cfg).

(** What holds of the record sink throughout a run: the first record is
    the empty layout with its score, passed by the constructor; the scores
    received are strictly increasing; the last of them is the best-known
    score. *)
Definition records_inv (cfg : Config) (b : SolverBase) : Prop :=
  (∃ later, records b
            = (Maze_new cfg, calculate_score cfg (Maze_new cfg)) :: later)
  ∧ StronglySorted Z.lt (snd <$> records b)
  ∧ last (snd <$> records b) = Some (highest_known_score_ b).

Definition is_record_line (line : ConsoleLine) : Prop :=
  ∃ score, line = RecordFound score.






(** What holds of the state of the walk whenever the loop tests its
    condition: the counts keep the shape of the grid, are -1 exactly on
    the walls, and the agent stands on an open cell. *)
Definition walk_inv (cfg : Config) (m : Maze) (st : SimState) : Prop :=
  grid_dims (Z.to_nat (MAZE_HEIGHT cfg)) (Z.to_nat (MAZE_WIDTH cfg))
            (visit_counts st)
  ∧ (∀ p, is_within_bounds cfg p = true →
          if is_wall_at m p then grid_get 0 (visit_counts st) p = -1
          else 0 <= grid_get 0 (visit_counts st) p)
  ∧ open_cell cfg m (pos st).

Definition at_xy (x y : Z) : Point := {| coordinate_x := x; coordinate_y := y |}.

(** The trace of the walk on the empty 2 x 2 grid, as a statement about
    the two iterations of the loop; [count_after_first_move] is the visit
    count of (0,1) once the agent has moved there. *)
Definition trace_2x2 (count_after_first_move : Z) : Prop :=
  let cfg := config_2x2 in
  let m := Maze_new cfg in
  let st0 := init_state cfg m in
  pos st0 = at_xy 0 0
  ∧ last_dir st0 = Directions.DOWN
  ∧ grid_get 0 (visit_counts st0) (Point_add (pos st0) (delta Directions.RIGHT)) = 0
  ∧ grid_get 0 (visit_counts st0) (Point_add (pos st0) (delta Directions.DOWN)) = 0
  ∧ best_dirs_of cfg (visit_counts st0) (pos st0) ≡ₚ [Directions.RIGHT; Directions.DOWN]
  ∧ ∃ st1 st2,
      loop_body cfg st0 = Continue st1
      ∧ last_dir st1 = Directions.DOWN
      ∧ pos st1 = at_xy 0 1
      ∧ grid_get 0 (visit_counts st1) (at_xy 0 1) = count_after_first_move
      ∧ not_at_finish cfg (pos st1) = true
      ∧ grid_get 0 (visit_counts st1) (Point_add (pos st1) (delta Directions.UP)) = 1
      ∧ grid_get 0 (visit_counts st1) (Point_add (pos st1) (delta Directions.RIGHT)) = 0
      ∧ is_within_bounds cfg (Point_add (pos st1) (delta Directions.LEFT)) = false
      ∧ is_within_bounds cfg (Point_add (pos st1) (delta Directions.DOWN)) = false
      ∧ best_dirs_of cfg (visit_counts st1) (pos st1) = [Directions.RIGHT]
      ∧ loop_body cfg st1 = Continue st2
      ∧ pos st2 = at_xy 1 1
      ∧ pos st2 = FINISH_POINT cfg
      ∧ not_at_finish cfg (pos st2) = false
      ∧ steps st2 = 2
      ∧ calculate_score_run cfg m = Some (2, 2%nat)
      ∧ calculate_score cfg m = 2.

(* ===================================================================== *)
(** * class StochasticHillClimber *)
(* ===================================================================== *)

(** The random draws of [StochasticHillClimber::solve]: next to the
    shuffle, the test [dist(rng) < STOCHASTIC_ACCEPT_WORSE_PROBABILITY],
    of which only the outcome matters, and the draw of an index by
    [std::uniform_int_distribution<size_t>(0, n - 1)]. *)
Class HillRandom (G : Type) := {
  hill_shuffler :: Shuffler G;
  draw_accept_worse : G → bool * G;
  draw_index : G → nat → nat * G;
  draw_index_lt : ∀ g n, (0 < n)%nat → (fst (draw_index g n) < n)%nat
}.

(** The members of the solver and the locals of [solve] that live across
    the iterations of its loop. *)
Record StochasticHillClimber (G : Type) := {
  hill_base : SolverBase;
  hill_current_maze : Maze;
  hill_run_counter : Z;
  hill_rng : G
}.
Arguments hill_base {G} _.
Arguments hill_current_maze {G} _.
Arguments hill_run_counter {G} _.
Arguments hill_rng {G} _.

(** The body of [for (const auto& p : placeable_cells)] of the greedy
    step; [acc] is the base and [best_next_state]. *)
Definition hill_visit (cfg : Config) (current_maze : Maze)
    (acc : SolverBase * SolverState) (p : Point) : SolverBase * SolverState :=
  let '(b, best_next_state) := acc in
  let next_maze := set_wall_at current_maze p true in
  let '(score, b') := get_score_for_maze cfg b next_maze in
  if snd best_next_state <? score then (b', (next_maze, score))
  else (b', best_next_state).

(** The end of an iteration that kept a layout: it is scored and passed
    to the update rule. *)
Definition hill_adopt {G} (cfg : Config) (b : SolverBase) (maze : Maze)
    (counter : Z) (rng : G) : StochasticHillClimber G :=
  let '(current_score, b1) := get_score_for_maze cfg b maze in
  {| hill_base := update_record b1 maze current_score;
     hill_current_maze := maze;
     hill_run_counter := counter;
     hill_rng := rng |}.

(** One iteration of [while (true)]. *)
Definition hill_iter `{HillRandom G} (cfg : Config) (s : StochasticHillClimber G)
    : StochasticHillClimber G :=
  let counter := hill_run_counter s + 1 in
  let current_maze := hill_current_maze s in
  match placeable_cells cfg current_maze with
  | [] =>
      {| hill_base := hill_base s; hill_current_maze := Maze_new cfg;
         hill_run_counter := counter; hill_rng := hill_rng s |}
  | _ =>
      let '(cells, rng1) := visiting_order cfg (hill_rng s) current_maze in
      let '(accept_worse, rng2) := draw_accept_worse rng1 in
      if accept_worse then
        let '(index, rng3) := draw_index rng2 (length cells) in
        match cells !! index with
        | Some p =>
            hill_adopt cfg (hill_base s) (set_wall_at current_maze p true)
                       counter rng3
        | None =>
            (* [placeable_cells[i]] outside the vector; the index drawn is
               always inside *)
            hill_adopt cfg (hill_base s) current_maze counter rng3
        end
      else
        let '(b, best_next_state) :=
          fold_left (hill_visit cfg current_maze) cells
                    (hill_base s, (current_maze, -1)) in
        if snd best_next_state =? -1 then
          {| hill_base := b; hill_current_maze := Maze_new cfg;
             hill_run_counter := counter; hill_rng := rng2 |}
        else hill_adopt cfg b (fst best_next_state) counter rng2
  end.

Definition hill_start {G} (cfg : Config) (seed : G) : StochasticHillClimber G :=
  {| hill_base := SolverBase_new cfg;
     hill_current_maze := Maze_new cfg;
     hill_run_counter := 0;
     hill_rng := seed |}.

(** The solver after [n] iterations of the loop, which has no exit. *)
Definition hill_run `{HillRandom G} (cfg : Config) (seed : G) (n : nat)
    : StochasticHillClimber G :=
  Nat.iter n (hill_iter cfg) (hill_start cfg seed).

(** Draws that never accept a worse layout and draw index 0. *)
#[export] Instance plain_hill_random : HillRandom unit :=
  {| hill_shuffler := identity_shuffler;
     draw_accept_worse := λ g, (false, g);
     draw_index := λ g n, (0%nat, g);
     draw_index_lt := λ g n Hn, Hn |}.

(** A source whose draw always accepts a worse layout and picks the last
    cell. *)
Definition bold_hill_random : HillRandom unit :=
  {| hill_shuffler := identity_shuffler;
     draw_accept_worse := λ g, (true, g);
     draw_index := λ g n, (Nat.pred n, g);
     draw_index_lt := λ g n Hn, Nat.lt_pred_l n (Nat.neq_sym _ _ (Nat.lt_neq _ _ Hn)) |}.

(* ===================================================================== *)
(** * Vocabulary of the further statements *)
(* ===================================================================== *)

(** What holds of the traversal of [has_path_to_finish] whenever its loop
    tests the queue; [processed] are the points taken from the queue so
    far.  Every marked cell is processed or queued, the finish is not
    among the processed, every open neighbour of a processed point is
    marked, and the start is marked. *)
Definition bfs_inv (cfg : Config) (m : Maze) (processed q : list Point)
    (visited : list (list bool)) : Prop :=
  grid_dims (Z.to_nat (MAZE_HEIGHT cfg)) (Z.to_nat (MAZE_WIDTH cfg)) visited
  ∧ (∀ p, is_within_bounds cfg p = true → grid_get false visited p = true →
          p ∈ processed ∨ p ∈ q)
  ∧ (FINISH_POINT cfg ∉ processed)
  ∧ (∀ p d, p ∈ processed → d ∈ Directions.ALL →
            open_cell cfg m (Point_add p (delta d)) →
            grid_get false visited (Point_add p (delta d)) = true)
  ∧ grid_get false visited START_POINT = true.

(** Every cache entry holds the simulator's score of the layouts of its
    key. *)
Definition cache_ok (cfg : Config) (b : SolverBase) : Prop :=
  ∀ maze score,
    score_cache_ b !! to_string_representation cfg maze = Some score →
    score = calculate_score cfg maze.

(** A layout a search may hold: well formed, start and finish open. *)
Definition valid_layout (cfg : Config) (m : Maze) : Prop :=
  maze_wf cfg m
  ∧ is_wall_at m START_POINT = false
  ∧ is_wall_at m (FINISH_POINT cfg) = false.

(** A layout paired with its own score. *)
Definition scored (cfg : Config) (e : SolverState) : Prop :=
  valid_layout cfg (fst e) ∧ snd e = calculate_score cfg (fst e).

(** What holds of the base of a solver throughout a run. *)
Definition base_ok (cfg : Config) (b : SolverBase) : Prop :=
  cache_ok cfg b
  ∧ simulator_calls b = size (score_cache_ b)
  ∧ Forall (scored cfg) (records b).

(** The base only grows. *)
Definition base_grows (b b' : SolverBase) : Prop :=
  globally_visited_layouts_ b ⊆ globally_visited_layouts_ b'
  ∧ score_cache_ b ⊆ score_cache_ b'
  ∧ highest_known_score_ b <= highest_known_score_ b'.

(** What holds of a frontier (the stack of Greedy-Backtrack, the queue of
    Best-First) with respect to the base: its entries are valid layouts
    with their own scores, none above the best-known score, all marked
    visited, no two of one key. *)
Definition frontier_ok (cfg : Config) (b : SolverBase)
    (frontier : list SolverState) : Prop :=
  Forall (scored cfg) frontier
  ∧ Forall (λ e, snd e <= highest_known_score_ b) frontier
  ∧ Forall (λ e, to_string_representation cfg (fst e)
                   ∈ globally_visited_layouts_ b) frontier
  ∧ NoDup ((λ e, to_string_representation cfg (fst e)) <$> frontier).

(** A cell a search may wall in the layout [m]: inside the grid, open,
    neither the start nor the finish. *)
Definition may_be_walled (cfg : Config) (m : Maze) (p : Point) : Prop :=
  is_within_bounds cfg p = true
  ∧ p ≠ START_POINT ∧ p ≠ FINISH_POINT cfg
  ∧ is_wall_at m p = false.

(** A layout one wall away from [m]: [m] with one such cell walled. *)
Definition single_wall_neighbour (cfg : Config) (m c : Maze) : Prop :=
  ∃ p, may_be_walled cfg m p ∧ c = set_wall_at m p true.

(** A depth-1 candidate of [m]: a layout one wall away whose key is not
    in the visited set. *)
Definition depth_one_candidate (cfg : Config) (visited : gset string)
    (m c : Maze) : Prop :=
  single_wall_neighbour cfg m c ∧ to_string_representation cfg c ∉ visited.

(** An improving depth-1 candidate of the entry [current]: its score is
    strictly above the score of the entry. *)
Definition improving_candidate (cfg : Config) (visited : gset string)
    (current : SolverState) (c : Maze) : Prop :=
  depth_one_candidate cfg visited (fst current) c
  ∧ snd current < calculate_score cfg c.

(** The keys of the layouts of a list of entries. *)
Definition keys_of (cfg : Config) (entries : list SolverState) : gset string :=
  list_to_set ((λ e, to_string_representation cfg (fst e)) <$> entries).

(** A layout paired with the score the simulator gives it. *)
Definition with_score (cfg : Config) (c : Maze) : SolverState :=
  (c, calculate_score cfg c).

(** The character ['\n']. *)
Definition newline : string := String (Ascii.ascii_of_nat 10) EmptyString.

(* ===================================================================== *)
(** * class binary_heap *)
(* ===================================================================== *)

(** The heap is its one member, the vector [data]. Indices are [size_t]
    in the source: a vector holds fewer than 2^63 elements, so
    [2*index + 2] with [index] at most the size does not wrap, and the
    indices are modelled in [nat].

    Reading [data[i]] outside the vector, and [value()] of an empty
    optional, have no defined result in the source: the operations return
    [option] and give [None] there. The recursive operations carry a fuel,
    [index] for [sift_up] and the size for [down_heapify]; it is never used
    up (see [sift_up_from_total] and [down_heapify_from_total]). *)
Module binary_heap.

(** What is written to an output stream: values of [T] and text. *)
Inductive token (T : Type) : Type :=
  | Value (x : T)
  | Text (s : string).
Arguments Value {T} x.
Arguments Text {T} s.

Section binary_heap.
Context {T : Type} (Comparator : T → T → bool).

Definition calculate_parent (index : nat) : option nat :=
  if (0 <? index)%nat then Some ((index - 1) / 2)%nat else None.

Definition calculate_children (data : list T) (index : nat)
    : option nat * option nat :=
  (if (2 * index + 1 <? length data)%nat then Some (2 * index + 1)%nat else None,
   if (2 * index + 2 <? length data)%nat then Some (2 * index + 2)%nat else None).

(** [std::swap(data[i], data[j])] *)
Definition swap (data : list T) (i j : nat) : option (list T) :=
  x ← data !! i; y ← data !! j; Some (<[j:=x]> (<[i:=y]> data)).

Fixpoint sift_up_from (fuel : nat) (data : list T) (index : nat)
    : option (list T) :=
  match calculate_parent index with
  | Some parent =>
      x ← data !! index; y ← data !! parent;
      if Comparator x y then
        match fuel with
        | O => None
        | S fuel' =>
            data' ← swap data parent index; sift_up_from fuel' data' parent
        end
      else Some data
  | None => Some data
  end.

Definition sift_up (data : list T) (index : nat) : option (list T) :=
  sift_up_from index data index.

Fixpoint down_heapify_from (fuel : nat) (data : list T) (index : nat)
    : option (list T) :=
  match snd (calculate_children data index) with
  | Some second =>
      (* both children exist *)
      first ← fst (calculate_children data index);
      x1 ← data !! first; x2 ← data !! second;
      let comparison_winning_child :=
        if Comparator x1 x2 then first else second in
      xw ← data !! comparison_winning_child; x ← data !! index;
      if Comparator xw x then
        match fuel with
        | O => None
        | S fuel' =>
            data' ← swap data comparison_winning_child index;
            down_heapify_from fuel' data' comparison_winning_child
        end
      else Some data
  | None =>
      match fst (calculate_children data index) with
      | Some first =>
          (* one child exists *)
          x1 ← data !! first; x ← data !! index;
          if Comparator x1 x then
            match fuel with
            | O => None
            | S fuel' =>
                data' ← swap data first index;
                down_heapify_from fuel' data' first
            end
          else Some data
      | None => Some data
      end
  end.

Definition down_heapify (data : list T) (index : nat) : option (list T) :=
  down_heapify_from (length data) data index.

(** [for (i = data.size() / 2; i >= 0; i--) down_heapify(i)] *)
Definition heapify (data : list T) : option (list T) :=
  fold_left (λ acc i, data' ← acc; down_heapify data' i)
            (rev (seq 0 (S (length data / 2)))) (Some data).

(** The constructor. *)
Definition new (raw_data : list T) : option (list T) := heapify raw_data.

Definition push (data : list T) (element : T) : option (list T) :=
  let data := data ++ [element] in
  sift_up data (length data - 1).

Definition top (data : list T) : option T := data !! 0%nat.

(** [pop] returns the element and leaves the new [data]. *)
Definition pop (data : list T) : option (T * list T) :=
  top ← data !! 0%nat;
  data ← swap data 0 (length data - 1);
  let data := removelast data in
  data ← down_heapify data 0;
  Some (top, data).

(** [operator<<]: what is written to [out], at index [i] of a vector of
    [size] elements and in all. *)
Definition show_item (size i : nat) (x : T) : list (token T) :=
  [Value x; Text " "]
  ++ (if (Nat.land (i + 1) (i + 2) =? 0)%nat || (i =? size - 1)%nat
      then [Text newline] else []).

Definition show (data : list T) : list (token T) :=
  mjoin (imap (show_item (length data)) data).

(** The levels of the tree a vector stands for: level [k] is
    [data[2^k - 1 .. 2^(k+1) - 2]], as far as the vector goes. *)
Definition levels (data : list T) : list (list T) :=
  match data with
  | [] => []
  | _ => (λ k, take (2 ^ k) (drop (2 ^ k - 1) data))
           <$> seq 0 (S (Nat.log2 (length data)))
  end.

(** A level written on a line: each element followed by a space, then the
    newline. *)
Definition show_level (row : list T) : list (token T) :=
  mjoin ((λ x, [Value x; Text " "]) <$> row) ++ [Text newline].

(** No element wins the comparison against its parent, for the parents at
    index [lo] and above. *)
Definition ordered_from (lo : nat) (data : list T) : Prop :=
  ∀ i p x y, calculate_parent i = Some p → (lo ≤ p)%nat →
             data !! i = Some x → data !! p = Some y → Comparator x y = false.

Definition heap_ordered (data : list T) : Prop := ordered_from 0 data.

(** The heap order but for the element at [index], which may win against
    its parent; its children do not win against that parent. This is what
    [sift_up index] starts from. *)
Definition up_inv (data : list T) (index : nat) : Prop :=
  (∀ i p x y, calculate_parent i = Some p → i ≠ index →
              data !! i = Some x → data !! p = Some y → Comparator x y = false)
  ∧ (∀ c g x y, calculate_parent c = Some index → calculate_parent index = Some g →
                data !! c = Some x → data !! g = Some y → Comparator x y = false).

(** The heap order from [lo] but for the element at [index], against which
    its children may win; they do not win against its parent. This is what
    [down_heapify index] starts from. *)
Definition down_inv (lo : nat) (data : list T) (index : nat) : Prop :=
  (∀ i p x y, calculate_parent i = Some p → (lo ≤ p)%nat → p ≠ index →
              data !! i = Some x → data !! p = Some y → Comparator x y = false)
  ∧ (∀ c g x y, calculate_parent c = Some index → calculate_parent index = Some g →
                (lo ≤ g)%nat →
                data !! c = Some x → data !! g = Some y → Comparator x y = false).

(** A strict weak ordering, as [std::less] is. *)
Record strict_weak_order : Prop := {
  comparator_asym : ∀ x y, Comparator x y = true → Comparator y x = false;
  comparator_negtrans : ∀ x y z,
    Comparator x y = false → Comparator y z = false → Comparator x z = false
}.

End binary_heap.

(** ** [main] of binary heap.cpp *)

(** The input is the sequence of the tokens that white space separates
    on [std::cin]: [Number n] is a token that is the decimal numeral of
    [n], [Word w] any other token, one that does not begin as a numeral.
    [std::cin >> command] reads the next token as it is written; a
    numeral is none of the five commands.  [std::cin >> element] reads an
    [int], taken to have 32 bits: it fails on a word, on a numeral outside
    the range of [int] and at the end of the input.  Once an extraction
    has failed the stream is in a failed state that the program never
    clears, so every later [std::cin >> command] leaves [command] empty,
    no command matches and the loop goes on for ever without writing:
    [NoReturn], with what was written so far.  [Undefined] is [pop] or
    [top] on the empty heap.  The program only compares the elements of
    the heap, which are taken in [Z]. *)
Inductive item : Type :=
  | Word (w : string)
  | Number (n : Z).

Inductive outcome : Type :=
  | Returned (out : list (token Z))
  | NoReturn (out : list (token Z))
  | Undefined.

(** The values of [int]. *)
Definition in_int_range (n : Z) : bool :=
  (-2147483648 <=? n) && (n <=? 2147483647).

Fixpoint main_loop (input : list item) (heap : list Z)
    (out : list (token Z)) : outcome :=
  match input with
  | [] => NoReturn out
  | Number _ :: input => main_loop input heap out
  | Word command :: input =>
      if String.eqb command "push" then
        match input with
        | Number element :: input =>
            if in_int_range element then
              match push Z.ltb heap element with
              | Some heap => main_loop input heap out
              | None => Undefined
              end
            else NoReturn out
        | _ => NoReturn out
        end
      else if String.eqb command "pop" then
        match pop Z.ltb heap with
        | Some (x, heap) => main_loop input heap (out ++ [Value x; Text newline])
        | None => Undefined
        end
      else if String.eqb command "top" then
        match top heap with
        | Some x => main_loop input heap (out ++ [Value x; Text newline])
        | None => Undefined
        end
      else if String.eqb command "end" then Returned out
      else if String.eqb command "show" then
        main_loop input heap (out ++ show heap)
      else main_loop input heap out
  end.

Definition main (input : list item) : outcome :=
  match new Z.ltb [] with
  | Some heap => main_loop input heap []
  | None => Undefined
  end.

(** The input that pushes the elements of a list. *)
Definition pushes (xs : list Z) : list item :=
  xs ≫= λ x, [Word "push"; Number x].

End binary_heap.

(* ===================================================================== *)
(** * Maze::save_to_file *)
(* ===================================================================== *)



(* ===================================================================== *)
(** * Vocabulary: the walk on the empty layout *)
(* ===================================================================== *)

(** The cells the walk on the empty layout has been through when it
    stands at [(x, y)]: down the first column, then along the last row. *)
Definition corner_visited (x y : Z) (p : Point) : bool :=
  ((coordinate_x p =? 0) && (coordinate_y p <=? y))
  || ((coordinate_y p =? y) && (coordinate_x p <=? x)).

(** What holds of the state of that walk each time the loop tests its
    condition. *)
Definition corner_inv (cfg : Config) (st : SimState) : Prop :=
  grid_dims (Z.to_nat (MAZE_HEIGHT cfg)) (Z.to_nat (MAZE_WIDTH cfg))
            (visit_counts st)
  ∧ is_within_bounds cfg (pos st) = true
  ∧ (coordinate_x (pos st) = 0 ∨ coordinate_y (pos st) = MAZE_HEIGHT cfg - 1)
  ∧ steps st = coordinate_x (pos st) + coordinate_y (pos st)
  ∧ last_dir st = (if coordinate_x (pos st) =? 0
                   then Directions.DOWN else Directions.RIGHT)
  ∧ ∀ p, is_within_bounds cfg p = true →
         grid_get 0 (visit_counts st) p
         = if corner_visited (coordinate_x (pos st)) (coordinate_y (pos st)) p
           then 1 else 0.

(** A layout with walls added on the cells of a list. *)
Definition add_walls (base : Maze) (cells : list Point) : Maze :=
  fold_left (λ m p, set_wall_at m p true) cells base.

(* ===================================================================== *)
(** * calculator.cpp *)
(* ===================================================================== *)

(** The calculator is a template over the type [T] of the values, with
    its four operations; [main] takes [float]. The conversion
    [std::stringstream(buffer) >> value] of the text of a number is a
    function [read] of the model. Strings are lists of characters.

    [evaluate] returns [option]: [None] where the source has no defined
    result ([top] or [pop] of an empty stack) or throws
    ([std::get] of the other alternative). *)
Module calculator.

Inductive special_char : Type :=
  | PLUS | MINUS | MULTIPLY | DIVIDE | LEFT_PARENTHESIS | RIGHT_PARENTHESIS.

#[export] Instance special_char_eq_dec : EqDecision special_char.
Proof. solve_decision. Defined.

(** [std::variant<T, special_char>] *)
Inductive token (T : Type) : Type :=
  | value (x : T)
  | special (c : special_char).
Arguments value {T} x.
Arguments special {T} c.

(** The characters of the [case] labels of [switch (new_char)], each with
    the enumerator [static_cast<special_char::type>(new_char)] makes of
    it; [None] for the characters of the [default] label. *)
Definition special_char_of (c : Ascii.ascii) : option special_char :=
  if Ascii.eqb c "+"%char then Some PLUS
  else if Ascii.eqb c "-"%char then Some MINUS
  else if Ascii.eqb c "*"%char then Some MULTIPLY
  else if Ascii.eqb c "/"%char then Some DIVIDE
  else if Ascii.eqb c "("%char then Some LEFT_PARENTHESIS
  else if Ascii.eqb c ")"%char then Some RIGHT_PARENTHESIS
  else None.

(** [c >= '0' && c <= '9'] *)
Definition is_digit (c : Ascii.ascii) : bool :=
  (48 <=? Ascii.nat_of_ascii c)%nat && (Ascii.nat_of_ascii c <=? 57)%nat.

Definition is_empty (buffer : list Ascii.ascii) : bool :=
  match buffer with [] => true | _ => false end.

Section calculator.
Context {T : Type}.
Context (add sub mul div : T → T → T).
Context (read : list Ascii.ascii → T).

(** ** [parse] *)

(** [if (buffer != "") { stringstream(buffer) >> value;
    tokens.push_back(value); buffer = ""; }]: the tokens afterwards. *)
Definition flush (tokens : list (token T)) (buffer : list Ascii.ascii)
    : list (token T) :=
  if is_empty buffer then tokens else tokens ++ [value (read buffer)].

(** The body of [while (iss.get(new_char))]; the state is
    [(tokens, prev_char, buffer)]. *)
Definition parse_step (st : list (token T) * Ascii.ascii * list Ascii.ascii)
    (new_char : Ascii.ascii) : list (token T) * Ascii.ascii * list Ascii.ascii :=
  let '(tokens, prev_char, buffer) := st in
  let operator (c : special_char) :=
    (flush tokens buffer ++ [special c], new_char, []) in
  match special_char_of new_char with
  | Some MINUS =>
      if negb (is_digit prev_char) && negb (Ascii.eqb prev_char ")"%char) then
        (* unary minus *)
        if negb (is_empty buffer) then (tokens, new_char, [])
        else (tokens, new_char, buffer ++ [new_char])
      else operator MINUS
  | Some LEFT_PARENTHESIS =>
      let '(tokens, prev_char) :=
        if Ascii.eqb prev_char ")"%char
        then (tokens ++ [special MULTIPLY], "*"%char) else (tokens, prev_char) in
      let '(tokens, prev_char, buffer) :=
        if Ascii.eqb prev_char "-"%char && negb (is_empty buffer)
        then (tokens ++ [value (read (buffer ++ ["1"%char]))]
                     ++ [special MULTIPLY],
              "*"%char, [])
        else (tokens, prev_char, buffer) in
      let '(tokens, buffer) := (flush tokens buffer, @nil Ascii.ascii) in
      let '(tokens, prev_char) :=
        if negb (Ascii.eqb prev_char "("%char) && negb (Ascii.eqb prev_char "+"%char)
           && negb (Ascii.eqb prev_char "-"%char) && negb (Ascii.eqb prev_char "*"%char)
           && negb (Ascii.eqb prev_char "/"%char) && negb (Ascii.eqb prev_char "000"%char)
        then (tokens ++ [special MULTIPLY], "*"%char) else (tokens, prev_char) in
      (tokens ++ [special LEFT_PARENTHESIS], new_char, buffer)
  | Some c => operator c
  | None =>
      let tokens :=
        if Ascii.eqb prev_char ")"%char then tokens ++ [special MULTIPLY]
        else tokens in
      (tokens, new_char, buffer ++ [new_char])
  end.

Definition parse (previous_result : option (token T))
    (expression : list Ascii.ascii) : list (token T) :=
  let tokens := match previous_result with Some t => [t] | None => [] end in
  let prev_char :=
    match previous_result with Some _ => "0"%char | None => "000"%char end in
  let '(tokens, _, buffer) :=
    fold_left parse_step expression (tokens, prev_char, []) in
  flush tokens buffer.

(** ** [evaluate] *)

(** [std::get<special_char>(stack.top())] *)
Definition get_special (t : token T) : option special_char :=
  match t with special c => Some c | value _ => None end.

(** [std::get<T>(stack.top())] *)
Definition get_value (t : token T) : option T :=
  match t with value x => Some x | special _ => None end.

(** [while (!stack.empty() && get<special_char>(stack.top()).value !=
    LEFT_PARENTHESIS) { postfix_expression.push_back(stack.top());
    stack.pop(); }]: the stack (its head is the top) and the postfix
    expression afterwards. *)
Fixpoint pop_to_parenthesis (stack postfix : list (token T))
    : option (list (token T) * list (token T)) :=
  match stack with
  | [] => Some ([], postfix)
  | t :: rest =>
      c ← get_special t;
      if decide (c = LEFT_PARENTHESIS) then Some (stack, postfix)
      else pop_to_parenthesis rest (postfix ++ [t])
  end.

(** The body of the first loop: one token of the infix expression. *)
Definition shunt_step (st : option (list (token T) * list (token T)))
    (t : token T) : option (list (token T) * list (token T)) :=
  '(stack, postfix) ← st;
  match t with
  | value _ => Some (stack, postfix ++ [t])
  | special PLUS | special MINUS =>
      '(stack, postfix) ← pop_to_parenthesis stack postfix;
      Some (t :: stack, postfix)
  | special MULTIPLY | special DIVIDE | special LEFT_PARENTHESIS =>
      Some (t :: stack, postfix)
  | special RIGHT_PARENTHESIS =>
      '(stack, postfix) ← pop_to_parenthesis stack postfix;
      match stack with
      | [] => None
      | _ :: stack => Some (stack, postfix)
      end
  end.

(** The body of the second loop: one token of the postfix expression. *)
Definition postfix_step (st : option (list (token T))) (t : token T)
    : option (list (token T)) :=
  stack ← st;
  match t with
  | value _ => Some (t :: stack)
  | special c =>
      match stack with
      | ta :: tb :: stack =>
          a ← get_value ta; b ← get_value tb;
          match c with
          | PLUS => Some (value (add b a) :: stack)
          | MINUS => Some (value (sub b a) :: stack)
          | MULTIPLY => Some (value (mul b a) :: stack)
          | DIVIDE => Some (value (div b a) :: stack)
          | LEFT_PARENTHESIS | RIGHT_PARENTHESIS => Some stack
          end
      | _ => None
      end
  end.

Definition evaluate (expression : list (token T)) : option T :=
  '(stack, postfix) ← fold_left shunt_step expression (Some ([], []));
  (* [while (!stack.empty())]: the stack is emptied into the postfix
     expression *)
  let postfix_expression := postfix ++ stack in
  stack ← fold_left postfix_step postfix_expression (Some []);
  t ← head stack; get_value t.

End calculator.

(** ** The expressions the calculator understands *)

(** Sums and differences of terms, from the left; a term is a product or
    quotient of factors, from the right; a factor is a number or an
    expression in parentheses. The numbers are of a type [A]: texts for
    [parse], values for [evaluate]. *)
Inductive additive : Type := plus | minus.
Inductive multiplicative : Type := times | over.

Inductive expr (A : Type) : Type :=
  | Term (t : term A)
  | Sum (e : expr A) (op : additive) (t : term A)
with term (A : Type) : Type :=
  | Factor (f : factor A)
  | Product (f : factor A) (op : multiplicative) (t : term A)
with factor (A : Type) : Type :=
  | Number (x : A)
  | Parenthesised (e : expr A).
Arguments Term {A} t.
Arguments Sum {A} e op t.
Arguments Factor {A} f.
Arguments Product {A} f op t.
Arguments Number {A} x.
Arguments Parenthesised {A} e.

Scheme expr_mut := Induction for expr Sort Prop
  with term_mut := Induction for term Sort Prop
  with factor_mut := Induction for factor Sort Prop.
Combined Scheme expr_term_factor_ind from expr_mut, term_mut, factor_mut.

Definition special_of_additive (op : additive) : special_char :=
  match op with plus => PLUS | minus => MINUS end.

Definition special_of_multiplicative (op : multiplicative) : special_char :=
  match op with times => MULTIPLY | over => DIVIDE end.

Section expressions.
Context {A T : Type}.
Context (add sub mul div : T → T → T).
Context (read : A → T).

(** The tokens of an expression. *)
Fixpoint tokens_of_expr (e : expr A) : list (token T) :=
  match e with
  | Term t => tokens_of_term t
  | Sum e op t =>
      tokens_of_expr e ++ [special (special_of_additive op)] ++ tokens_of_term t
  end
with tokens_of_term (t : term A) : list (token T) :=
  match t with
  | Factor f => tokens_of_factor f
  | Product f op t =>
      tokens_of_factor f ++ [special (special_of_multiplicative op)]
      ++ tokens_of_term t
  end
with tokens_of_factor (f : factor A) : list (token T) :=
  match f with
  | Number x => [value (read x)]
  | Parenthesised e =>
      [special LEFT_PARENTHESIS] ++ tokens_of_expr e
      ++ [special RIGHT_PARENTHESIS]
  end.

(** Its value: sums from the left, products from the right. *)
Fixpoint value_of_expr (e : expr A) : T :=
  match e with
  | Term t => value_of_term t
  | Sum e plus t => add (value_of_expr e) (value_of_term t)
  | Sum e minus t => sub (value_of_expr e) (value_of_term t)
  end
with value_of_term (t : term A) : T :=
  match t with
  | Factor f => value_of_factor f
  | Product f times t => mul (value_of_factor f) (value_of_term t)
  | Product f over t => div (value_of_factor f) (value_of_term t)
  end
with value_of_factor (f : factor A) : T :=
  match f with
  | Number x => read x
  | Parenthesised e => value_of_expr e
  end.

(** Its postfix form. *)
Fixpoint postfix_of_expr (e : expr A) : list (token T) :=
  match e with
  | Term t => postfix_of_term t
  | Sum e op t =>
      postfix_of_expr e ++ postfix_of_term t
      ++ [special (special_of_additive op)]
  end
with postfix_of_term (t : term A) : list (token T) :=
  match t with
  | Factor f => postfix_of_factor f
  | Product f op t =>
      postfix_of_factor f ++ postfix_of_term t
      ++ [special (special_of_multiplicative op)]
  end
with postfix_of_factor (f : factor A) : list (token T) :=
  match f with
  | Number x => [value (read x)]
  | Parenthesised e => postfix_of_expr e
  end.

(** What the first loop of [evaluate] has on its stack, above what was
    there, once it has read a term or an expression (the operators not
    yet written, the last one first), and what it has written by then. *)
Fixpoint pending_of_term (t : term A) : list (token T) :=
  match t with
  | Factor f => []
  | Product f op t =>
      pending_of_term t ++ [special (special_of_multiplicative op)]
  end.

Fixpoint written_of_term (t : term A) : list (token T) :=
  match t with
  | Factor f => postfix_of_factor f
  | Product f op t => postfix_of_factor f ++ written_of_term t
  end.

Definition pending_of_expr (e : expr A) : list (token T) :=
  match e with
  | Term t => pending_of_term t
  | Sum e op t => pending_of_term t ++ [special (special_of_additive op)]
  end.

Definition written_of_expr (e : expr A) : list (token T) :=
  match e with
  | Term t => written_of_term t
  | Sum e op t => postfix_of_expr e ++ written_of_term t
  end.

End expressions.

(** ** The text of an expression *)

Definition char_of_additive (op : additive) : Ascii.ascii :=
  match op with plus => "+"%char | minus => "-"%char end.

Definition char_of_multiplicative (op : multiplicative) : Ascii.ascii :=
  match op with times => "*"%char | over => "/"%char end.

(** The text of a number: no character of an operator or a parenthesis
    in it, and its last character a digit. *)
Definition is_numeral (s : list Ascii.ascii) : bool :=
  forallb (λ c, match special_char_of c with None => true | Some _ => false end) s
  && match last s with Some c => is_digit c | None => false end.

Record numeral : Type := {
  text : list Ascii.ascii;
  text_is_numeral : is_numeral text = true
}.

Fixpoint print_expr (e : expr numeral) : list Ascii.ascii :=
  match e with
  | Term t => print_term t
  | Sum e op t => print_expr e ++ [char_of_additive op] ++ print_term t
  end
with print_term (t : term numeral) : list Ascii.ascii :=
  match t with
  | Factor f => print_factor f
  | Product f op t =>
      print_factor f ++ [char_of_multiplicative op] ++ print_term t
  end
with print_factor (f : factor numeral) : list Ascii.ascii :=
  match f with
  | Number x => text x
  | Parenthesised e => ["("%char] ++ print_expr e ++ [")"%char]
  end.

(** The characters after which [parse] takes what follows for the start
    of an operand: the start of the line, a left parenthesis, an
    operator. *)
Definition starts_operand (prev_char : Ascii.ascii) : bool :=
  Ascii.eqb prev_char "("%char || Ascii.eqb prev_char "+"%char
  || Ascii.eqb prev_char "-"%char || Ascii.eqb prev_char "*"%char
  || Ascii.eqb prev_char "/"%char || Ascii.eqb prev_char "000"%char.

(** The characters after which [parse] takes a [-] for the operator: a
    digit, a right parenthesis. *)
Definition ends_operand (prev_char : Ascii.ascii) : bool :=
  is_digit prev_char || Ascii.eqb prev_char ")"%char.

(** A [read] for texts of digits: the number they write in base ten. *)
Definition read_decimal (s : list Ascii.ascii) : Z :=
  fold_left (λ n c, 10 * n + (Z.of_nat (Ascii.nat_of_ascii c) - 48)) s 0.

End calculator.

(* ===================================================================== *)
(** * Grids *)
(* ===================================================================== *)

(** The loop bodies are unfolded by hand in the proofs. *)
#[local] Arguments bfs_visit : simpl never.
#[local] Arguments scan_dir : simpl never.
#[local] Arguments expand_cell : simpl never.
#[local] Arguments evaluate_candidate : simpl never.
#[local] Arguments push_improvement : simpl never.
#[local] Arguments best_first_visit : simpl never.
#[local] Arguments to_string_representation : simpl never.
#[local] Arguments generate_unique_candidates : simpl never.
#[local] Arguments get_score_for_maze : simpl never.
#[local] Arguments update_record : simpl never.

Section Grids.
Context {A : Type}.
Implicit Types (g : list (list A)) (p q : Point) (v d : A).

Lemma grid_set_dims h w g p v :
  grid_dims h w g → grid_dims h w (grid_set g p v).
Proof.
  intros [Hlen Hrows]. unfold grid_set.
  destruct (g !! Z.to_nat (coordinate_y p)) as [row|] eqn:Hrow; [|done].
  split; [by rewrite length_insert|].
  apply Forall_insert; [done|].
  rewrite length_insert.
  by eapply (Forall_lookup_1 _ _ _ _ Hrows).
Qed.

Lemma grid_dims_lookup h w g (y x : nat) :
  grid_dims h w g → (y < h)%nat → (x < w)%nat →
  ∃ row v, g !! y = Some row ∧ row !! x = Some v.
Proof.
  intros [Hlen Hrows] Hy Hx.
  destruct (lookup_lt_is_Some_2 g y) as [row Hrow]; [lia|].
  pose proof (Forall_lookup_1 _ _ _ _ Hrows Hrow) as Hw. simpl in Hw.
  destruct (lookup_lt_is_Some_2 row x) as [v Hv]; [lia|].
  eauto.
Qed.

Lemma grid_get_set_same d g p q v :
  Z.to_nat (coordinate_y p) = Z.to_nat (coordinate_y q) →
  Z.to_nat (coordinate_x p) = Z.to_nat (coordinate_x q) →
  (∃ row w, g !! Z.to_nat (coordinate_y p) = Some row
            ∧ row !! Z.to_nat (coordinate_x p) = Some w) →
  grid_get d (grid_set g p v) q = v.
Proof.
  intros Hy Hx (row & w & Hrow & Hw). unfold grid_get, grid_set.
  rewrite Hrow, <- Hy, <- Hx.
  rewrite list_lookup_insert_eq by (by eapply lookup_lt_Some).
  rewrite list_lookup_insert_eq by (by eapply lookup_lt_Some).
  done.
Qed.

Lemma grid_get_set_other d g p q v :
  Z.to_nat (coordinate_y p) ≠ Z.to_nat (coordinate_y q)
  ∨ Z.to_nat (coordinate_x p) ≠ Z.to_nat (coordinate_x q) →
  grid_get d (grid_set g p v) q = grid_get d g q.
Proof.
  intros Hne. unfold grid_get, grid_set.
  destruct (g !! Z.to_nat (coordinate_y p)) as [row|] eqn:Hrow; [|done].
  destruct (decide (Z.to_nat (coordinate_y p) = Z.to_nat (coordinate_y q)))
    as [Heq|Hney].
  - rewrite <- Heq, Hrow.
    rewrite list_lookup_insert_eq by (by eapply lookup_lt_Some).
    rewrite list_lookup_insert_ne by (destruct Hne; congruence).
    done.
  - by rewrite list_lookup_insert_ne.
Qed.
End Grids.

Lemma is_within_bounds_spec cfg p :
  is_within_bounds cfg p = true ↔
  0 <= coordinate_y p < MAZE_HEIGHT cfg ∧ 0 <= coordinate_x p < MAZE_WIDTH cfg.
Proof. unfold is_within_bounds. rewrite !andb_true_iff. lia. Qed.

Lemma is_within_bounds_nat cfg p :
  is_within_bounds cfg p = true →
  (Z.to_nat (coordinate_y p) < Z.to_nat (MAZE_HEIGHT cfg))%nat
  ∧ (Z.to_nat (coordinate_x p) < Z.to_nat (MAZE_WIDTH cfg))%nat.
Proof. rewrite is_within_bounds_spec. lia. Qed.

Lemma Point_eqb_eq a b : Point_eqb a b = true ↔ a = b.
Proof.
  destruct a, b. unfold Point_eqb. simpl. rewrite andb_true_iff.
  split; [intros [?%Z.eqb_eq ?%Z.eqb_eq]; congruence|].
  intros [= -> ->]. by rewrite !Z.eqb_refl.
Qed.

Lemma replicate_grid_dims {A} h w (v : A) :
  grid_dims h w (replicate h (replicate w v)).
Proof.
  split; [by rewrite length_replicate|].
  apply Forall_replicate. by rewrite length_replicate.
Qed.

(* ===================================================================== *)
(** * The connectivity check ends and is sound *)
(* ===================================================================== *)

Lemma count_false_insert row (x : nat) :
  row !! x = Some false →
  S (count_false (<[x := true]> row)) = count_false row.
Proof.
  revert x. induction row as [|b row IH]; intros [|x] Hx; simplify_eq/=.
  - done.
  - rewrite <- (IH x Hx). destruct b; simpl; lia.
Qed.

Lemma count_false_insert_le row (x : nat) :
  (count_false (<[x := true]> row) ≤ count_false row)%nat.
Proof.
  revert x. induction row as [|b row IH]; intros [|x]; simpl; try lia.
  specialize (IH x). lia.
Qed.

Lemma unvisited_count_insert g (y : nat) row row' :
  g !! y = Some row →
  (unvisited_count (<[y := row']> g) + count_false row
   = unvisited_count g + count_false row')%nat.
Proof.
  revert y. induction g as [|r g IH]; intros [|y] Hy; simplify_eq/=.
  - lia.
  - specialize (IH y Hy). lia.
Qed.

Lemma unvisited_count_set_fresh g p :
  (∃ row, g !! Z.to_nat (coordinate_y p) = Some row
          ∧ row !! Z.to_nat (coordinate_x p) = Some false) →
  S (unvisited_count (grid_set g p true)) = unvisited_count g.
Proof.
  intros (row & Hrow & Hx). unfold grid_set. rewrite Hrow.
  pose proof (unvisited_count_insert g _ row
                (<[Z.to_nat (coordinate_x p) := true]> row) Hrow).
  pose proof (count_false_insert row _ Hx). lia.
Qed.

Lemma unvisited_count_set_le g p :
  (unvisited_count (grid_set g p true) ≤ unvisited_count g)%nat.
Proof.
  unfold grid_set.
  destruct (g !! Z.to_nat (coordinate_y p)) as [row|] eqn:Hrow; [|done].
  pose proof (unvisited_count_insert g _ row
                (<[Z.to_nat (coordinate_x p) := true]> row) Hrow).
  pose proof (count_false_insert_le row (Z.to_nat (coordinate_x p))). lia.
Qed.

Lemma unvisited_count_replicate h w :
  unvisited_count (replicate h (replicate w false)) = (h * w)%nat.
Proof.
  induction h as [|h IH]; simpl; [done|]. rewrite IH. f_equal.
  clear. induction w; simpl; lia.
Qed.

Section Traversal.
Variables (cfg : Config) (m : Maze).

(** Every direction visited keeps the shape of [visited] and the sum of
    the unvisited cells and the queue length. *)
Lemma bfs_visit_measure cur q visited d q' visited' :
  grid_dims (Z.to_nat (MAZE_HEIGHT cfg))
            (Z.to_nat (MAZE_WIDTH cfg)) visited →
  bfs_visit cfg m cur (q, visited) d = (q', visited') →
  grid_dims (Z.to_nat (MAZE_HEIGHT cfg))
            (Z.to_nat (MAZE_WIDTH cfg)) visited'
  ∧ (unvisited_count visited' + length q'
     = unvisited_count visited + length q)%nat.
Proof.
  intros Hdims. unfold bfs_visit.
  destruct (is_within_bounds cfg (Point_add cur (delta d))) eqn:Hin; simpl;
    [|intros [= <- <-]; done].
  destruct (grid_get false visited (Point_add cur (delta d))) eqn:Hv; simpl;
    [intros [= <- <-]; done|].
  destruct (is_wall_at m (Point_add cur (delta d))); simpl;
    intros [= <- <-]; [done|].
  split; [by apply grid_set_dims|].
  apply is_within_bounds_nat in Hin as [Hy Hx].
  destruct (grid_dims_lookup _ _ visited _ _ Hdims Hy Hx)
    as (row & v & Hrow & Hcell).
  assert (v = false) as ->.
  { unfold grid_get in Hv. by rewrite Hrow, Hcell in Hv. }
  rewrite length_app. simpl.
  assert (S (unvisited_count (grid_set visited (Point_add cur (delta d)) true))
          = unvisited_count visited) by (apply unvisited_count_set_fresh; eauto).
  lia.
Qed.

Lemma bfs_fold_measure cur ds q visited q' visited' :
  grid_dims (Z.to_nat (MAZE_HEIGHT cfg))
            (Z.to_nat (MAZE_WIDTH cfg)) visited →
  fold_left (bfs_visit cfg m cur) ds (q, visited) = (q', visited') →
  grid_dims (Z.to_nat (MAZE_HEIGHT cfg))
            (Z.to_nat (MAZE_WIDTH cfg)) visited'
  ∧ (unvisited_count visited' + length q'
     = unvisited_count visited + length q)%nat.
Proof.
  revert q visited. induction ds as [|d ds IH]; intros q visited Hdims; simpl.
  - intros [= <- <-]. done.
  - destruct (bfs_visit cfg m cur (q, visited) d) as [q1 v1] eqn:Hstep.
    destruct (bfs_visit_measure _ _ _ _ _ _ Hdims Hstep) as [Hd1 Hm1].
    intros Hfold. destruct (IH _ _ Hd1 Hfold) as [Hd2 Hm2].
    split; [done|lia].
Qed.

(** The loop of the traversal ends: each iteration lowers the measure. *)
Lemma bfs_loop_total fuel q visited :
  grid_dims (Z.to_nat (MAZE_HEIGHT cfg))
            (Z.to_nat (MAZE_WIDTH cfg)) visited →
  (unvisited_count visited + length q < fuel)%nat →
  is_Some (bfs_loop cfg m fuel q visited).
Proof.
  revert q visited. induction fuel as [|fuel IH]; intros q visited Hdims Hlt;
    [lia|].
  cbn [bfs_loop]. destruct q as [|cur q]; [by eexists|].
  destruct (Point_eqb cur (FINISH_POINT cfg)); [by eexists|].
  destruct (fold_left _ _ _) as [q2 v2] eqn:Hfold.
  destruct (bfs_fold_measure _ _ _ _ _ _ Hdims Hfold) as [Hd Hm].
  apply IH; [done|]. simpl in Hlt. lia.
Qed.

(** Whatever the queue holds can be reached from the start over open
    cells. *)
Lemma bfs_visit_connected cur q visited d q' visited' :
  d ∈ Directions.ALL →
  connected cfg m START_POINT cur →
  Forall (connected cfg m START_POINT) q →
  bfs_visit cfg m cur (q, visited) d = (q', visited') →
  Forall (connected cfg m START_POINT) q'.
Proof.
  intros Hd Hcur Hq. unfold bfs_visit.
  destruct (is_within_bounds cfg (Point_add cur (delta d))) eqn:Hin; simpl;
    [|intros [= <- <-]; done].
  destruct (grid_get false visited (Point_add cur (delta d))); simpl;
    [intros [= <- <-]; done|].
  destruct (is_wall_at m (Point_add cur (delta d))) eqn:Hwall; simpl;
    intros [= <- <-]; [done|].
  apply Forall_app; split; [done|].
  apply Forall_singleton.
  eapply connected_step; [exact Hcur| |done].
  by exists d.
Qed.

Lemma bfs_fold_connected cur ds q visited q' visited' :
  ds ⊆ Directions.ALL →
  connected cfg m START_POINT cur →
  Forall (connected cfg m START_POINT) q →
  fold_left (bfs_visit cfg m cur) ds (q, visited) = (q', visited') →
  Forall (connected cfg m START_POINT) q'.
Proof.
  revert q visited. induction ds as [|d ds IH]; intros q visited Hsub Hcur Hq;
    simpl.
  - intros [= <- <-]. done.
  - destruct (bfs_visit cfg m cur (q, visited) d) as [q1 v1] eqn:Hstep.
    apply IH; [set_solver|done|].
    eapply bfs_visit_connected; [|done|done|done]. set_solver.
Qed.

Lemma bfs_loop_sound fuel q visited :
  Forall (connected cfg m START_POINT) q →
  bfs_loop cfg m fuel q visited = Some true →
  connected cfg m START_POINT (FINISH_POINT cfg).
Proof.
  revert q visited. induction fuel as [|fuel IH]; intros q visited Hq; [done|].
  cbn [bfs_loop]. destruct q as [|cur q]; [done|].
  apply Forall_cons in Hq as [Hcur Hq].
  destruct (Point_eqb cur (FINISH_POINT cfg)) eqn:Hfin.
  - apply Point_eqb_eq in Hfin as <-. done.
  - destruct (fold_left _ _ _) as [q2 v2] eqn:Hfold.
    apply IH. eapply bfs_fold_connected; [|done|done|done]. done.
Qed.

Lemma has_path_to_finish_run_total :
  has_path_to_finish_run cfg m = Some (has_path_to_finish cfg m).
Proof.
  unfold has_path_to_finish.
  destruct (has_path_to_finish_run cfg m) eqn:Hrun; [done|].
  exfalso. unfold has_path_to_finish_run in Hrun.
  destruct (_ || _); [done|].
  eapply is_Some_None. rewrite <- Hrun.
  apply bfs_loop_total.
  - apply grid_set_dims, replicate_grid_dims.
  - pose proof (unvisited_count_set_le
                  (replicate (Z.to_nat (MAZE_HEIGHT cfg))
                               (replicate (Z.to_nat (MAZE_WIDTH cfg)) false)) START_POINT) as Hle.
    rewrite unvisited_count_replicate in Hle.
    unfold bfs_fuel. simpl. lia.
Qed.

Lemma has_path_to_finish_sound :
  config_wf cfg →
  has_path_to_finish cfg m = true →
  is_wall_at m START_POINT = false
  ∧ is_wall_at m (FINISH_POINT cfg) = false
  ∧ connected cfg m START_POINT (FINISH_POINT cfg).
Proof.
  intros [Hw Hh] Hpath.
  pose proof has_path_to_finish_run_total as Hrun. rewrite Hpath in Hrun.
  unfold has_path_to_finish_run in Hrun.
  destruct (is_wall_at m START_POINT) eqn:Hs; [done|].
  destruct (is_wall_at m (FINISH_POINT cfg)) eqn:Hf; [done|].
  simpl in Hrun. split_and!; [done|done|].
  eapply bfs_loop_sound; [|exact Hrun].
  apply Forall_singleton, connected_here. split; [|done].
  apply is_within_bounds_spec. simpl. lia.
Qed.
End Traversal.

(* ===================================================================== *)
(** * The walk: termination and the step guard *)
(* ===================================================================== *)

Section Walk.
Variable cfg : Config.

Lemma loop_body_steps st st' :
  loop_body cfg st = Continue st' →
  steps st <= step_budget cfg ∧ steps st' = steps st + 1.
Proof.
  unfold loop_body.
  destruct (step_budget cfg <? steps st) eqn:Hb; [done|].
  apply Z.ltb_ge in Hb.
  destruct (best_dirs_of cfg (visit_counts st) (pos st)); [done|].
  intros [= <-]. done.
Qed.

Lemma loop_body_return st score :
  loop_body cfg st = Return score →
  (score = -2 ∧ step_budget cfg < steps st)
  ∨ (score = -1 ∧ steps st <= step_budget cfg
     ∧ best_dirs_of cfg (visit_counts st) (pos st) = []).
Proof.
  unfold loop_body.
  destruct (step_budget cfg <? steps st) eqn:Hb.
  - apply Z.ltb_lt in Hb. intros [= <-]. by left.
  - apply Z.ltb_ge in Hb.
    destruct (best_dirs_of cfg (visit_counts st) (pos st)); [|done].
    intros [= <-]. by right.
Qed.

(** The loop ends: every iteration that goes on adds one to [steps],
    and the guard stops it beyond the budget. *)
Lemma walk_loop_total fuel st :
  (0 < fuel)%nat →
  step_budget cfg + 2 - steps st < Z.of_nat fuel →
  is_Some (walk_loop cfg fuel st).
Proof.
  revert st. induction fuel as [|fuel IH]; intros st Hpos Hlt; [lia|].
  cbn [walk_loop].
  destruct (not_at_finish cfg (pos st)); [|by eexists].
  destruct (loop_body cfg st) as [score|st'] eqn:Hbody; [by eexists|].
  apply loop_body_steps in Hbody as [Hle Hst].
  apply fmap_is_Some, IH; lia.
Qed.

(** What the loop returns, and after how many entries into its body. *)
Lemma walk_loop_outcome fuel st z n :
  0 <= steps st <= step_budget cfg + 1 →
  walk_loop cfg fuel st = Some (z, n) →
  (z = -2 ∧ steps st + Z.of_nat n = step_budget cfg + 2)
  ∨ (z = -1 ∧ steps st + Z.of_nat n <= step_budget cfg + 1)
  ∨ (0 <= z ∧ z = steps st + Z.of_nat n ∧ z <= step_budget cfg + 1).
Proof.
  revert st z n. induction fuel as [|fuel IH]; intros st z n Hst; [done|].
  cbn [walk_loop].
  destruct (not_at_finish cfg (pos st)).
  - destruct (loop_body cfg st) as [score|st'] eqn:Hbody.
    + intros [= <- <-].
      apply loop_body_return in Hbody as [[-> Hb]|(-> & Hb & _)].
      * left. lia.
      * right. left. lia.
    + apply loop_body_steps in Hbody as [Hle Hst'].
      destruct (walk_loop cfg fuel st') as [[z' n']|] eqn:Hrec; [|done].
      simpl. intros [= <- <-].
      destruct (IH st' z' n') as [[-> ?]|[[-> ?]|(? & ? & ?)]];
        [lia|done|left; lia|right; left; lia|right; right; lia].
  - intros [= <- <-]. right. right. lia.
Qed.

Lemma calculate_score_run_total m :
  ∃ n, calculate_score_run cfg m = Some (calculate_score cfg m, n).
Proof.
  unfold calculate_score.
  destruct (calculate_score_run cfg m) as [[z n]|] eqn:Hrun; [by exists n|].
  exfalso. unfold calculate_score_run in Hrun.
  rewrite has_path_to_finish_run_total in Hrun.
  destruct (has_path_to_finish cfg m); [|done].
  eapply is_Some_None. rewrite <- Hrun.
  apply walk_loop_total; unfold walk_fuel; simpl steps; lia.
Qed.

Lemma step_budget_pos : config_wf cfg → 1000 <= step_budget cfg.
Proof. intros [Hw Hh]. unfold step_budget. nia. Qed.
End Walk.

(** ** The tie set and the choice of a direction *)

Section TieBreak.
Variables (cfg : Config) (vc : list (list Z)) (p : Point).

Lemma scan_dir_cases acc d :
  scan_dir cfg vc p acc d = acc
  ∨ (eligible cfg vc p d
     ∧ (snd (scan_dir cfg vc p acc d) = [d]
        ∨ snd (scan_dir cfg vc p acc d) = snd acc ++ [d])).
Proof.
  destruct acc as [mv best]. unfold scan_dir, eligible.
  destruct (is_within_bounds cfg (Point_add p (delta d))); simpl; [|by left].
  destruct (grid_get 0 vc (Point_add p (delta d)) =? -1) eqn:Hw; [by left|].
  apply Z.eqb_neq in Hw.
  destruct ((mv =? -1) || _); [right; split; [done|by left]|].
  destruct (_ =? mv); [right; split; [done|by right]|by left].
Qed.

Lemma scan_fold_eligible ds acc :
  Forall (eligible cfg vc p) (snd acc) →
  Forall (eligible cfg vc p) (snd (fold_left (scan_dir cfg vc p) ds acc)).
Proof.
  revert acc. induction ds as [|d ds IH]; intros acc Hacc; [done|].
  cbn [fold_left]. apply IH.
  destruct (scan_dir_cases acc d) as [->|[Hd [->| ->]]]; [done| |].
  - by apply Forall_singleton.
  - apply Forall_app. split; [done|by apply Forall_singleton].
Qed.

Lemma scan_fold_sublist ds acc :
  snd (fold_left (scan_dir cfg vc p) ds acc) `sublist_of` snd acc ++ ds.
Proof.
  revert acc. induction ds as [|d ds IH]; intros acc.
  - simpl. by rewrite app_nil_r.
  - cbn [fold_left]. etrans; [apply IH|].
    replace (snd acc ++ d :: ds) with ((snd acc ++ [d]) ++ ds)
      by (by rewrite <- app_assoc).
    apply sublist_app; [|done].
    destruct (scan_dir_cases acc d) as [->|[Hd [->| ->]]].
    + by apply sublist_inserts_r.
    + by apply sublist_inserts_l.
    + done.
Qed.

Lemma best_dirs_of_eligible : Forall (eligible cfg vc p) (best_dirs_of cfg vc p).
Proof. apply scan_fold_eligible. simpl. done. Qed.

Lemma best_dirs_of_sublist : best_dirs_of cfg vc p `sublist_of` Directions.ALL.
Proof. apply (scan_fold_sublist Directions.ALL (-1, [])). Qed.
End TieBreak.

Lemma max_element_priority_spec d l :
  max_element_priority d l ∈ d :: l
  ∧ ∀ x, x ∈ d :: l → priority x <= priority (max_element_priority d l).
Proof.
  unfold max_element_priority. revert d.
  induction l as [|y l IH]; intros d; simpl.
  - split; [left|]. intros x ->%list_elem_of_singleton. lia.
  - destruct (priority d <? priority y) eqn:Hlt.
    + apply Z.ltb_lt in Hlt. destruct (IH y) as [Hin Hmax].
      split; [by right|].
      intros x [->|Hx]%elem_of_cons; [|by apply Hmax].
      pose proof (Hmax y (list_elem_of_here _ _)). lia.
    + apply Z.ltb_ge in Hlt. destruct (IH d) as [Hin Hmax].
      split.
      { apply elem_of_cons in Hin as [->|Hin]; [left|by do 2 right]. }
      intros x [->|[->|Hx]%elem_of_cons]%elem_of_cons.
      * apply Hmax. left.
      * pose proof (Hmax d (list_elem_of_here _ _)). lia.
      * apply Hmax. by right.
Qed.

Lemma existsb_Direction_eqb last l :
  existsb (λ x, Direction_eqb x last) l = true ↔
  ∃ x, x ∈ l ∧ delta x = delta last.
Proof.
  rewrite existsb_exists. split.
  - intros (x & Hin & Heq). exists x. split; [by apply list_elem_of_In|].
    by apply Point_eqb_eq.
  - intros (x & Hin & Heq). exists x. split; [by apply list_elem_of_In|].
    by apply Point_eqb_eq.
Qed.

(** The direction chosen always leads where some member of the tie set
    leads. *)
Lemma choose_direction_target last d l :
  ∃ x, x ∈ d :: l ∧ delta (choose_direction last d l) = delta x.
Proof.
  unfold choose_direction.
  destruct (existsb _ _) eqn:Hex.
  - apply existsb_Direction_eqb in Hex as (x & Hin & Heq). eauto.
  - exists (max_element_priority d l). split; [|done].
    apply max_element_priority_spec.
Qed.

Lemma priority_injective_on_ALL x y :
  x ∈ Directions.ALL → y ∈ Directions.ALL → priority x = priority y → x = y.
Proof.
  unfold Directions.ALL.
  rewrite !elem_of_cons, !elem_of_nil.
  intros [->|[->|[->|[->|[]]]]] [->|[->|[->|[->|[]]]]]; simpl; done.
Qed.

(** ** The agent stays on open cells *)

Section WalkInvariant.
Variables (cfg : Config) (m : Maze).

Lemma init_visit_counts_dims :
  grid_dims (Z.to_nat (MAZE_HEIGHT cfg)) (Z.to_nat (MAZE_WIDTH cfg))
            (init_visit_counts cfg m).
Proof.
  unfold init_visit_counts. split.
  - by rewrite length_fmap, length_seqZ.
  - apply Forall_fmap, Forall_forall. intros r _. simpl.
    by rewrite length_fmap, length_seqZ.
Qed.

Lemma init_visit_counts_get p :
  is_within_bounds cfg p = true →
  grid_get 0 (init_visit_counts cfg m) p = if is_wall_at m p then -1 else 0.
Proof.
  intros [Hy Hx]%is_within_bounds_spec.
  unfold grid_get, init_visit_counts.
  rewrite list_lookup_fmap, lookup_seqZ_lt by lia. simpl.
  rewrite list_lookup_fmap, lookup_seqZ_lt by lia. simpl.
  rewrite !Z2Nat.id by lia. by destruct p.
Qed.

Lemma in_bounds_distinct p q :
  is_within_bounds cfg p = true → is_within_bounds cfg q = true → p ≠ q →
  Z.to_nat (coordinate_y p) ≠ Z.to_nat (coordinate_y q)
  ∨ Z.to_nat (coordinate_x p) ≠ Z.to_nat (coordinate_x q).
Proof.
  intros [? ?]%is_within_bounds_spec [? ?]%is_within_bounds_spec Hne.
  destruct (decide (coordinate_y p = coordinate_y q)) as [Hy|Hy]; [|left; lia].
  destruct (decide (coordinate_x p = coordinate_x q)) as [Hx|Hx]; [|right; lia].
  destruct p, q. simpl in *. congruence.
Qed.

Lemma walk_inv_init :
  config_wf cfg → is_wall_at m START_POINT = false →
  walk_inv cfg m (init_state cfg m).
Proof.
  intros [Hw Hh] Hstart.
  assert (is_within_bounds cfg START_POINT = true) as Hin
    by (apply is_within_bounds_spec; simpl; lia).
  split_and!; simpl.
  - apply grid_set_dims, init_visit_counts_dims.
  - intros p Hp. destruct (decide (START_POINT = p)) as [<-|Hne].
    + rewrite Hstart. erewrite grid_get_set_same; [lia|done|done|].
      apply is_within_bounds_nat in Hin as [? ?].
      by eapply grid_dims_lookup; [apply init_visit_counts_dims|..].
    + rewrite grid_get_set_other by (by apply in_bounds_distinct).
      rewrite init_visit_counts_get by done.
      destruct (is_wall_at m p); lia.
  - done.
Qed.

Lemma walk_inv_step st st' :
  walk_inv cfg m st → loop_body cfg st = Continue st' →
  walk_inv cfg m st'.
Proof.
  intros (Hdims & Hcounts & Hpos). unfold loop_body.
  destruct (step_budget cfg <? steps st); [done|].
  pose proof (best_dirs_of_eligible cfg (visit_counts st) (pos st)) as Hel.
  destruct (best_dirs_of cfg (visit_counts st) (pos st)) as [|d l]; [done|].
  intros [= <-].
  destruct (choose_direction_target (last_dir st) d l) as (x & Hx & ->).
  rewrite Forall_forall in Hel. destruct (Hel x Hx) as [Hin Hopen].
  set (target := Point_add (pos st) (delta x)) in *.
  pose proof (Hcounts target Hin) as Htarget.
  destruct (is_wall_at m target) eqn:Hwall; [done|].
  split_and!; simpl.
  - by apply grid_set_dims.
  - intros p Hp. destruct (decide (target = p)) as [<-|Hne].
    + rewrite Hwall. erewrite grid_get_set_same; [lia|done|done|].
      apply is_within_bounds_nat in Hin as [? ?].
      by eapply grid_dims_lookup.
    + rewrite grid_get_set_other by (by apply in_bounds_distinct).
      by apply Hcounts.
  - done.
Qed.

Lemma walk_inv_reaches st st' :
  walk_inv cfg m st → walk_reaches cfg st st' → walk_inv cfg m st'.
Proof.
  intros Hinv Hreach. induction Hreach; [done|].
  by eapply walk_inv_step.
Qed.
End WalkInvariant.

(** ** The tie set is the set of eligible neighbours of least visit count *)

Lemma scan_dir_inv cfg vc p seen acc d :
  (∀ y, eligible cfg vc p y → 0 <= neighbor_visits_of vc p y) →
  scan_inv cfg vc p seen acc →
  scan_inv cfg vc p (seen ++ [d]) (scan_dir cfg vc p acc d).
Proof.
  intros Hnonneg Hinv. destruct acc as [mv best].
  unfold scan_dir. fold (neighbor_visits_of vc p d).
  destruct (negb (is_within_bounds cfg (Point_add p (delta d)))
            || (neighbor_visits_of vc p d =? -1)) eqn:Hskip.
  - (* the neighbour is skipped *)
    assert (¬ eligible cfg vc p d) as Hnot.
    { intros [Hin Hne]. fold (neighbor_visits_of vc p d) in Hne.
      rewrite Hin in Hskip. simpl in Hskip. apply Z.eqb_eq in Hskip. done. }
    destruct Hinv as [(Hmv & Hbest & Hnone)|(Hmv & Hbest & Hmem & Hmin)];
      simpl in *.
    + left. split_and!; [done|done|].
      intros y [Hy| ->%list_elem_of_singleton]%elem_of_app; [by apply Hnone|done].
    + right. split_and!; [done|done| |].
      * intros x. rewrite Hmem, elem_of_app, list_elem_of_singleton.
        split; [intros (? & ? & ?); auto|].
        intros ([?| ->] & ? & ?); [done|done].
      * intros y [Hy| ->%list_elem_of_singleton]%elem_of_app; [by apply Hmin|done].
  - apply orb_false_iff in Hskip as [Hin Hne].
    apply negb_false_iff in Hin. apply Z.eqb_neq in Hne.
    assert (eligible cfg vc p d) as Hel by done.
    pose proof (Hnonneg d Hel) as Hpos.
    destruct Hinv as [(Hmv & Hbest & Hnone)|(Hmv & Hbest & Hmem & Hmin)];
      simpl in *.
    + subst mv. simpl. right. simpl. split_and!; [done|done| |].
      * intros x. rewrite list_elem_of_singleton, elem_of_app, list_elem_of_singleton.
        split; [intros ->; auto|].
        intros ([Hx| ->] & Hex & _); [by destruct (Hnone x)|done].
      * intros y [Hy| ->%list_elem_of_singleton]%elem_of_app Hey;
          [by destruct (Hnone y)|lia].
    + destruct (mv =? -1) eqn:Hunset; [apply Z.eqb_eq in Hunset; lia|]. simpl.
      destruct (neighbor_visits_of vc p d <? mv) eqn:Hlt.
      * apply Z.ltb_lt in Hlt. right. simpl. split_and!; [done|done| |].
        -- intros x.
           rewrite list_elem_of_singleton, elem_of_app, list_elem_of_singleton.
           split; [intros ->; auto|].
           intros ([Hx| ->] & Hex & Hvx); [|done].
           pose proof (Hmin x Hx Hex). lia.
        -- intros y [Hy| ->%list_elem_of_singleton]%elem_of_app Hey; [|lia].
           pose proof (Hmin y Hy Hey). lia.
      * apply Z.ltb_ge in Hlt.
        destruct (neighbor_visits_of vc p d =? mv) eqn:Heq.
        -- apply Z.eqb_eq in Heq. right. simpl. split_and!; [done| | |].
           ++ by destruct best.
           ++ intros x. rewrite !elem_of_app, Hmem, list_elem_of_singleton.
              split.
              ** intros [(? & ? & ?)| ->]; auto.
              ** intros ([?| ->] & ? & ?); auto.
           ++ intros y [Hy| ->%list_elem_of_singleton]%elem_of_app Hey;
                [by apply Hmin|lia].
        -- apply Z.eqb_neq in Heq. right. simpl. split_and!; [done|done| |].
           ++ intros x. rewrite Hmem, elem_of_app, list_elem_of_singleton.
              split; [intros (? & ? & ?); auto|].
              intros ([?| ->] & ? & ?); [done|done].
           ++ intros y [Hy| ->%list_elem_of_singleton]%elem_of_app Hey;
                [by apply Hmin|lia].
Qed.

Lemma scan_fold_inv cfg vc p ds seen acc :
  (∀ y, eligible cfg vc p y → 0 <= neighbor_visits_of vc p y) →
  scan_inv cfg vc p seen acc →
  scan_inv cfg vc p (seen ++ ds) (fold_left (scan_dir cfg vc p) ds acc).
Proof.
  intros Hnonneg. revert seen acc.
  induction ds as [|d ds IH]; intros seen acc Hinv.
  - by rewrite app_nil_r.
  - cbn [fold_left].
    replace (seen ++ d :: ds) with ((seen ++ [d]) ++ ds)
      by (by rewrite <- app_assoc).
    by apply IH, scan_dir_inv.
Qed.

(** Where the eligible neighbours have counts that are not negative, the
    tie set holds exactly the eligible neighbours of least count. *)
Lemma best_dirs_of_least_visited cfg vc p x :
  (∀ y, eligible cfg vc p y → 0 <= neighbor_visits_of vc p y) →
  x ∈ best_dirs_of cfg vc p ↔
  x ∈ Directions.ALL ∧ eligible cfg vc p x
  ∧ ∀ y, y ∈ Directions.ALL → eligible cfg vc p y →
         neighbor_visits_of vc p x <= neighbor_visits_of vc p y.
Proof.
  intros Hnonneg. unfold best_dirs_of.
  pose proof (scan_fold_inv cfg vc p Directions.ALL [] (-1, []) Hnonneg) as Hinv.
  rewrite app_nil_l in Hinv.
  destruct Hinv as [(_ & Hbest & Hnone)|(_ & Hbest & Hmem & Hmin)].
  { left. split_and!; [done|done|]. intros y Hy. by apply elem_of_nil in Hy. }
  - rewrite Hbest. split; [by intros ?%elem_of_nil|].
    intros (Hx & Hex & _). by destruct (Hnone x).
  - rewrite Hmem. split.
    + intros (Hx & Hex & ->). auto.
    + intros (Hx & Hex & Hleast). split_and!; [done|done|].
      destruct (snd (fold_left _ _ _)) as [|y0 rest] eqn:Hfold; [done|].
      destruct (proj1 (Hmem y0) (list_elem_of_here _ _)) as (Hy0 & Hey0 & Hv0).
      pose proof (Hleast y0 Hy0 Hey0). pose proof (Hmin x Hx Hex). lia.
Qed.

Lemma walk_inv_nonneg cfg m st y :
  walk_inv cfg m st →
  eligible cfg (visit_counts st) (pos st) y →
  0 <= neighbor_visits_of (visit_counts st) (pos st) y.
Proof.
  intros (_ & Hcounts & _) [Hin Hne]. unfold neighbor_visits_of.
  specialize (Hcounts _ Hin).
  destruct (is_wall_at m (Point_add (pos st) (delta y))); [done|lia].
Qed.


(** The counters stay small: in every state of a walk [steps] is at most
    the budget plus one and no visit count exceeds [steps + 1], so that
    the [long long] arithmetic of the program stays far from its limits
    whenever [W * H * 1000 + 2] does. *)
Lemma walk_counters_bounded cfg m st :
  config_wf cfg →
  is_wall_at m START_POINT = false →
  walk_reaches cfg (init_state cfg m) st →
  0 <= steps st <= step_budget cfg + 1
  ∧ ∀ p, is_within_bounds cfg p = true →
         grid_get 0 (visit_counts st) p <= steps st + 1.
Proof.
  intros Hcfg Hstart Hreach.
  pose proof (step_budget_pos cfg Hcfg) as Hbudget.
  pose proof (walk_inv_init cfg m Hcfg Hstart) as Hinit.
  induction Hreach as [|st1 st2 Hreach IH Hgo Hbody].
  - split; [simpl; lia|]. intros p Hp.
    destruct Hinit as (_ & _ & Hin & _). simpl in *.
    destruct (decide (START_POINT = p)) as [<-|Hne].
    + erewrite grid_get_set_same; [lia|done|done|].
      apply is_within_bounds_nat in Hin as [? ?].
      by eapply grid_dims_lookup; [apply init_visit_counts_dims|..].
    + rewrite grid_get_set_other by (by apply (in_bounds_distinct cfg)).
      rewrite init_visit_counts_get by done. destruct (is_wall_at m p); lia.
  - destruct IH as [Hsteps Hcounts].
    pose proof (walk_inv_reaches cfg m _ _ Hinit Hreach) as Hinv1.
    pose proof (walk_inv_step cfg m _ _ Hinv1 Hbody) as (_ & _ & Hin2 & _).
    destruct Hinv1 as (Hdims & _ & _).
    pose proof (loop_body_steps cfg _ _ Hbody) as [Hle Hst].
    split; [lia|]. intros p Hp. rewrite Hst.
    unfold loop_body in Hbody.
    destruct (step_budget cfg <? steps st1); [done|].
    destruct (best_dirs_of cfg (visit_counts st1) (pos st1)) as [|d l]; [done|].
    injection Hbody as <-. simpl in *.
    set (target := Point_add (pos st1) (delta (choose_direction (last_dir st1) d l)))
      in *.
    destruct (decide (target = p)) as [<-|Hne].
    + erewrite grid_get_set_same; [|done|done|].
      * specialize (Hcounts target Hin2). lia.
      * apply is_within_bounds_nat in Hin2 as [? ?]. by eapply grid_dims_lookup.
    + rewrite grid_get_set_other by (by apply (in_bounds_distinct cfg)).
      specialize (Hcounts p Hp). lia.
Qed.

Lemma shipped_counters_fit : step_budget shipped_config + 2 < 2 ^ 63.
Proof. reflexivity. Qed.

(** The isolated 2 x 2 grid: walls on (1,0) and (0,1), the two neighbours
    of the start.  The connectivity check fails and no step is made. *)
Lemma isolated_2x2_scores_minus_one :
  has_path_to_finish config_2x2 (maze_of [[false; true]; [true; false]]) = false
  ∧ calculate_score_run config_2x2 (maze_of [[false; true]; [true; false]])
    = Some (-1, 0%nat).
Proof. vm_compute. done. Qed.

(** The states [walk_reaches] speaks of are the states the loop goes
    through: a run from any of them ends with the value of the run from
    the first. *)
Lemma walk_reaches_same_result cfg st st' fuel z n :
  walk_reaches cfg st st' →
  walk_loop cfg fuel st' = Some (z, n) →
  ∃ fuel' n', walk_loop cfg fuel' st = Some (z, n').
Proof.
  intros Hreach. revert fuel n.
  induction Hreach as [|st1 st2 Hreach IH Hgo Hbody]; intros fuel n Hrun; [eauto|].
  apply (IH (S fuel) (S n)). cbn [walk_loop]. by rewrite Hgo, Hbody, Hrun.
Qed.

(* ===================================================================== *)
(** * The walk simulator: the claims *)
(* ===================================================================== *)

(** C1 (as amended).  On the empty 2 x 2 grid the walk goes as follows.
    Step 1: the neighbours right and down of the start are tied with 0
    visits, the seeded direction down is in the tie set, the agent moves
    down to (0,1), and the visit count of (0,1) becomes 1.  Step 2: up has
    1 visit and right has 0, left and down are outside the grid, the tie
    set is right alone, the agent moves right to (1,1), the finish.  The
    score is 2, after two iterations of the loop. *)
Theorem trace_2x2_count_one : trace_2x2 1.
Proof.
  unfold trace_2x2. cbv zeta.
  split_and!; [reflexivity..| |].
  - vm_compute best_dirs_of. apply Permutation_swap.
  - eexists _, _. split; [vm_compute; reflexivity|].
    split_and!; [reflexivity..|vm_compute; reflexivity| | | | | | ];
      vm_compute; reflexivity.
Qed.

(** C1 as the specification words it: the same trace with the visit count
    of (0,1) becoming 2 after the first move.  The code counts 1 there. *)
Lemma trace_2x2_count_two_fails : ¬ trace_2x2 2.
Proof.
  unfold trace_2x2. cbv zeta.
  intros (_ & _ & _ & _ & _ & st1 & st2 & Hbody & _ & _ & Hcount & _).
  vm_compute in Hbody. injection Hbody as <-.
  vm_compute in Hcount. discriminate.
Qed.

(** C2.  When the start or the finish is a wall, or no four-connected
    path of open cells inside the grid leads from the start to the
    finish, the connectivity check answers false, the simulator returns
    -1, and the body of its loop is entered zero times. *)
Theorem unreachable_layout_scores_minus_one cfg m :
  config_wf cfg →
  is_wall_at m START_POINT = true
  ∨ is_wall_at m (FINISH_POINT cfg) = true
  ∨ ¬ connected cfg m START_POINT (FINISH_POINT cfg) →
  has_path_to_finish cfg m = false
  ∧ calculate_score_run cfg m = Some (-1, 0%nat)
  ∧ calculate_score cfg m = -1.
Proof.
  intros Hcfg Hblocked.
  assert (has_path_to_finish cfg m = false) as Hpath.
  { destruct (has_path_to_finish cfg m) eqn:Hpath; [|done].
    destruct (has_path_to_finish_sound cfg m Hcfg Hpath) as (Hs & Hf & Hconn).
    destruct Hblocked as [?|[?|?]]; [congruence|congruence|done]. }
  assert (calculate_score_run cfg m = Some (-1, 0%nat)) as Hrun.
  { unfold calculate_score_run.
    by rewrite has_path_to_finish_run_total, Hpath. }
  split_and!; [done|done|].
  unfold calculate_score. by rewrite Hrun.
Qed.

Lemma unreachable_layout_scores_minus_one_witness :
  config_wf config_2x2
  ∧ is_wall_at (maze_of [[true; false]; [false; false]]) START_POINT = true
  ∧ calculate_score_run config_2x2 (maze_of [[true; false]; [false; false]])
    = Some (-1, 0%nat).
Proof.
  split; [split; reflexivity|]. split; [reflexivity|].
  apply (unreachable_layout_scores_minus_one config_2x2
           (maze_of [[true; false]; [false; false]])).
  - split; reflexivity.
  - left. reflexivity.
Defined.

(** ** The parity of a step count *)

Lemma loop_body_parity cfg st st' :
  loop_body cfg st = Continue st' →
  Z.even (steps st' + coordinate_x (pos st') + coordinate_y (pos st'))
  = Z.even (steps st + coordinate_x (pos st) + coordinate_y (pos st)).
Proof.
  unfold loop_body. destruct (step_budget cfg <? steps st); [done|].
  pose proof (best_dirs_of_sublist cfg (visit_counts st) (pos st)) as Hsub.
  destruct (best_dirs_of cfg (visit_counts st) (pos st)) as [|d l]; [done|].
  intros [= <-]. cbn [steps pos].
  assert (∃ x, x ∈ Directions.ALL
               ∧ delta (choose_direction (last_dir st) d l) = delta x) as (x & Hx & ->).
  { unfold choose_direction. destruct (existsb _ _) eqn:Hex.
    - apply existsb_Direction_eqb in Hex as (x & Hx & Heq).
      exists x. split; [by eapply elem_of_sublist|done].
    - destruct (max_element_priority_spec d l) as [Hin _].
      eexists. split; [by eapply elem_of_sublist|done]. }
  destruct (pos st) as [px py]. unfold Point_add. cbn [coordinate_x coordinate_y].
  unfold Directions.ALL in Hx. rewrite !elem_of_cons in Hx.
  destruct Hx as [->|[->|[->|[->|Hx]]]]; [| | | |by apply elem_of_nil in Hx];
    cbn [delta Directions.UP Directions.DOWN Directions.LEFT Directions.RIGHT
         coordinate_x coordinate_y].
  - f_equal. lia.
  - replace (steps st + 1 + (px + 0) + (py + 1)) with (steps st + px + py + 2 * 1)
      by lia. apply Z.even_add_mul_2.
  - f_equal. lia.
  - replace (steps st + 1 + (px + 1) + (py + 0)) with (steps st + px + py + 2 * 1)
      by lia. apply Z.even_add_mul_2.
Qed.

(** A step count returned has the parity of the distance between the
    corners: every move changes one coordinate by one. *)
Lemma walk_loop_parity cfg fuel st z n :
  walk_loop cfg fuel st = Some (z, n) →
  Z.even (steps st + coordinate_x (pos st) + coordinate_y (pos st)) = true →
  0 <= z →
  Z.even (z + MAZE_WIDTH cfg + MAZE_HEIGHT cfg) = true.
Proof.
  revert st z n. induction fuel as [|fuel IH]; intros st z n; [done|].
  cbn [walk_loop]. destruct (not_at_finish cfg (pos st)) eqn:Hfinish.
  - destruct (loop_body cfg st) as [score|st'] eqn:Hbody.
    + intros [= <- <-] _ Hz.
      apply loop_body_return in Hbody as [[-> _]|(-> & _)]; lia.
    + destruct (walk_loop cfg fuel st') as [[z' n']|] eqn:Hrec; [|done].
      simpl. intros [= <- <-] Heven Hz.
      eapply IH; [done| |done]. by rewrite (loop_body_parity cfg st st').
  - intros [= <- <-] Heven _. unfold not_at_finish in Hfinish.
    apply orb_false_iff in Hfinish as [Hx Hy].
    apply negb_false_iff, Z.eqb_eq in Hx. apply negb_false_iff, Z.eqb_eq in Hy.
    rewrite Hx, Hy in Heven.
    replace (steps st + MAZE_WIDTH cfg + MAZE_HEIGHT cfg)
      with (steps st + (MAZE_WIDTH cfg - 1) + (MAZE_HEIGHT cfg - 1) + 2 * 1) by lia.
    by rewrite Z.even_add_mul_2.
Qed.

Lemma calculate_score_parity cfg m :
  0 <= calculate_score cfg m →
  Z.even (calculate_score cfg m + MAZE_WIDTH cfg + MAZE_HEIGHT cfg) = true.
Proof.
  intros Hz. destruct (calculate_score_run_total cfg m) as [n Hrun].
  unfold calculate_score_run in Hrun.
  rewrite has_path_to_finish_run_total in Hrun.
  destruct (has_path_to_finish cfg m).
  - by eapply walk_loop_parity.
  - injection Hrun as Hneg _. lia.
Qed.

(** A step count returned is at most the budget where [W + H] is even:
    the budget plus one is odd. *)
Lemma calculate_score_even_bound cfg m :
  config_wf cfg →
  Z.even (MAZE_WIDTH cfg + MAZE_HEIGHT cfg) = true →
  0 <= calculate_score cfg m →
  calculate_score cfg m <= step_budget cfg.
Proof.
  intros Hcfg Heven Hz. pose proof (step_budget_pos cfg Hcfg) as Hbudget.
  pose proof (calculate_score_parity cfg m Hz) as Hparity.
  rewrite <- Z.add_assoc, Z.even_add, Heven in Hparity.
  assert (calculate_score cfg m <= step_budget cfg + 1) as Hle.
  { destruct (calculate_score_run_total cfg m) as [n Hrun].
    unfold calculate_score_run in Hrun.
    rewrite has_path_to_finish_run_total in Hrun.
    destruct (has_path_to_finish cfg m).
    - apply walk_loop_outcome in Hrun; [|simpl; lia]. simpl in Hrun. lia.
    - injection Hrun as Hneg _. lia. }
  destruct (decide (calculate_score cfg m = step_budget cfg + 1)) as [Heq|]; [|lia].
  rewrite Heq in Hparity. unfold step_budget in Hparity.
  replace (MAZE_WIDTH cfg * MAZE_HEIGHT cfg * 1000 + 1)
    with (1 + 2 * (MAZE_WIDTH cfg * MAZE_HEIGHT cfg * 500)) in Hparity by lia.
  by rewrite Z.even_add_mul_2 in Hparity.
Qed.

(** So it is on the grid of 29 by 19 cells the program is compiled for. *)
Lemma shipped_score_within_budget m :
  0 <= calculate_score shipped_config m →
  calculate_score shipped_config m <= 551000.
Proof. by apply (calculate_score_even_bound shipped_config m). Qed.

(** C3 as the specification words it, for the bound: on this layout of
    the 19 x 20 grid, whose start and finish cells are open, the walk
    reaches the finish with its step 380001, one step more than the
    budget 19 * 20 * 1000, and the simulator returns 380001.  More steps
    than the budget were taken and the result is not -2; a step count
    above the budget is returned. *)
Lemma score_one_above_step_budget :
  step_budget config_19x20 = 380000
  ∧ calculate_score config_19x20 long_walk_19x20 = 380001
  ∧ ¬ (∀ cfg m, config_wf cfg → valid_layout cfg m →
                0 <= calculate_score cfg m →
                calculate_score cfg m <= step_budget cfg).
Proof.
  assert (calculate_score config_19x20 long_walk_19x20 = 380001) as Hscore
    by (vm_compute; reflexivity).
  split_and!; [done|done|].
  intros Hclaim. specialize (Hclaim config_19x20 long_walk_19x20).
  rewrite Hscore in Hclaim. change (step_budget config_19x20) with 380000 in Hclaim.
  assert (380001 <= 380000) as Hle; [|lia].
  apply Hclaim; [by split| |lia].
  split_and!; [split; [done|repeat constructor]|done|done].
Qed.

(** C3 (as amended).  The simulator always returns: its run ends with a
    value [z] after [n] entries into the body of the loop.  The value is
    -2, -1 or a step count.  It is -2 exactly when the body is entered
    with more than [W * H * 1000] steps taken, which happens at the entry
    number [W * H * 1000 + 2] and never earlier; a run that returns
    anything else enters the body at most [W * H * 1000 + 1] times.  The
    guard [steps++ > W * H * 1000] lets [W * H * 1000 + 1] steps through:
    a step count returned is the number of iterations made and is at most
    [W * H * 1000 + 1].  It has the parity of [W + H], so that it is at
    most [W * H * 1000] on a grid where [W + H] is even, as on the grid
    of 29 by 19 cells the program is compiled for. *)
Theorem calculate_score_total_and_guarded cfg m :
  config_wf cfg →
  ∃ n,
    calculate_score_run cfg m = Some (calculate_score cfg m, n)
    ∧ (calculate_score cfg m = -2 ∨ calculate_score cfg m = -1
       ∨ 0 <= calculate_score cfg m)
    ∧ (calculate_score cfg m = -2 ↔ Z.of_nat n = step_budget cfg + 2)
    ∧ (calculate_score cfg m ≠ -2 → Z.of_nat n <= step_budget cfg + 1)
    ∧ (0 <= calculate_score cfg m →
       calculate_score cfg m = Z.of_nat n
       ∧ calculate_score cfg m <= step_budget cfg + 1
       ∧ Z.even (calculate_score cfg m) = Z.even (MAZE_WIDTH cfg + MAZE_HEIGHT cfg))
    ∧ (Z.even (MAZE_WIDTH cfg + MAZE_HEIGHT cfg) = true →
       0 <= calculate_score cfg m →
       calculate_score cfg m <= step_budget cfg).
Proof.
  intros Hcfg. pose proof (step_budget_pos cfg Hcfg) as Hbudget.
  destruct (calculate_score_run_total cfg m) as [n Hrun].
  exists n. split; [done|].
  pose proof (calculate_score_parity cfg m) as Hparity.
  set (z := calculate_score cfg m) in *.
  assert (0 <= z → Z.even z = Z.even (MAZE_WIDTH cfg + MAZE_HEIGHT cfg)) as Hsame.
  { intros Hz. specialize (Hparity Hz).
    rewrite <- Z.add_assoc, Z.even_add in Hparity.
    by destruct (Z.even z), (Z.even (MAZE_WIDTH cfg + MAZE_HEIGHT cfg)). }
  assert (z = -2 ∨ z = -1 ∨ (0 <= z ∧ z <= step_budget cfg + 1)) as Hrange.
  { unfold calculate_score_run in Hrun.
    rewrite has_path_to_finish_run_total in Hrun.
    destruct (has_path_to_finish cfg m).
    - apply walk_loop_outcome in Hrun; [|simpl; lia]. simpl in Hrun. lia.
    - injection Hrun as Hz Hn. lia. }
  split_and!.
  - lia.
  - unfold calculate_score_run in Hrun.
    rewrite has_path_to_finish_run_total in Hrun.
    destruct (has_path_to_finish cfg m).
    + apply walk_loop_outcome in Hrun; [|simpl; lia]. simpl in Hrun. lia.
    + injection Hrun as Hz Hn. lia.
  - unfold calculate_score_run in Hrun.
    rewrite has_path_to_finish_run_total in Hrun.
    destruct (has_path_to_finish cfg m).
    + apply walk_loop_outcome in Hrun; [|simpl; lia]. simpl in Hrun. lia.
    + injection Hrun as Hz Hn. lia.
  - intros Hz. split_and!; [|lia|by apply Hsame].
    unfold calculate_score_run in Hrun.
    rewrite has_path_to_finish_run_total in Hrun.
    destruct (has_path_to_finish cfg m).
    + apply walk_loop_outcome in Hrun; [|simpl; lia]. simpl in Hrun. lia.
    + injection Hrun as Hz' Hn. lia.
  - intros Heven Hz. by apply calculate_score_even_bound.
Qed.

Lemma calculate_score_total_and_guarded_witness :
  config_wf config_2x2
  ∧ ∃ n,
      calculate_score_run config_2x2 (Maze_new config_2x2)
      = Some (calculate_score config_2x2 (Maze_new config_2x2), n).
Proof.
  split; [split; reflexivity|].
  destruct (calculate_score_total_and_guarded config_2x2 (Maze_new config_2x2))
    as (n & Hrun & _); [split; reflexivity|].
  by exists n.
Defined.

(** C4.  In an iteration that gets past the guard with a non-empty tie
    set, the loop goes on and the direction it takes is: the previous
    direction, when that direction points to a cell of the tie set;
    otherwise the member of the tie set of the highest priority, which
    beats every other member strictly.  The priorities are down 4, right
    3, up 2, left 1.  The tie set is the set of eligible neighbours of
    least visit count wherever the counts of eligible neighbours are not
    negative, which [walk_inv_nonneg] shows of every state of a run. *)
Theorem tie_break_momentum_then_priority cfg st d l :
  steps st <= step_budget cfg →
  best_dirs_of cfg (visit_counts st) (pos st) = d :: l →
  ∃ st',
    loop_body cfg st = Continue st'
    ∧ pos st' = Point_add (pos st) (delta (last_dir st'))
    ∧ ((∃ x, x ∈ d :: l ∧ delta x = delta (last_dir st)) →
       last_dir st' = last_dir st)
    ∧ ((∀ x, x ∈ d :: l → delta x ≠ delta (last_dir st)) →
       last_dir st' ∈ d :: l
       ∧ ∀ x, x ∈ d :: l → x ≠ last_dir st' →
              priority x < priority (last_dir st'))
    ∧ priority Directions.DOWN = 4 ∧ priority Directions.RIGHT = 3
    ∧ priority Directions.UP = 2 ∧ priority Directions.LEFT = 1
    ∧ ((∀ y, eligible cfg (visit_counts st) (pos st) y →
             0 <= neighbor_visits_of (visit_counts st) (pos st) y) →
       ∀ x, x ∈ d :: l ↔
            x ∈ Directions.ALL ∧ eligible cfg (visit_counts st) (pos st) x
            ∧ ∀ y, y ∈ Directions.ALL →
                   eligible cfg (visit_counts st) (pos st) y →
                   neighbor_visits_of (visit_counts st) (pos st) x
                   <= neighbor_visits_of (visit_counts st) (pos st) y).
Proof.
  intros Hsteps Hbest.
  assert ((∀ y, eligible cfg (visit_counts st) (pos st) y →
               0 <= neighbor_visits_of (visit_counts st) (pos st) y) →
          ∀ x, x ∈ d :: l ↔
               x ∈ Directions.ALL ∧ eligible cfg (visit_counts st) (pos st) x
               ∧ ∀ y, y ∈ Directions.ALL →
                      eligible cfg (visit_counts st) (pos st) y →
                      neighbor_visits_of (visit_counts st) (pos st) x
                      <= neighbor_visits_of (visit_counts st) (pos st) y)
    as Hleast.
  { intros Hnonneg x. rewrite <- Hbest. by apply best_dirs_of_least_visited. }
  pose proof (best_dirs_of_sublist cfg (visit_counts st) (pos st)) as Hsub.
  rewrite Hbest in Hsub.
  unfold loop_body. rewrite Hbest.
  destruct (step_budget cfg <? steps st) eqn:Hb; [apply Z.ltb_lt in Hb; lia|].
  eexists. split; [done|]. simpl. split; [done|].
  unfold choose_direction. split_and!; try done.
  - intros Hex. apply existsb_Direction_eqb in Hex. by rewrite Hex.
  - intros Hnone.
    destruct (existsb _ _) eqn:Hex.
    { apply existsb_Direction_eqb in Hex as (x & Hx & Heq). by destruct (Hnone x). }
    destruct (max_element_priority_spec d l) as [Hin Hmax].
    split; [done|]. intros x Hx Hne.
    pose proof (Hmax x Hx) as Hle.
    destruct (decide (priority x = priority (max_element_priority d l)))
      as [Heq|]; [|lia].
    destruct Hne. apply priority_injective_on_ALL; [| |done].
    + by eapply elem_of_sublist.
    + eapply elem_of_sublist; [exact Hin|done].
Qed.

Lemma tie_break_momentum_then_priority_witness :
  ∃ st',
    loop_body config_2x2 (init_state config_2x2 (Maze_new config_2x2))
    = Continue st'
    ∧ last_dir st' = Directions.DOWN.
Proof.
  destruct (tie_break_momentum_then_priority config_2x2
              (init_state config_2x2 (Maze_new config_2x2))
              Directions.DOWN [Directions.RIGHT])
    as (st' & Hbody & _ & Hmomentum & _).
  - vm_compute. discriminate.
  - vm_compute. reflexivity.
  - exists st'. split; [done|].
    rewrite Hmomentum; [reflexivity|].
    exists Directions.DOWN. split; [left|reflexivity].
Defined.

(** C10.  On a layout that passes the connectivity check, in every state
    the walk goes through the agent stands on a cell inside the grid that
    is not a wall, every wall cell still has the visit count -1 it was
    given at the start, and every direction of the tie set leads to a cell
    inside the grid whose count is not -1, which is therefore not a
    wall. *)
Theorem walk_stays_on_open_cells cfg m st :
  config_wf cfg →
  has_path_to_finish cfg m = true →
  walk_reaches cfg (init_state cfg m) st →
  is_within_bounds cfg (pos st) = true
  ∧ is_wall_at m (pos st) = false
  ∧ grid_get 0 (visit_counts st) (pos st) ≠ -1
  ∧ (∀ p, is_within_bounds cfg p = true → is_wall_at m p = true →
          grid_get 0 (visit_counts st) p = -1)
  ∧ (∀ d, d ∈ best_dirs_of cfg (visit_counts st) (pos st) →
          is_within_bounds cfg (Point_add (pos st) (delta d)) = true
          ∧ grid_get 0 (visit_counts st) (Point_add (pos st) (delta d)) ≠ -1
          ∧ is_wall_at m (Point_add (pos st) (delta d)) = false).
Proof.
  intros Hcfg Hpath Hreach.
  destruct (has_path_to_finish_sound cfg m Hcfg Hpath) as (Hstart & _ & _).
  pose proof (walk_inv_init cfg m Hcfg Hstart) as Hinit.
  destruct (walk_inv_reaches cfg m _ _ Hinit Hreach) as (_ & Hcounts & Hin & Hopen).
  split_and!; [done|done| | |].
  - specialize (Hcounts (pos st) Hin). rewrite Hopen in Hcounts. lia.
  - intros p Hp Hwall. specialize (Hcounts p Hp). by rewrite Hwall in Hcounts.
  - intros d Hd.
    pose proof (best_dirs_of_eligible cfg (visit_counts st) (pos st)) as Hel.
    rewrite Forall_forall in Hel. destruct (Hel d Hd) as [Hdin Hdne].
    split_and!; [done|done|].
    specialize (Hcounts _ Hdin).
    by destruct (is_wall_at m (Point_add (pos st) (delta d))).
Qed.

Lemma walk_stays_on_open_cells_witness :
  is_within_bounds config_2x2
    (pos (init_state config_2x2 (Maze_new config_2x2))) = true
  ∧ is_wall_at (Maze_new config_2x2)
      (pos (init_state config_2x2 (Maze_new config_2x2))) = false.
Proof.
  destruct (walk_stays_on_open_cells config_2x2 (Maze_new config_2x2)
              (init_state config_2x2 (Maze_new config_2x2)))
    as (Hin & Hopen & _).
  - split; reflexivity.
  - vm_compute. reflexivity.
  - apply walk_reaches_here.
  - split; [exact Hin|exact Hopen].
Defined.

(* ===================================================================== *)
(** * The score cache *)
(* ===================================================================== *)

Lemma get_score_for_maze_hit cfg b maze cached :
  score_cache_ b !! to_string_representation cfg maze = Some cached →
  get_score_for_maze cfg b maze = (cached, b).
Proof. intros Hhit. unfold get_score_for_maze. by rewrite Hhit. Qed.

(** The cache only grows: an entry stays as it is. *)
Lemma get_score_for_maze_keeps cfg b maze key score :
  score_cache_ b !! key = Some score →
  score_cache_ (snd (get_score_for_maze cfg b maze)) !! key = Some score.
Proof.
  intros Hkey. unfold get_score_for_maze.
  destruct (score_cache_ b !! to_string_representation cfg maze) eqn:Hhit;
    simpl; [done|].
  rewrite lookup_insert_ne; [done|]. intros Heq. congruence.
Qed.

Lemma score_all_keeps cfg mazes b key score :
  score_cache_ b !! key = Some score →
  score_cache_ (score_all cfg b mazes) !! key = Some score.
Proof.
  unfold score_all. revert b.
  induction mazes as [|maze mazes IH]; intros b Hkey; [done|].
  cbn [fold_left]. by apply IH, get_score_for_maze_keeps.
Qed.

Lemma get_score_for_maze_stores cfg b maze :
  score_cache_ (snd (get_score_for_maze cfg b maze))
    !! to_string_representation cfg maze
  = Some (fst (get_score_for_maze cfg b maze)).
Proof.
  unfold get_score_for_maze.
  destruct (score_cache_ b !! to_string_representation cfg maze) eqn:Hhit;
    simpl; [done|].
  by rewrite lookup_insert_eq.
Qed.

(** C6.  Two calls of [get_score_for_maze] on layouts of one canonical
    key: the second returns what the first returned and changes nothing,
    the simulator is not run for it.  When the key is not cached at the
    first call, that call runs the simulator once, returns its score and
    stores it under the key; when the key is cached, no call runs the
    simulator.  Any calls for other layouts in between leave this as it
    is: a later call with the key still returns the stored score and does
    not simulate. *)
Theorem score_cache_idempotent cfg b m1 m2 others :
  to_string_representation cfg m1 = to_string_representation cfg m2 →
  let first := get_score_for_maze cfg b m1 in
  let later := score_all cfg (snd first) others in
  get_score_for_maze cfg (snd first) m2 = (fst first, snd first)
  ∧ get_score_for_maze cfg later m2 = (fst first, later)
  ∧ score_cache_ (snd first) !! to_string_representation cfg m1 = Some (fst first)
  ∧ (score_cache_ b !! to_string_representation cfg m1 = None →
     fst first = calculate_score cfg m1
     ∧ score_cache_ (snd first)
       = <[to_string_representation cfg m1 := calculate_score cfg m1]> (score_cache_ b)
     ∧ simulator_calls (snd first) = S (simulator_calls b)
     ∧ simulator_calls (snd (get_score_for_maze cfg (snd first) m2))
       = S (simulator_calls b))
  ∧ (∀ cached, score_cache_ b !! to_string_representation cfg m1 = Some cached →
     first = (cached, b)
     ∧ simulator_calls (snd (get_score_for_maze cfg (snd first) m2))
       = simulator_calls b).
Proof.
  intros Hkey first later.
  pose proof (get_score_for_maze_stores cfg b m1) as Hstored.
  fold first in Hstored.
  assert (get_score_for_maze cfg (snd first) m2 = (fst first, snd first)) as Hsecond.
  { apply get_score_for_maze_hit. by rewrite <- Hkey. }
  split_and!; [done| |done| |].
  - apply get_score_for_maze_hit. rewrite <- Hkey. by apply score_all_keeps.
  - intros Hmiss. rewrite Hsecond. subst first later.
    unfold get_score_for_maze. rewrite Hmiss. done.
  - intros cached Hhit. rewrite Hsecond. subst first later.
    by rewrite (get_score_for_maze_hit _ _ _ _ Hhit).
Qed.

Lemma score_cache_idempotent_witness :
  get_score_for_maze config_2x2
    (snd (get_score_for_maze config_2x2 fresh_members (Maze_new config_2x2)))
    (Maze_new config_2x2)
  = (fst (get_score_for_maze config_2x2 fresh_members (Maze_new config_2x2)),
     snd (get_score_for_maze config_2x2 fresh_members (Maze_new config_2x2))).
Proof.
  apply (score_cache_idempotent config_2x2 fresh_members
           (Maze_new config_2x2) (Maze_new config_2x2) []).
  reflexivity.
Defined.

(* ===================================================================== *)
(** * The candidate generator *)
(* ===================================================================== *)

Lemma elem_of_all_cells cfg p :
  p ∈ all_cells cfg ↔ is_within_bounds cfg p = true.
Proof.
  unfold all_cells. rewrite list_elem_of_bind, is_within_bounds_spec. split.
  - intros (r & (c & -> & Hc%elem_of_seqZ)%list_elem_of_fmap & Hr%elem_of_seqZ).
    simpl. lia.
  - intros [Hy Hx]. exists (coordinate_y p). rewrite list_elem_of_fmap, !elem_of_seqZ.
    split; [|lia]. exists (coordinate_x p).
    split; [by destruct p|apply elem_of_seqZ; lia].
Qed.

Lemma is_placeable_spec cfg m p :
  is_placeable cfg m p = true ↔
  p ≠ START_POINT ∧ p ≠ FINISH_POINT cfg ∧ is_wall_at m p = false.
Proof.
  unfold is_placeable, START_POINT, FINISH_POINT.
  rewrite negb_true_iff, !orb_false_iff, !andb_false_iff, !Z.eqb_neq.
  destruct p as [x y]. simpl. split.
  - intros [[Hs Hf] Hw]. split_and!; [|by intros [= -> ->]; lia|done].
    intros [= -> ->]. lia.
  - intros (Hs & Hf & Hw). split_and!; [| |done].
    + destruct (decide (x = 0)) as [->|]; [|by left].
      right. intros ->. done.
    + destruct (decide (x = MAZE_WIDTH cfg - 1)) as [->|]; [|by left].
      right. intros ->. done.
Qed.

(** Walling a cell that may be walled leaves the start and the finish as
    they were. *)
Lemma set_wall_at_same_ends cfg m p :
  is_within_bounds cfg p = true → is_placeable cfg m p = true →
  same_ends cfg m (set_wall_at m p true).
Proof.
  intros Hin (Hs & Hf & _)%is_placeable_spec.
  pose proof Hin as [Hy Hx]%is_within_bounds_spec.
  unfold same_ends, is_wall_at, set_wall_at. simpl. split.
  - apply grid_get_set_other. simpl.
    destruct (decide (coordinate_y p = 0)) as [Hy0|]; [|left; lia].
    destruct (decide (coordinate_x p = 0)) as [Hx0|]; [|right; lia].
    destruct Hs. destruct p. simpl in *. by subst.
  - apply grid_get_set_other. simpl.
    destruct (decide (coordinate_y p = MAZE_HEIGHT cfg - 1)) as [Hy0|]; [|left; lia].
    destruct (decide (coordinate_x p = MAZE_WIDTH cfg - 1)) as [Hx0|]; [|right; lia].
    destruct Hf. destruct p. simpl in *. by subst.
Qed.

Lemma same_ends_trans cfg a b c :
  same_ends cfg a b → same_ends cfg b c → same_ends cfg a c.
Proof. unfold same_ends. intros [? ?] [? ?]. split; congruence. Qed.

Lemma tree_weight_pos n r : (0 < tree_weight n r)%nat.
Proof. destruct r; simpl; lia. Qed.

Section Generator.
Variables (cfg : Config) (globally_visited : gset string) (base : Maze).

Lemma expand_cell_inv current_maze depth candidates q local p candidates' q' local' :
generate_inv cfg globally_visited base candidates local →
expand_cell cfg globally_visited current_maze depth (candidates, q, local) p
= (candidates', q', local') →
generate_inv cfg globally_visited base candidates' local'.
Proof.
intros (Hbase & Hnodup & Hcands). unfold expand_cell.
destruct (is_placeable cfg current_maze p); [|by intros [= <- <- <-]].
set (next_maze := set_wall_at current_maze p true).
set (repr := to_string_representation cfg next_maze).
destruct (decide (repr ∈ local)) as [|Hfresh]; [by intros [= <- <- <-]|].
destruct (decide (repr ∈ globally_visited)) as [|Hnew]; intros [= <- <- <-].
- split_and!; [by apply elem_of_union_r|done|].
  intros c Hc. destruct (Hcands c Hc) as (? & ? & ?).
  split_and!; [by apply elem_of_union_r|done|done].
- split_and!; [by apply elem_of_union_r| |].
  + rewrite fmap_app. apply NoDup_app. split_and!; [done| |apply NoDup_singleton].
    intros key (c & Hkey & Hc)%list_elem_of_fmap Hrepr%list_elem_of_singleton.
    destruct (Hcands c Hc) as (? & _).
    apply Hfresh. unfold repr. by rewrite <- Hrepr, Hkey.
  + intros c [Hc| ->%list_elem_of_singleton]%elem_of_app.
    * destruct (Hcands c Hc) as (? & ? & ?).
      split_and!; [by apply elem_of_union_r|done|done].
    * fold repr. split_and!; [by apply elem_of_union_l, elem_of_singleton|done|].
      intros Heq. apply Hfresh. by rewrite Heq.
Qed.

Lemma expand_cell_same_ends current_maze depth candidates q local p
  candidates' q' local' :
is_within_bounds cfg p = true →
same_ends cfg base current_maze →
Forall (same_ends cfg base) candidates →
Forall (λ e, same_ends cfg base (fst e)) q →
expand_cell cfg globally_visited current_maze depth (candidates, q, local) p
= (candidates', q', local') →
Forall (same_ends cfg base) candidates'
∧ Forall (λ e, same_ends cfg base (fst e)) q'.
Proof.
intros Hin Hcur Hcands Hq. unfold expand_cell.
destruct (is_placeable cfg current_maze p) eqn:Hplace; [|by intros [= <- <- <-]].
assert (same_ends cfg base (set_wall_at current_maze p true)) as Hnext.
{ eapply same_ends_trans; [exact Hcur|].
  exact (set_wall_at_same_ends cfg current_maze p Hin Hplace). }
destruct (decide (_ ∈ local)); [by intros [= <- <- <-]|].
destruct (decide (_ ∈ globally_visited)); intros [= <- <- <-].
- split; [done|]. apply Forall_app. split; [done|by apply Forall_singleton].
- split; apply Forall_app; (split; [done|by apply Forall_singleton]).
Qed.

Lemma expand_cell_weight jump_depth current_maze depth candidates q local p
  candidates' q' local' :
expand_cell cfg globally_visited current_maze depth (candidates, q, local) p
= (candidates', q', local') →
(queue_weight cfg jump_depth q'
 ≤ queue_weight cfg jump_depth q
   + tree_weight (length (all_cells cfg)) (Z.to_nat (jump_depth - (depth + 1))))%nat.
Proof.
unfold expand_cell.
destruct (is_placeable cfg current_maze p); [|intros [= <- <- <-]; lia].
destruct (decide (_ ∈ local)); [intros [= <- <- <-]; lia|].
intros [= <- <- <-]. unfold queue_weight.
rewrite sum_list_with_app. simpl. lia.
Qed.

Lemma expand_fold_inv current_maze depth cells candidates q local
  candidates' q' local' :
Forall (λ p, is_within_bounds cfg p = true) cells →
same_ends cfg base current_maze →
generate_inv cfg globally_visited base candidates local →
Forall (same_ends cfg base) candidates →
Forall (λ e, same_ends cfg base (fst e)) q →
fold_left (expand_cell cfg globally_visited current_maze depth) cells
          (candidates, q, local) = (candidates', q', local') →
generate_inv cfg globally_visited base candidates' local'
∧ Forall (same_ends cfg base) candidates'
∧ Forall (λ e, same_ends cfg base (fst e)) q'.
Proof.
intros Hcells Hcur. revert candidates q local.
induction Hcells as [|p cells Hp Hcells IH]; intros candidates q local Hinv Hc Hq.
- intros [= <- <- <-]. done.
- cbn [fold_left].
  destruct (expand_cell cfg globally_visited current_maze depth
              (candidates, q, local) p) as [[c1 q1] l1] eqn:Hstep.
  destruct (expand_cell_same_ends _ _ _ _ _ _ _ _ _ Hp Hcur Hc Hq Hstep).
  apply IH; [|done|done]. by eapply expand_cell_inv.
Qed.

Lemma expand_fold_weight jump_depth current_maze depth cells candidates q local
  candidates' q' local' :
fold_left (expand_cell cfg globally_visited current_maze depth) cells
          (candidates, q, local) = (candidates', q', local') →
(queue_weight cfg jump_depth q'
 ≤ queue_weight cfg jump_depth q
   + length cells
     * tree_weight (length (all_cells cfg)) (Z.to_nat (jump_depth - (depth + 1))))%nat.
Proof.
revert candidates q local.
induction cells as [|p cells IH]; intros candidates q local.
- intros [= <- <- <-]. simpl. lia.
- cbn [fold_left].
  destruct (expand_cell cfg globally_visited current_maze depth
              (candidates, q, local) p) as [[c1 q1] l1] eqn:Hstep.
  intros Hfold. apply IH in Hfold.
  apply (expand_cell_weight jump_depth) in Hstep. simpl. lia.
Qed.

(** The enumeration ends: each entry taken from the queue is replaced by
  entries of smaller weight. *)
Lemma generate_loop_total jump_depth fuel candidates q local :
(queue_weight cfg jump_depth q < fuel)%nat →
is_Some (generate_loop cfg globally_visited jump_depth fuel candidates q local).
Proof.
revert candidates q local.
induction fuel as [|fuel IH]; intros candidates q local Hlt; [lia|].
cbn [generate_loop]. destruct q as [|[current_maze depth] rest]; [by eexists|].
unfold queue_weight in Hlt. cbn [sum_list_with snd] in Hlt.
fold (queue_weight cfg jump_depth rest) in Hlt.
destruct (jump_depth <=? depth) eqn:Hdepth.
- apply IH.
  pose proof (tree_weight_pos (length (all_cells cfg))
                (Z.to_nat (jump_depth - depth))). lia.
- apply Z.leb_gt in Hdepth.
  destruct (fold_left _ _ _) as [[c1 q1] l1] eqn:Hfold.
  apply IH. apply (expand_fold_weight jump_depth) in Hfold.
  replace (Z.to_nat (jump_depth - depth))
    with (S (Z.to_nat (jump_depth - (depth + 1)))) in Hlt by lia.
  simpl in Hlt. lia.
Qed.

Lemma generate_loop_inv jump_depth fuel candidates q local result :
generate_inv cfg globally_visited base candidates local →
Forall (same_ends cfg base) candidates →
Forall (λ e, same_ends cfg base (fst e)) q →
generate_loop cfg globally_visited jump_depth fuel candidates q local
= Some result →
∃ local', generate_inv cfg globally_visited base result local'
          ∧ Forall (same_ends cfg base) result.
Proof.
revert candidates q local.
induction fuel as [|fuel IH]; intros candidates q local Hinv Hc Hq; [done|].
cbn [generate_loop]. destruct q as [|[current_maze depth] rest].
- intros [= <-]. eauto.
- apply Forall_cons in Hq as [Hcur Hq]. simpl in Hcur.
  destruct (jump_depth <=? depth); [by apply IH|].
  destruct (fold_left _ _ _) as [[c1 q1] l1] eqn:Hfold.
  eapply expand_fold_inv in Hfold as (? & ? & ?); [|..|done|done|done]; [| |done].
  + by apply IH.
  + apply Forall_forall. intros p. by rewrite elem_of_all_cells.
Qed.
End Generator.

Lemma generate_unique_candidates_run_total cfg b base jump_depth :
  generate_unique_candidates_run cfg b base jump_depth
  = Some (generate_unique_candidates cfg b base jump_depth).
Proof.
  unfold generate_unique_candidates.
  destruct (generate_unique_candidates_run cfg b base jump_depth) eqn:Hrun; [done|].
  exfalso. eapply is_Some_None. rewrite <- Hrun.
  apply generate_loop_total. unfold queue_weight, generate_fuel. simpl.
  rewrite Z.sub_0_r. lia.
Qed.

(** What every call of the generator returns, at any depth. *)
Lemma generate_unique_candidates_spec cfg b base jump_depth :
  NoDup (to_string_representation cfg
           <$> generate_unique_candidates cfg b base jump_depth)
  ∧ ∀ c, c ∈ generate_unique_candidates cfg b base jump_depth →
         (to_string_representation cfg c ∉ globally_visited_layouts_ b)
         ∧ (to_string_representation cfg c ≠ to_string_representation cfg base)
         ∧ same_ends cfg base c.
Proof.
  pose proof (generate_unique_candidates_run_total cfg b base jump_depth) as Hrun.
  unfold generate_unique_candidates_run in Hrun.
  apply (generate_loop_inv cfg _ base) in Hrun as (local & (_ & Hnodup & Hc) & Hends).
  - split; [done|]. intros c Hin. destruct (Hc c Hin) as (_ & ? & ?).
    rewrite Forall_forall in Hends. auto.
  - split_and!; [by apply elem_of_singleton|constructor|].
    by intros c ?%elem_of_nil.
  - constructor.
  - apply Forall_singleton. done.
Qed.

(** The generator copies the base layout and only chooses the cell to
    wall: a base layout with a wall on the start cell, which no search
    ever holds, would keep it in every candidate. *)
Lemma generator_keeps_wall_on_start :
  ¬ (∀ cfg b base c,
       c ∈ generate_unique_candidates cfg b base 1 →
       is_wall_at c START_POINT = false ∧ is_wall_at c (FINISH_POINT cfg) = false).
Proof.
  intros Hclaim.
  destruct (Hclaim config_2x2 fresh_members
              (maze_of [[true; false]; [false; false]])
              (maze_of [[true; true]; [false; false]])) as [Hstart _].
  - vm_compute. left.
  - vm_compute in Hstart. discriminate.
Qed.

(** C7.  Run with depth 1 on a base layout whose start and finish cells
    are open, as they are in every layout the searches hold (the empty
    layout and what walling other cells makes of it), and with any
    visited set, the generator returns; it never returns the base layout,
    never a layout with a wall on the start or on the finish cell, never
    a layout whose key is in the visited set, and never two layouts of
    one key. *)
Theorem generator_depth_one_exclusions cfg b base :
  is_wall_at base START_POINT = false →
  is_wall_at base (FINISH_POINT cfg) = false →
  generate_unique_candidates_run cfg b base 1
  = Some (generate_unique_candidates cfg b base 1)
  ∧ (base ∉ generate_unique_candidates cfg b base 1)
  ∧ (∀ c, c ∈ generate_unique_candidates cfg b base 1 →
          is_wall_at c START_POINT = false
          ∧ is_wall_at c (FINISH_POINT cfg) = false)
  ∧ (∀ c, c ∈ generate_unique_candidates cfg b base 1 →
          to_string_representation cfg c ∉ globally_visited_layouts_ b)
  ∧ NoDup (to_string_representation cfg <$> generate_unique_candidates cfg b base 1).
Proof.
  intros Hs Hf.
  destruct (generate_unique_candidates_spec cfg b base 1) as [Hnodup Hc].
  split_and!; [apply generate_unique_candidates_run_total| | | |done].
  - intros Hin. by destruct (Hc base Hin) as (_ & ? & _).
  - intros c Hin. destruct (Hc c Hin) as (_ & _ & [? ?]). split; congruence.
  - intros c Hin. by destruct (Hc c Hin) as (? & _).
Qed.

Lemma generator_depth_one_exclusions_witness :
  length (generate_unique_candidates config_3x3 fresh_members (Maze_new config_3x3) 1)
  = 7%nat
  ∧ ∀ c, c ∈ generate_unique_candidates config_3x3 fresh_members
               (Maze_new config_3x3) 1 →
         is_wall_at c START_POINT = false
         ∧ is_wall_at c (FINISH_POINT config_3x3) = false.
Proof.
  split; [vm_compute; reflexivity|].
  apply (generator_depth_one_exclusions config_3x3 fresh_members (Maze_new config_3x3));
    reflexivity.
Defined.

(* ===================================================================== *)
(** * The record sink *)
(* ===================================================================== *)

Lemma sorted_last_bound (l : list Z) h x :
  StronglySorted Z.lt l → last l = Some h → x ∈ l → x <= h.
Proof.
  intros Hsorted [l' ->]%last_Some [Hx| ->%list_elem_of_singleton]%elem_of_app; [|lia].
  pose proof (StronglySorted_app_1_elem_of _ _ _ x h Hsorted Hx
                (list_elem_of_here _ _)). lia.
Qed.

Lemma records_inv_same cfg b b' :
  records b' = records b → highest_known_score_ b' = highest_known_score_ b →
  records_inv cfg b → records_inv cfg b'.
Proof. unfold records_inv. intros -> ->. done. Qed.

Lemma get_score_for_maze_base cfg b maze :
  records (snd (get_score_for_maze cfg b maze)) = records b
  ∧ highest_known_score_ (snd (get_score_for_maze cfg b maze))
    = highest_known_score_ b
  ∧ globally_visited_layouts_ (snd (get_score_for_maze cfg b maze))
    = globally_visited_layouts_ b
  ∧ console (snd (get_score_for_maze cfg b maze)) = console b.
Proof.
  unfold get_score_for_maze.
  by destruct (score_cache_ b !! to_string_representation cfg maze).
Qed.

Lemma records_inv_get_score cfg b maze :
  records_inv cfg b → records_inv cfg (snd (get_score_for_maze cfg b maze)).
Proof.
  destruct (get_score_for_maze_base cfg b maze) as (? & ? & _).
  by apply records_inv_same.
Qed.

Lemma records_inv_mark_visited cfg b repr :
  records_inv cfg b → records_inv cfg (mark_visited repr b).
Proof. by apply records_inv_same. Qed.

Lemma records_inv_print_line cfg b line :
  records_inv cfg b → records_inv cfg (print_line line b).
Proof. by apply records_inv_same. Qed.

Lemma records_inv_print_if cfg b cond line :
  records_inv cfg b → records_inv cfg (print_if cond line b).
Proof. destruct cond; [apply records_inv_print_line|done]. Qed.

(** The update rule keeps the sink in order: it passes on a score only
    when the score exceeds the best-known one, which is the last passed. *)
Lemma records_inv_update_record cfg b maze score :
  records_inv cfg b → records_inv cfg (update_record b maze score).
Proof.
  intros Hinv. pose proof Hinv as ([later Hfirst] & Hsorted & Hlast).
  unfold update_record.
  destruct (highest_known_score_ b <? score) eqn:Hlt; [|done].
  apply Z.ltb_lt in Hlt. unfold records_inv. simpl. split_and!.
  - exists (later ++ [(maze, score)]). by rewrite Hfirst.
  - rewrite fmap_app. apply StronglySorted_app_2; [|done|].
    + intros x1 x2 Hx1 Hx2%list_elem_of_singleton. simpl in Hx2.
      pose proof (sorted_last_bound _ _ _ Hsorted Hlast Hx1). lia.
    + simpl. repeat constructor.
  - rewrite fmap_app. simpl. apply last_snoc.
Qed.

Lemma records_inv_constructor cfg : records_inv cfg (SolverBase_new cfg).
Proof.
  unfold SolverBase_new, get_score_for_maze. simpl.
  rewrite lookup_empty. unfold records_inv. simpl.
  split_and!; [by exists []|repeat constructor|reflexivity].
Qed.

Lemma records_inv_evaluate cfg state candidates b improvements :
  records_inv cfg b →
  records_inv cfg
    (fst (fold_left (evaluate_candidate cfg state) candidates (b, improvements))).
Proof.
  revert b improvements.
  induction candidates as [|c candidates IH]; intros b improvements Hinv; [done|].
  cbn [fold_left]. unfold evaluate_candidate at 2.
  pose proof (records_inv_get_score cfg b c Hinv) as Hnext.
  destruct (get_score_for_maze cfg b c) as [score b'].
  destruct (snd state <? score); by apply IH.
Qed.

Lemma records_inv_push cfg g improvements :
  records_inv cfg (greedy_base g) →
  records_inv cfg (greedy_base (fold_left (push_improvement cfg) improvements g)).
Proof.
  revert g. induction improvements as [|s improvements IH]; intros g Hinv; [done|].
  cbn [fold_left]. apply IH. unfold push_improvement. simpl.
  by apply records_inv_mark_visited, records_inv_update_record.
Qed.

Lemma records_inv_evaluate_and_process {sorter : Sorter} cfg g candidates state is_deep :
  records_inv cfg (greedy_base g) →
  records_inv cfg
    (greedy_base (snd (evaluate_and_process_candidates cfg g candidates state is_deep))).
Proof.
  intros Hinv. unfold evaluate_and_process_candidates.
  pose proof (records_inv_evaluate cfg state candidates _ []
                (records_inv_print_if cfg _ is_deep
                   (EvaluatingNewStates (length candidates)) Hinv)) as Hfold.
  destruct (fold_left _ _ _) as [b1 improvements]. simpl in Hfold.
  destruct improvements as [|s improvements]; simpl.
  - by apply records_inv_print_if.
  - apply records_inv_push. simpl. by apply records_inv_print_if.
Qed.

Lemma records_inv_find_and_push {sorter : Sorter} cfg g state depth :
  records_inv cfg (greedy_base g) →
  records_inv cfg
    (greedy_base (snd (find_and_push_potential_next_states cfg g state depth))).
Proof.
  intros Hinv. unfold find_and_push_potential_next_states.
  destruct (generate_unique_candidates cfg (greedy_base g) (fst state) depth);
    [done|].
  by apply records_inv_evaluate_and_process.
Qed.

Lemma records_inv_greedy_iter {sorter : Sorter} cfg g g' :
  records_inv cfg (greedy_base g) → greedy_iter cfg g = Some g' →
  records_inv cfg (greedy_base g').
Proof.
  intros Hinv. unfold greedy_iter.
  destruct (states_to_explore_stack_ g) as [|current rest]; [done|].
  set (g0 := {| greedy_base := greedy_base g; states_to_explore_stack_ := rest |}).
  pose proof (records_inv_find_and_push cfg g0 current 1 Hinv) as Hfirst.
  destruct (find_and_push_potential_next_states cfg g0 current 1)
    as [found g1]. simpl in Hfirst.
  destruct (negb found && (1 <? DEEP_JUMP_DEPTH cfg)); intros [= <-]; [|done].
  apply records_inv_find_and_push. simpl.
  by apply records_inv_print_line.
Qed.

Lemma records_inv_greedy_loop {sorter : Sorter} cfg n g :
  records_inv cfg (greedy_base g) →
  records_inv cfg (greedy_base (greedy_loop cfg n g)).
Proof.
  revert g. induction n as [|n IH]; intros g Hinv; [done|].
  cbn [greedy_loop]. destruct (greedy_iter cfg g) as [g'|] eqn:Hiter; [|done].
  by eapply IH, records_inv_greedy_iter.
Qed.

Lemma records_inv_best_first_visit {Q} {queue : PriorityQueue Q}
    cfg current_maze cells b pq :
  records_inv cfg b →
  records_inv cfg
    (fst (fold_left (best_first_visit cfg current_maze) cells (b, pq))).
Proof.
  revert b pq. induction cells as [|p cells IH]; intros b pq Hinv; [done|].
  cbn [fold_left]. unfold best_first_visit at 2.
  destruct (decide (_ ∈ globally_visited_layouts_ b)); [by apply IH|].
  pose proof (records_inv_get_score cfg b (set_wall_at current_maze p true) Hinv)
    as Hnext.
  destruct (get_score_for_maze cfg b (set_wall_at current_maze p true))
    as [score b1].
  apply IH. by apply records_inv_mark_visited, records_inv_update_record.
Qed.

Lemma records_inv_best_first_loop `{Shuffler G} {Q} {queue : PriorityQueue Q}
    cfg n (s : BestFirstSolver G Q) :
  records_inv cfg (best_first_base s) →
  records_inv cfg (best_first_base (best_first_loop cfg n s)).
Proof.
  revert s. induction n as [|n IH]; intros s Hinv; [done|].
  cbn [best_first_loop]. unfold best_first_iter.
  destruct (pq_pop (pq_ s)) as [[current rest]|]; [|done].
  destruct (visiting_order cfg (rng_ s) (fst current)) as [cells rng'].
  pose proof (records_inv_best_first_visit cfg (fst current) cells _ rest Hinv)
    as Hfold.
  destruct (fold_left _ _ _) as [b pq']. by apply IH.
Qed.

(** ** The sink only receives: what it holds is never taken back *)

Lemma records_prefix_get_score cfg b maze :
  records b `prefix_of` records (snd (get_score_for_maze cfg b maze)).
Proof. by destruct (get_score_for_maze_base cfg b maze) as (-> & _). Qed.

Lemma records_prefix_update_record b maze score :
  records b `prefix_of` records (update_record b maze score).
Proof.
  unfold update_record. destruct (highest_known_score_ b <? score); [|done].
  simpl. by apply prefix_app_r.
Qed.

Lemma records_prefix_print_if b cond line :
  records b `prefix_of` records (print_if cond line b).
Proof. by destruct cond. Qed.

Lemma records_prefix_evaluate cfg state candidates b improvements :
  records b `prefix_of`
  records (fst (fold_left (evaluate_candidate cfg state) candidates (b, improvements))).
Proof.
  revert b improvements.
  induction candidates as [|c candidates IH]; intros b improvements; [done|].
  cbn [fold_left]. unfold evaluate_candidate at 2.
  pose proof (records_prefix_get_score cfg b c) as Hnext.
  destruct (get_score_for_maze cfg b c) as [score b'].
  destruct (snd state <? score); (etrans; [exact Hnext|apply IH]).
Qed.

Lemma records_prefix_push cfg g improvements :
  records (greedy_base g) `prefix_of`
  records (greedy_base (fold_left (push_improvement cfg) improvements g)).
Proof.
  revert g. induction improvements as [|s improvements IH]; intros g; [done|].
  cbn [fold_left]. etrans; [|apply IH]. unfold push_improvement. simpl.
  apply records_prefix_update_record.
Qed.

Lemma records_prefix_find_and_push {sorter : Sorter} cfg g state depth :
  records (greedy_base g) `prefix_of`
  records (greedy_base (snd (find_and_push_potential_next_states cfg g state depth))).
Proof.
  unfold find_and_push_potential_next_states.
  destruct (generate_unique_candidates cfg (greedy_base g) (fst state) depth)
    as [|c candidates]; [done|].
  unfold evaluate_and_process_candidates.
  set (b0 := print_if (1 <? depth) _ (greedy_base g)).
  pose proof (records_prefix_print_if (greedy_base g) (1 <? depth)
                (EvaluatingNewStates (length (c :: candidates)))) as H0.
  pose proof (records_prefix_evaluate cfg state (c :: candidates) b0 []) as H1.
  destruct (fold_left _ _ _) as [b1 improvements]. simpl in H1.
  set (b2 := print_if (1 <? depth) _ b1).
  assert (records b1 `prefix_of` records b2) as H2
    by apply records_prefix_print_if.
  destruct improvements as [|s improvements]; simpl.
  - etrans; [exact H0|]. by etrans.
  - etrans; [|apply records_prefix_push]. simpl.
    etrans; [exact H0|]. by etrans.
Qed.

Lemma records_prefix_greedy_loop {sorter : Sorter} cfg n g :
  records (greedy_base g) `prefix_of` records (greedy_base (greedy_loop cfg n g)).
Proof.
  revert g. induction n as [|n IH]; intros g; [done|].
  cbn [greedy_loop]. destruct (greedy_iter cfg g) as [g'|] eqn:Hiter; [|done].
  etrans; [|apply IH]. unfold greedy_iter in Hiter.
  destruct (states_to_explore_stack_ g) as [|current rest]; [done|].
  set (g0 := {| greedy_base := greedy_base g; states_to_explore_stack_ := rest |})
    in Hiter.
  pose proof (records_prefix_find_and_push cfg g0 current 1) as Hfirst.
  destruct (find_and_push_potential_next_states cfg g0 current 1) as [found g1].
  simpl in Hfirst.
  destruct (negb found && (1 <? DEEP_JUMP_DEPTH cfg)); injection Hiter as <-;
    [|done].
  etrans; [exact Hfirst|].
  apply (records_prefix_find_and_push cfg
           (with_base (print_line DeadEndFound (greedy_base g1)) g1)).
Qed.

Lemma records_prefix_best_first_visit {Q} {queue : PriorityQueue Q}
    cfg current_maze cells b pq :
  records b `prefix_of`
  records (fst (fold_left (best_first_visit cfg current_maze) cells (b, pq))).
Proof.
  revert b pq. induction cells as [|p cells IH]; intros b pq; [done|].
  cbn [fold_left]. unfold best_first_visit at 2.
  destruct (decide (_ ∈ globally_visited_layouts_ b)); [apply IH|].
  pose proof (records_prefix_get_score cfg b (set_wall_at current_maze p true))
    as Hnext.
  destruct (get_score_for_maze cfg b (set_wall_at current_maze p true))
    as [score b1].
  etrans; [exact Hnext|]. etrans; [|apply IH]. simpl.
  apply records_prefix_update_record.
Qed.

Lemma records_prefix_best_first_loop `{Shuffler G} {Q} {queue : PriorityQueue Q}
    cfg n (s : BestFirstSolver G Q) :
  records (best_first_base s) `prefix_of`
  records (best_first_base (best_first_loop cfg n s)).
Proof.
  revert s. induction n as [|n IH]; intros s; [done|].
  cbn [best_first_loop]. unfold best_first_iter.
  destruct (pq_pop (pq_ s)) as [[current rest]|]; [|done].
  destruct (visiting_order cfg (rng_ s) (fst current)) as [cells rng'].
  pose proof (records_prefix_best_first_visit cfg (fst current) cells
                (best_first_base s) rest) as Hfold.
  destruct (fold_left _ _ _) as [b pq']. etrans; [exact Hfold|]. apply IH.
Qed.

Lemma greedy_loop_add {sorter : Sorter} cfg n k g :
  greedy_loop cfg (n + k) g = greedy_loop cfg k (greedy_loop cfg n g).
Proof.
  revert g. induction n as [|n IH]; intros g; [done|].
  cbn [Nat.add greedy_loop].
  destruct (greedy_iter cfg g) as [g'|] eqn:Hiter; [apply IH|].
  clear IH. induction k as [|k IHk]; [done|].
  cbn [greedy_loop]. by rewrite Hiter.
Qed.

Lemma best_first_loop_add `{Shuffler G} {Q} {queue : PriorityQueue Q}
    cfg n k (s : BestFirstSolver G Q) :
  best_first_loop cfg (n + k) s = best_first_loop cfg k (best_first_loop cfg n s).
Proof.
  revert s. induction n as [|n IH]; intros s; [done|].
  cbn [Nat.add best_first_loop].
  destruct (best_first_iter cfg s) as [s'|] eqn:Hiter; [apply IH|].
  clear IH. induction k as [|k IHk]; [done|].
  cbn [best_first_loop]. by rewrite Hiter.
Qed.

(** C5 as the specification words it, for the paths to the sink: the
    constructor passes the empty layout and its score to the sink without
    any comparison, before a layout is admitted anywhere; the update rule
    applied to this layout and score in the state the constructor leaves
    would pass nothing. *)
Lemma constructor_notifies_outside_update_rule :
  records (SolverBase_new config_2x2) = [(Maze_new config_2x2, 2)]
  ∧ globally_visited_layouts_ (SolverBase_new config_2x2) = ∅
  ∧ highest_known_score_ (SolverBase_new config_2x2) = 2
  ∧ update_record (SolverBase_new config_2x2) (Maze_new config_2x2) 2
    = SolverBase_new config_2x2.
Proof. vm_compute. done. Qed.

(** C5 (as amended).  At every point of a run of Greedy-Backtrack or of
    Best-First, whatever the sort, the priority queue and the shuffle do
    with entries of equal score, the scores the record sink has received
    so far are strictly increasing, and what it has received is kept as
    the run goes on.  The first record is the empty layout with
    its score, which the constructor passes on its own; every later one
    comes from the update rule, so that the last score received is always
    the best-known score. *)
Theorem record_scores_strictly_increasing {sorter : Sorter} cfg n k :
  (StronglySorted Z.lt (snd <$> records (greedy_base (greedy_run cfg n)))
   ∧ (∃ later, records (greedy_base (greedy_run cfg n))
               = (Maze_new cfg, calculate_score cfg (Maze_new cfg)) :: later)
   ∧ last (snd <$> records (greedy_base (greedy_run cfg n)))
     = Some (highest_known_score_ (greedy_base (greedy_run cfg n)))
   ∧ records (greedy_base (greedy_run cfg n))
     `prefix_of` records (greedy_base (greedy_run cfg (n + k))))
  ∧ ∀ G (shuffler : Shuffler G) Q (queue : PriorityQueue Q) (seed : G),
      StronglySorted Z.lt (snd <$> records (best_first_base (best_first_run cfg seed n)))
      ∧ (∃ later, records (best_first_base (best_first_run cfg seed n))
                  = (Maze_new cfg, calculate_score cfg (Maze_new cfg)) :: later)
      ∧ last (snd <$> records (best_first_base (best_first_run cfg seed n)))
        = Some (highest_known_score_ (best_first_base (best_first_run cfg seed n)))
      ∧ records (best_first_base (best_first_run cfg seed n))
        `prefix_of` records (best_first_base (best_first_run cfg seed (n + k))).
Proof.
  split.
  - assert (records_inv cfg (greedy_base (greedy_run cfg n)))
      as (Hfirst & Hsorted & Hlast).
    { apply records_inv_greedy_loop. unfold greedy_start. simpl.
      apply records_inv_mark_visited, records_inv_constructor. }
    split_and!; [done..|].
    unfold greedy_run. rewrite greedy_loop_add. apply records_prefix_greedy_loop.
  - intros G shuffler Q queue seed.
    assert (records_inv cfg (best_first_base (best_first_run cfg seed n)))
      as (Hfirst & Hsorted & Hlast).
    { apply records_inv_best_first_loop. unfold best_first_start. simpl.
      apply records_inv_mark_visited, records_inv_constructor. }
    split_and!; [done..|].
    unfold best_first_run. rewrite best_first_loop_add.
    apply records_prefix_best_first_loop.
Qed.

(* ===================================================================== *)
(** * Greedy-Backtrack: the push loop *)
(* ===================================================================== *)

Lemma update_record_base b maze score :
  globally_visited_layouts_ (update_record b maze score)
  = globally_visited_layouts_ b
  ∧ score_cache_ (update_record b maze score) = score_cache_ b
  ∧ simulator_calls (update_record b maze score) = simulator_calls b
  ∧ highest_known_score_ (update_record b maze score)
    = Z.max (highest_known_score_ b) score
  ∧ ∃ lines, console (update_record b maze score) = console b ++ lines
             ∧ Forall is_record_line lines.
Proof.
  unfold update_record.
  destruct (highest_known_score_ b <? score) eqn:Hlt; simpl.
  - apply Z.ltb_lt in Hlt. split_and!; [done|done|done|lia|].
    exists [RecordFound score]. split; [done|].
    apply Forall_singleton. by eexists.
  - apply Z.ltb_ge in Hlt. split_and!; [done|done|done|lia|].
    exists []. by rewrite app_nil_r.
Qed.

Lemma push_improvement_parts cfg g s :
  states_to_explore_stack_ (push_improvement cfg g s)
  = s :: states_to_explore_stack_ g
  ∧ globally_visited_layouts_ (greedy_base (push_improvement cfg g s))
    = {[to_string_representation cfg (fst s)]}
      ∪ globally_visited_layouts_ (greedy_base g)
  ∧ ∃ lines, console (greedy_base (push_improvement cfg g s))
             = console (greedy_base g) ++ lines
             ∧ Forall is_record_line lines.
Proof.
  unfold push_improvement. simpl.
  destruct (update_record_base (greedy_base g) (fst s) (snd s))
    as (-> & _ & _ & _ & Hlines).
  done.
Qed.

(** The push loop: the improvements end up on the stack in reverse order
    of pushing, their keys in the visited set; it prints record lines
    only. *)
Lemma push_fold_spec cfg improvements g :
  let g' := fold_left (push_improvement cfg) improvements g in
  states_to_explore_stack_ g' = reverse improvements ++ states_to_explore_stack_ g
  ∧ globally_visited_layouts_ (greedy_base g')
    = list_to_set ((λ s, to_string_representation cfg (fst s)) <$> improvements)
      ∪ globally_visited_layouts_ (greedy_base g)
  ∧ ∃ lines, console (greedy_base g') = console (greedy_base g) ++ lines
             ∧ Forall is_record_line lines.
Proof.
  revert g. induction improvements as [|s improvements IH]; intros g.
  - simpl. split_and!; [done| |].
    + by rewrite union_empty_l_L.
    + exists []. by rewrite app_nil_r.
  - cbn [fold_left]. cbv zeta.
    destruct (IH (push_improvement cfg g s))
      as (Hstack & Hvisited & lines & Hconsole & Hlines).
    destruct (push_improvement_parts cfg g s)
      as (Hstack1 & Hvisited1 & lines1 & Hconsole1 & Hlines1).
    rewrite Hstack, Hvisited, Hconsole, Hstack1, Hvisited1, Hconsole1.
    split_and!.
    + by rewrite reverse_cons, <- app_assoc.
    + rewrite fmap_cons, list_to_set_cons.
      by rewrite (assoc_L (∪)), (comm_L (∪) (list_to_set _) {[_]}).
    + exists (lines1 ++ lines). rewrite app_assoc. split; [done|].
      by apply Forall_app.
Qed.

Lemma sorted_top (sorted : list SolverState) :
  StronglySorted score_le sorted → sorted ≠ [] →
  ∃ top, head (reverse sorted) = Some top ∧ top ∈ sorted
         ∧ ∀ s, s ∈ sorted → snd s <= snd top.
Proof.
  intros Hsorted Hne.
  destruct (proj2 (last_is_Some sorted) Hne) as [top Hlast].
  exists top. rewrite head_reverse. split; [done|].
  apply last_Some in Hlast as [l' ->].
  split; [apply elem_of_app; right; left|].
  intros s [Hs| ->%list_elem_of_singleton]%elem_of_app; [|lia].
  exact (StronglySorted_app_1_elem_of _ _ _ s top Hsorted Hs
           (list_elem_of_here _ _)).
Qed.

(* ===================================================================== *)
(** * Canonical keys *)
(* ===================================================================== *)

Lemma string_length_append (s t : string) :
  String.length (s +:+ t) = (String.length s + String.length t)%nat.
Proof. induction s as [|a s IH]; simpl; [done|]. by rewrite IH. Qed.

Lemma string_append_inj (s1 s2 t1 t2 : string) :
  String.length s1 = String.length s2 →
  s1 +:+ t1 = s2 +:+ t2 → s1 = s2 ∧ t1 = t2.
Proof.
  revert s2. induction s1 as [|a s1 IH]; intros [|b s2] Hlen; simplify_eq/=.
  - done.
  - intros [= -> Heq]. destruct (IH s2 Hlen Heq) as [-> ->]. done.
Qed.

(** Two strings built cell by cell, one character for each cell, are equal
    only if they agree on every cell. *)
Lemma fold_append_inj {A} (f g : A → string) (l : list A) (acc1 acc2 : string) :
  (∀ p, String.length (f p) = 1%nat ∧ String.length (g p) = 1%nat) →
  String.length acc1 = String.length acc2 →
  fold_left (λ repr p, repr +:+ f p) l acc1
  = fold_left (λ repr p, repr +:+ g p) l acc2 →
  acc1 = acc2 ∧ ∀ p, p ∈ l → f p = g p.
Proof.
  intros Hone. revert acc1 acc2.
  induction l as [|p l IH]; intros acc1 acc2 Hlen; simpl.
  - intros ->. split; [done|]. by intros p ?%elem_of_nil.
  - intros Heq. apply IH in Heq as [Happ Hrest].
    + apply string_append_inj in Happ as [-> Hp]; [|done].
      split; [done|]. intros q [->|Hq]%elem_of_cons; auto.
    + rewrite !string_length_append. destruct (Hone p) as [-> ->]. lia.
Qed.

(** The key determines the layout inside the grid. *)
Lemma to_string_representation_cells cfg m1 m2 p :
  to_string_representation cfg m1 = to_string_representation cfg m2 →
  is_within_bounds cfg p = true →
  is_wall_at m1 p = is_wall_at m2 p.
Proof.
  unfold to_string_representation. intros Heq Hin.
  apply fold_append_inj in Heq as [_ Hcells]; [| |done].
  - apply elem_of_all_cells in Hin. specialize (Hcells p Hin). simpl in Hcells.
    by destruct (is_wall_at m1 p), (is_wall_at m2 p).
  - intros q. simpl. by destruct (is_wall_at m1 q), (is_wall_at m2 q).
Qed.

Lemma set_wall_at_wf cfg m p has_wall :
  maze_wf cfg m → maze_wf cfg (set_wall_at m p has_wall).
Proof. apply (grid_set_dims _ _ (wall_grid m) p has_wall). Qed.

Lemma Maze_new_wf cfg : maze_wf cfg (Maze_new cfg).
Proof. apply replicate_grid_dims. Qed.

Lemma is_wall_at_set_same cfg m p has_wall :
  maze_wf cfg m → is_within_bounds cfg p = true →
  is_wall_at (set_wall_at m p has_wall) p = has_wall.
Proof.
  intros Hwf Hin. unfold is_wall_at, set_wall_at. simpl.
  apply grid_get_set_same; [done|done|].
  apply is_within_bounds_nat in Hin as [Hy Hx].
  exact (grid_dims_lookup _ _ (wall_grid m) _ _ Hwf Hy Hx).
Qed.

Lemma is_wall_at_set_other cfg m p q has_wall :
  is_within_bounds cfg p = true → is_within_bounds cfg q = true → p ≠ q →
  is_wall_at (set_wall_at m p has_wall) q = is_wall_at m q.
Proof.
  intros Hp Hq Hne. unfold is_wall_at, set_wall_at. simpl.
  apply grid_get_set_other. by eapply in_bounds_distinct.
Qed.

Lemma elem_of_placeable_cells cfg m p :
  p ∈ placeable_cells cfg m ↔
  is_within_bounds cfg p = true ∧ is_placeable cfg m p = true.
Proof.
  unfold placeable_cells. rewrite list_elem_of_filter, elem_of_all_cells. tauto.
Qed.

(** Walling two different open cells of a layout gives two different
    keys. *)
Lemma candidate_keys_distinct cfg m p q :
  maze_wf cfg m →
  p ∈ placeable_cells cfg m → q ∈ placeable_cells cfg m → p ≠ q →
  to_string_representation cfg (set_wall_at m p true)
  ≠ to_string_representation cfg (set_wall_at m q true).
Proof.
  intros Hwf [Hp _]%elem_of_placeable_cells [Hq Hopen]%elem_of_placeable_cells Hne Heq.
  apply is_placeable_spec in Hopen as (_ & _ & Hopen).
  pose proof (to_string_representation_cells _ _ _ q Heq Hq) as Hcell.
  rewrite (is_wall_at_set_same cfg m q true Hwf Hq) in Hcell.
  rewrite (is_wall_at_set_other cfg m p q true Hp Hq Hne) in Hcell.
  congruence.
Qed.

Lemma NoDup_all_cells cfg : NoDup (all_cells cfg).
Proof.
  unfold all_cells. apply NoDup_bind.
  - intros r1 r2 p _ _ (c1 & -> & _)%list_elem_of_fmap (c2 & [= _ ->] & _)%list_elem_of_fmap.
    done.
  - intros r _. apply NoDup_fmap_2; [|apply NoDup_seqZ].
    by intros c1 c2 [= ->].
  - apply NoDup_seqZ.
Qed.

Lemma NoDup_placeable_cells cfg m : NoDup (placeable_cells cfg m).
Proof. apply NoDup_filter, NoDup_all_cells. Qed.

Lemma NoDup_candidate_keys cfg m cells :
  maze_wf cfg m → cells ≡ₚ placeable_cells cfg m →
  NoDup ((λ p, to_string_representation cfg (set_wall_at m p true)) <$> cells).
Proof.
  intros Hwf Hperm. apply NoDup_fmap_2_strong.
  - intros p q Hp Hq Heq. rewrite Hperm in Hp, Hq.
    destruct (decide (p = q)) as [|Hne]; [done|].
    by destruct (candidate_keys_distinct cfg m p q Hwf Hp Hq Hne).
  - rewrite Hperm. apply NoDup_placeable_cells.
Qed.

(* ===================================================================== *)
(** * Best-First: the order of the visits *)
(* ===================================================================== *)











Lemma visiting_order_perm `{Shuffler G} cfg (rng : G) m :
  fst (visiting_order cfg rng m) ≡ₚ placeable_cells cfg m.
Proof.
  unfold visiting_order.
  destruct (RANDOMIZE_CELL_ORDER cfg); [apply shuffle_perm|done].
Qed.

(** On the 2 x 2 grid the first iteration admits two layouts of score 2,
    the score of the popped entry: no improvement is needed. *)
Lemma best_first_admits_without_improvement :
  snd <$> pq_ (best_first_run (queue := list_priority_queue) config_2x2 tt 1) = [2; 2]
  ∧ highest_known_score_
      (best_first_base (best_first_run (queue := list_priority_queue) config_2x2 tt 0))
    = 2.
Proof. vm_compute. done. Qed.

(* ===================================================================== *)
(** * Layouts: walls and keys *)
(* ===================================================================== *)

(** X1.  [set_wall_at] followed by [is_wall_at]: on a well-formed layout a cell
    inside the grid reads back what was written, every other cell inside
    the grid is left as it was, and the layout stays well formed. *)
Theorem set_wall_then_is_wall cfg m p q has_wall :
  maze_wf cfg m →
  is_within_bounds cfg p = true →
  is_within_bounds cfg q = true →
  is_wall_at (set_wall_at m p has_wall) q
  = (if decide (p = q) then has_wall else is_wall_at m q)
  ∧ maze_wf cfg (set_wall_at m p has_wall).
Proof.
  intros Hwf Hp Hq. split; [|by apply set_wall_at_wf].
  destruct (decide (p = q)) as [<-|Hne].
  - by apply (is_wall_at_set_same cfg).
  - by apply (is_wall_at_set_other cfg).
Qed.

Lemma set_wall_then_is_wall_witness :
  is_wall_at (set_wall_at (Maze_new config_2x2) (at_xy 1 0) true) (at_xy 1 0) = true.
Proof.
  destruct (set_wall_then_is_wall config_2x2 (Maze_new config_2x2)
              (at_xy 1 0) (at_xy 1 0) true) as [Hread _].
  - split; [reflexivity|]. repeat constructor.
  - reflexivity.
  - reflexivity.
  - rewrite Hread. reflexivity.
Defined.

Lemma length_all_cells cfg :
  length (all_cells cfg)
  = (Z.to_nat (MAZE_HEIGHT cfg) * Z.to_nat (MAZE_WIDTH cfg))%nat.
Proof.
  unfold all_cells. rewrite <- (length_seqZ 0 (MAZE_HEIGHT cfg)).
  induction (seqZ 0 (MAZE_HEIGHT cfg)) as [|r rows IH]; [done|].
  rewrite bind_cons, length_app, IH, length_fmap, length_seqZ. simpl. lia.
Qed.

Lemma fold_append_length {A} (f : A → string) (l : list A) (acc : string) :
  (∀ p, String.length (f p) = 1%nat) →
  String.length (fold_left (λ repr p, repr +:+ f p) l acc)
  = (String.length acc + length l)%nat.
Proof.
  intros Hone. revert acc. induction l as [|p l IH]; intros acc; simpl; [lia|].
  rewrite IH, string_length_append, Hone. lia.
Qed.

Lemma is_wall_at_lookup m (y x : nat) row v :
  wall_grid m !! y = Some row → row !! x = Some v →
  is_wall_at m (at_xy (Z.of_nat x) (Z.of_nat y)) = v.
Proof.
  intros Hrow Hv. unfold is_wall_at, grid_get, at_xy. simpl.
  by rewrite !Nat2Z.id, Hrow, Hv.
Qed.

(** Two well-formed layouts that agree on every cell of the grid are the
    same layout. *)
Lemma maze_wf_ext cfg m1 m2 :
  maze_wf cfg m1 → maze_wf cfg m2 →
  (∀ p, is_within_bounds cfg p = true → is_wall_at m1 p = is_wall_at m2 p) →
  m1 = m2.
Proof.
  intros [Hlen1 Hrows1] [Hlen2 Hrows2] Hcells.
  destruct m1 as [g1], m2 as [g2]. simpl in *. f_equal.
  apply list_eq_same_length with (Z.to_nat (MAZE_HEIGHT cfg)); [done|done|].
  intros y row1 row2 Hy Hrow1 Hrow2.
  pose proof (Forall_lookup_1 _ _ _ _ Hrows1 Hrow1) as Hw1.
  pose proof (Forall_lookup_1 _ _ _ _ Hrows2 Hrow2) as Hw2.
  simpl in Hw1, Hw2.
  apply list_eq_same_length with (Z.to_nat (MAZE_WIDTH cfg)); [done|done|].
  intros x v1 v2 Hx Hv1 Hv2.
  rewrite <- (is_wall_at_lookup {| wall_grid := g1 |} y x row1 v1 Hrow1 Hv1).
  rewrite <- (is_wall_at_lookup {| wall_grid := g2 |} y x row2 v2 Hrow2 Hv2).
  apply Hcells. apply is_within_bounds_spec. simpl. lia.
Qed.

(** X2.  The canonical key has one character for each cell of the grid, and
    two well-formed layouts have the same key only if they are the same
    layout. *)
Theorem canonical_key_identifies_layout cfg m1 m2 :
  maze_wf cfg m1 → maze_wf cfg m2 →
  String.length (to_string_representation cfg m1)
  = (Z.to_nat (MAZE_HEIGHT cfg) * Z.to_nat (MAZE_WIDTH cfg))%nat
  ∧ (to_string_representation cfg m1 = to_string_representation cfg m2 ↔ m1 = m2).
Proof.
  intros Hwf1 Hwf2. split.
  - unfold to_string_representation. rewrite fold_append_length, length_all_cells.
    + done.
    + intros p. by destruct (is_wall_at m1 p).
  - split; [|by intros ->]. intros Hkey.
    apply (maze_wf_ext cfg); [done|done|].
    intros p Hp. by apply (to_string_representation_cells cfg).
Qed.

Lemma canonical_key_identifies_layout_witness :
  String.length (to_string_representation config_2x2 (Maze_new config_2x2)) = 4%nat.
Proof.
  destruct (canonical_key_identifies_layout config_2x2
              (Maze_new config_2x2) (Maze_new config_2x2)) as [Hlen _].
  - split; [reflexivity|]. repeat constructor.
  - split; [reflexivity|]. repeat constructor.
  - exact Hlen.
Defined.

(* ===================================================================== *)
(** * The connectivity check is complete *)
(* ===================================================================== *)

Lemma grid_get_true_lookup (g : list (list bool)) p :
  grid_get false g p = true →
  ∃ row w, g !! Z.to_nat (coordinate_y p) = Some row
           ∧ row !! Z.to_nat (coordinate_x p) = Some w.
Proof.
  unfold grid_get.
  destruct (g !! Z.to_nat (coordinate_y p)) as [row|] eqn:Hrow; [|done].
  destruct (row !! Z.to_nat (coordinate_x p)) as [w|] eqn:Hw; [|done].
  intros _. by exists row, w.
Qed.

(** Marking a cell leaves every marked cell marked. *)
Lemma grid_set_true_mono (g : list (list bool)) t p :
  grid_get false g p = true → grid_get false (grid_set g t true) p = true.
Proof.
  intros Hp.
  destruct (decide (Z.to_nat (coordinate_y t) = Z.to_nat (coordinate_y p)))
    as [Hy|Hy];
    [destruct (decide (Z.to_nat (coordinate_x t) = Z.to_nat (coordinate_x p)))
       as [Hx|Hx]|].
  - apply grid_get_set_same; [done|done|].
    rewrite Hy, Hx. by apply grid_get_true_lookup.
  - rewrite grid_get_set_other; [done|by right].
  - rewrite grid_get_set_other; [done|by left].
Qed.

Lemma grid_get_replicate_false h w p :
  grid_get false (replicate h (replicate w false)) p = false.
Proof.
  unfold grid_get.
  destruct (replicate h (replicate w false) !! _) as [row|] eqn:Hrow; [|done].
  apply lookup_replicate in Hrow as [-> _].
  destruct (replicate w false !! _) as [v|] eqn:Hv; [|done].
  by apply lookup_replicate in Hv as [-> _].
Qed.

Section TraversalComplete.
Variables (cfg : Config) (m : Maze).

Lemma bfs_visit_marks cur q visited d q' visited' :
  grid_dims (Z.to_nat (MAZE_HEIGHT cfg)) (Z.to_nat (MAZE_WIDTH cfg)) visited →
  bfs_visit cfg m cur (q, visited) d = (q', visited') →
  (∀ p, grid_get false visited p = true → grid_get false visited' p = true)
  ∧ (∀ p, p ∈ q → p ∈ q')
  ∧ (∀ p, is_within_bounds cfg p = true → grid_get false visited' p = true →
          grid_get false visited p = true ∨ p ∈ q')
  ∧ (open_cell cfg m (Point_add cur (delta d)) →
     grid_get false visited' (Point_add cur (delta d)) = true).
Proof.
  intros Hdims. unfold bfs_visit, open_cell.
  set (t := Point_add cur (delta d)).
  destruct (is_within_bounds cfg t) eqn:Hin; simpl;
    [|intros [= <- <-]; split_and!; [done|done|auto|by intros [? _]]].
  destruct (grid_get false visited t) eqn:Hv; simpl;
    [intros [= <- <-]; split_and!; [done|done|auto|done]|].
  destruct (is_wall_at m t) eqn:Hwall; simpl; intros [= <- <-];
    [split_and!; [done|done|auto|by intros [_ ?]]|].
  split_and!.
  - intros p Hp. by apply grid_set_true_mono.
  - intros p Hp. apply elem_of_app. by left.
  - intros p Hp Hmarked. destruct (decide (t = p)) as [<-|Hne].
    + right. apply elem_of_app. right. left.
    + left. rewrite grid_get_set_other in Hmarked; [done|].
      by apply (in_bounds_distinct cfg).
  - intros _. apply grid_get_set_same; [done|done|].
    apply is_within_bounds_nat in Hin as [? ?]. by eapply grid_dims_lookup.
Qed.

Lemma bfs_fold_marks cur ds q visited q' visited' :
  grid_dims (Z.to_nat (MAZE_HEIGHT cfg)) (Z.to_nat (MAZE_WIDTH cfg)) visited →
  fold_left (bfs_visit cfg m cur) ds (q, visited) = (q', visited') →
  (∀ p, grid_get false visited p = true → grid_get false visited' p = true)
  ∧ (∀ p, p ∈ q → p ∈ q')
  ∧ (∀ p, is_within_bounds cfg p = true → grid_get false visited' p = true →
          grid_get false visited p = true ∨ p ∈ q')
  ∧ (∀ d, d ∈ ds → open_cell cfg m (Point_add cur (delta d)) →
          grid_get false visited' (Point_add cur (delta d)) = true).
Proof.
  revert q visited. induction ds as [|d ds IH]; intros q visited Hdims.
  - intros [= <- <-]. split_and!; [done|done|auto|]. by intros d ?%elem_of_nil.
  - cbn [fold_left].
    destruct (bfs_visit cfg m cur (q, visited) d) as [q1 v1] eqn:Hstep.
    destruct (bfs_visit_measure cfg m _ _ _ _ _ _ Hdims Hstep) as [Hdims1 _].
    destruct (bfs_visit_marks _ _ _ _ _ _ Hdims Hstep) as (Hm1 & Hq1 & Hn1 & Hc1).
    intros Hfold.
    destruct (IH _ _ Hdims1 Hfold) as (Hm2 & Hq2 & Hn2 & Hc2).
    split_and!.
    + auto.
    + auto.
    + intros p Hp Hmarked. destruct (Hn2 p Hp Hmarked) as [Hv1|?]; [|by right].
      destruct (Hn1 p Hp Hv1) as [?|?]; [by left|right; auto].
    + intros d' [->|Hd']%elem_of_cons Hopen; [|by apply Hc2].
      apply Hm2. by apply Hc1.
Qed.

(** Everything connected to the start over open cells gets processed
    before the queue runs empty. *)
Lemma bfs_inv_closed processed visited p :
  bfs_inv cfg m processed [] visited →
  config_wf cfg →
  connected cfg m START_POINT p → p ∈ processed.
Proof.
  intros (_ & Hmarked & _ & Hclosed & Hstart) [Hw Hh] Hconn.
  assert (∀ r, is_within_bounds cfg r = true →
               grid_get false visited r = true → r ∈ processed) as Hin.
  { intros r Hr Hv. destruct (Hmarked r Hr Hv) as [?|?%elem_of_nil]; done. }
  induction Hconn as [Hopen|q r Hconn IH (d & Hd & ->) Hopen].
  - apply Hin; [|done]. apply is_within_bounds_spec. simpl. lia.
  - apply Hin; [by destruct Hopen|]. by apply Hclosed.
Qed.

Lemma bfs_loop_complete fuel processed q visited b :
  config_wf cfg →
  connected cfg m START_POINT (FINISH_POINT cfg) →
  bfs_inv cfg m processed q visited →
  bfs_loop cfg m fuel q visited = Some b → b = true.
Proof.
  intros Hcfg Hconn. revert processed q visited.
  induction fuel as [|fuel IH]; intros processed q visited Hinv; [done|].
  cbn [bfs_loop]. destruct q as [|cur q].
  - intros _. pose proof (bfs_inv_closed _ _ _ Hinv Hcfg Hconn) as Hfin.
    by destruct Hinv as (_ & _ & Hnot & _).
  - destruct (Point_eqb cur (FINISH_POINT cfg)) eqn:Hcur; [by intros [= <-]|].
    destruct (fold_left _ _ _) as [q2 v2] eqn:Hfold.
    destruct Hinv as (Hdims & Hmarked & Hnot & Hclosed & Hstart).
    destruct (bfs_fold_measure cfg m _ _ _ _ _ _ Hdims Hfold) as [Hdims2 _].
    destruct (bfs_fold_marks _ _ _ _ _ _ Hdims Hfold) as (Hmono & Hq & Hnew & Hcover).
    apply (IH (cur :: processed)). split_and!.
    + done.
    + intros p Hp Hv. destruct (Hnew p Hp Hv) as [Hold|?]; [|by right].
      destruct (Hmarked p Hp Hold) as [?|[->|?]%elem_of_cons].
      * left. by right.
      * left. left.
      * right. by apply Hq.
    + intros [Heq|?]%elem_of_cons; [|done].
      rewrite <- Heq in Hcur.
      assert (Point_eqb (FINISH_POINT cfg) (FINISH_POINT cfg) = true)
        by (by apply Point_eqb_eq).
      congruence.
    + intros p d [->|Hp]%elem_of_cons Hd Hopen.
      * by apply Hcover.
      * apply Hmono. by apply Hclosed.
    + by apply Hmono.
Qed.
End TraversalComplete.

(** The traversal finds the finish whenever a path leads there. *)
Lemma has_path_to_finish_complete cfg m :
  config_wf cfg →
  connected cfg m START_POINT (FINISH_POINT cfg) →
  has_path_to_finish cfg m = true.
Proof.
  intros Hcfg Hconn.
  pose proof (has_path_to_finish_run_total cfg m) as Hrun.
  unfold has_path_to_finish_run in Hrun.
  assert (open_cell cfg m START_POINT ∧ open_cell cfg m (FINISH_POINT cfg))
    as [[Hsin Hs] [Hfin Hf]].
  { clear Hrun. induction Hconn as [?|q r Hconn IH _ Hopen]; [done|].
    by destruct IH. }
  rewrite Hs, Hf in Hrun. simpl in Hrun.
  eapply (bfs_loop_complete cfg m _ []); [done|done| |exact Hrun].
  split_and!.
  - apply grid_set_dims, replicate_grid_dims.
  - intros p Hp Hv. right. destruct (decide (START_POINT = p)) as [<-|Hne]; [left|].
    rewrite grid_get_set_other in Hv by (by apply (in_bounds_distinct cfg)).
    by rewrite grid_get_replicate_false in Hv.
  - by intros ?%elem_of_nil.
  - by intros p d ?%elem_of_nil.
  - apply grid_get_set_same; [done|done|].
    apply is_within_bounds_nat in Hsin as [? ?].
    eapply grid_dims_lookup; [apply replicate_grid_dims|done|done].
Qed.

(** X3.  [Maze::has_path_to_finish] answers true exactly when a four-connected
    path of open cells inside the grid leads from the start to the
    finish. *)
Theorem has_path_to_finish_iff_connected cfg m :
  config_wf cfg →
  has_path_to_finish cfg m = true ↔
  connected cfg m START_POINT (FINISH_POINT cfg).
Proof.
  intros Hcfg. split.
  - intros Hpath. by destruct (has_path_to_finish_sound cfg m Hcfg Hpath) as (_ & _ & ?).
  - by apply has_path_to_finish_complete.
Qed.

Lemma has_path_to_finish_iff_connected_witness :
  has_path_to_finish config_2x2 (Maze_new config_2x2) = true ↔
  connected config_2x2 (Maze_new config_2x2) START_POINT (FINISH_POINT config_2x2).
Proof.
  apply (has_path_to_finish_iff_connected config_2x2 (Maze_new config_2x2)).
  split; reflexivity.
Defined.

(* ===================================================================== *)
(** * The walk: what the score can be *)
(* ===================================================================== *)

Lemma walk_reaches_step_left cfg st st1 st2 :
  not_at_finish cfg (pos st) = true →
  loop_body cfg st = Continue st1 →
  walk_reaches cfg st1 st2 → walk_reaches cfg st st2.
Proof.
  intros Hgo Hbody Hreach. induction Hreach as [|st2 st3 Hreach IH Hgo2 Hbody2].
  - eapply walk_reaches_step; [apply walk_reaches_here|done|done].
  - by eapply walk_reaches_step.
Qed.

(** The state in which the loop ends, whichever way it ends. *)
Lemma walk_loop_ends cfg fuel st z n :
  walk_loop cfg fuel st = Some (z, n) →
  ∃ st', walk_reaches cfg st st'
         ∧ ((not_at_finish cfg (pos st') = false ∧ z = steps st')
            ∨ (not_at_finish cfg (pos st') = true ∧ loop_body cfg st' = Return z)).
Proof.
  revert st z n. induction fuel as [|fuel IH]; intros st z n; [done|].
  cbn [walk_loop]. destruct (not_at_finish cfg (pos st)) eqn:Hgo.
  - destruct (loop_body cfg st) as [score|st1] eqn:Hbody.
    + intros [= <- <-]. exists st. split; [apply walk_reaches_here|by right].
    + destruct (walk_loop cfg fuel st1) as [[z1 n1]|] eqn:Hrec; [|done].
      simpl. intros [= <- <-].
      destruct (IH _ _ _ Hrec) as (st' & Hreach & Hend).
      exists st'. split; [by eapply walk_reaches_step_left|done].
  - intros [= <- <-]. exists st. split; [apply walk_reaches_here|by left].
Qed.

Lemma delta_of_ALL d :
  d ∈ Directions.ALL →
  (coordinate_x (delta d) = 0 ∧ (coordinate_y (delta d) = 1 ∨ coordinate_y (delta d) = -1))
  ∨ (coordinate_y (delta d) = 0 ∧ (coordinate_x (delta d) = 1 ∨ coordinate_x (delta d) = -1)).
Proof.
  unfold Directions.ALL. rewrite !elem_of_cons, elem_of_nil.
  intros [->|[->|[->|[->|[]]]]]; simpl; lia.
Qed.

(** Every move of the walk is a move to one of the four neighbours. *)
Lemma loop_body_moves cfg st st' :
  loop_body cfg st = Continue st' →
  ∃ d, d ∈ Directions.ALL
       ∧ eligible cfg (visit_counts st) (pos st) d
       ∧ pos st' = Point_add (pos st) (delta d).
Proof.
  unfold loop_body. destruct (step_budget cfg <? steps st); [done|].
  pose proof (best_dirs_of_eligible cfg (visit_counts st) (pos st)) as Hel.
  pose proof (best_dirs_of_sublist cfg (visit_counts st) (pos st)) as Hsub.
  destruct (best_dirs_of cfg (visit_counts st) (pos st)) as [|d l]; [done|].
  intros [= <-]. simpl.
  destruct (choose_direction_target (last_dir st) d l) as (x & Hx & ->).
  exists x. rewrite Forall_forall in Hel.
  split_and!; [by eapply elem_of_sublist|by apply Hel|done].
Qed.

Lemma walk_manhattan cfg st st' :
  walk_reaches cfg st st' →
  coordinate_x (pos st') + coordinate_y (pos st') - steps st'
  <= coordinate_x (pos st) + coordinate_y (pos st) - steps st.
Proof.
  induction 1 as [|st1 st2 Hreach IH Hgo Hbody]; [lia|].
  destruct (loop_body_moves cfg _ _ Hbody) as (d & Hd & _ & Hpos).
  destruct (loop_body_steps cfg _ _ Hbody) as [_ Hsteps].
  rewrite Hpos, Hsteps. simpl.
  destruct (delta_of_ALL d Hd) as [[-> [-> | ->]]|[-> [-> | ->]]]; lia.
Qed.

(** X4.  A score that is a step count is at least the distance from the start
    to the finish, [(W - 1) + (H - 1)]: the agent moves one cell at a
    step. *)
Theorem score_at_least_distance cfg m :
  0 <= calculate_score cfg m →
  (MAZE_WIDTH cfg - 1) + (MAZE_HEIGHT cfg - 1) <= calculate_score cfg m.
Proof.
  intros Hscore.
  destruct (calculate_score_run_total cfg m) as [n Hrun].
  unfold calculate_score_run in Hrun.
  rewrite has_path_to_finish_run_total in Hrun.
  destruct (has_path_to_finish cfg m); [|injection Hrun as Hz _; lia].
  apply walk_loop_ends in Hrun as (st' & Hreach & [[Hfin Hz]|[_ Hret]]).
  - apply walk_manhattan in Hreach. simpl in Hreach.
    unfold not_at_finish in Hfin.
    apply orb_false_iff in Hfin as [Hx%negb_false_iff%Z.eqb_eq Hy%negb_false_iff%Z.eqb_eq].
    lia.
  - apply loop_body_return in Hret as [[Hz _]|[Hz _]]; lia.
Qed.

Lemma score_at_least_distance_witness :
  2 <= calculate_score config_2x2 (Maze_new config_2x2).
Proof.
  apply (score_at_least_distance config_2x2 (Maze_new config_2x2)).
  vm_compute. discriminate.
Defined.

(** ** A walk that starts on a connected layout is never stuck *)

Lemma connected_first_step cfg m p r :
  connected cfg m p r →
  p = r ∨ ∃ d, d ∈ Directions.ALL ∧ open_cell cfg m (Point_add p (delta d)).
Proof.
  induction 1 as [?|q r Hconn IH (d & Hd & ->) Hopen]; [by left|].
  destruct IH as [->|?]; [|by right]. right. eauto.
Qed.

Lemma step_back d p :
  d ∈ Directions.ALL →
  ∃ back, back ∈ Directions.ALL
          ∧ Point_add (Point_add p (delta d)) (delta back) = p.
Proof.
  unfold Directions.ALL. rewrite !elem_of_cons, elem_of_nil.
  destruct p as [x y].
  intros [->|[->|[->|[->|[]]]]];
    [exists Directions.DOWN|exists Directions.UP
    |exists Directions.RIGHT|exists Directions.LEFT];
    (split; [unfold Directions.ALL; rewrite !elem_of_cons; tauto|]);
    unfold Point_add; simpl; f_equal; lia.
Qed.

Lemma eligible_gives_tie_set cfg m st d :
  walk_inv cfg m st →
  d ∈ Directions.ALL → eligible cfg (visit_counts st) (pos st) d →
  best_dirs_of cfg (visit_counts st) (pos st) ≠ [].
Proof.
  intros Hinv Hd Hel. unfold best_dirs_of.
  destruct (scan_fold_inv cfg (visit_counts st) (pos st) Directions.ALL [] (-1, []))
    as [(_ & _ & Hnone)|(_ & Hne & _)].
  - intros y. by apply (walk_inv_nonneg cfg m).
  - left. split_and!; [done|done|]. by intros y ?%elem_of_nil.
  - destruct (Hnone d); [by rewrite app_nil_l|done].
  - done.
Qed.

Lemma open_cell_eligible cfg m st d :
  walk_inv cfg m st → open_cell cfg m (Point_add (pos st) (delta d)) →
  eligible cfg (visit_counts st) (pos st) d.
Proof.
  intros (_ & Hcounts & _) [Hin Hopen]. split; [done|].
  specialize (Hcounts _ Hin). rewrite Hopen in Hcounts. lia.
Qed.

(** Wherever the walk stands short of the finish, some neighbour is
    eligible: at the start the second cell of a path to the finish, later
    the cell the agent came from. *)
Lemma walk_never_stuck cfg m st :
  config_wf cfg →
  connected cfg m START_POINT (FINISH_POINT cfg) →
  walk_reaches cfg (init_state cfg m) st →
  not_at_finish cfg (pos st) = true →
  best_dirs_of cfg (visit_counts st) (pos st) ≠ [].
Proof.
  intros Hcfg Hconn Hreach Hgo.
  assert (is_wall_at m START_POINT = false) as Hstart.
  { clear Hreach Hgo. assert (open_cell cfg m START_POINT) as [_ ?]; [|done].
    induction Hconn; auto. }
  pose proof (walk_inv_init cfg m Hcfg Hstart) as Hinit.
  pose proof (walk_inv_reaches cfg m _ _ Hinit Hreach) as Hinv.
  destruct Hreach as [|st1 st2 Hreach Hgo1 Hbody].
  - destruct (connected_first_step cfg m _ _ Hconn) as [Heq|(d & Hd & Hopen)].
    + exfalso. simpl in Hgo. rewrite Heq in Hgo. unfold not_at_finish in Hgo.
      simpl in Hgo. by rewrite !Z.eqb_refl in Hgo.
    + eapply eligible_gives_tie_set; [done|done|].
      by eapply open_cell_eligible.
  - pose proof (walk_inv_reaches cfg m _ _ Hinit Hreach) as Hinv1.
    destruct (loop_body_moves cfg _ _ Hbody) as (d & Hd & _ & Hpos).
    destruct (step_back d (pos st1) Hd) as (back & Hback & Hreturn).
    eapply eligible_gives_tie_set; [done|exact Hback|].
    eapply open_cell_eligible; [done|].
    rewrite Hpos, Hreturn. by destruct Hinv1 as (_ & _ & ?).
Qed.

(** X5.  The simulator returns -1 exactly when the connectivity check fails:
    on a layout that passes the check the walk always finds a neighbour to
    move to, so that the [return -1] inside the loop is never reached and
    the result is -2 or a step count. *)
Theorem score_minus_one_iff_no_path cfg m :
  config_wf cfg →
  calculate_score cfg m = -1 ↔ has_path_to_finish cfg m = false.
Proof.
  intros Hcfg.
  destruct (calculate_score_run_total cfg m) as [n Hrun].
  unfold calculate_score_run in Hrun.
  rewrite has_path_to_finish_run_total in Hrun.
  destruct (has_path_to_finish cfg m) eqn:Hpath.
  - split; [|done]. intros Hscore. exfalso.
    destruct (has_path_to_finish_sound cfg m Hcfg Hpath) as (_ & _ & Hconn).
    apply walk_loop_ends in Hrun as (st' & Hreach & [[Hfin Hz]|[Hgo Hret]]).
    + apply walk_manhattan in Hreach. simpl in Hreach.
      unfold not_at_finish in Hfin.
      apply orb_false_iff in Hfin
        as [Hx%negb_false_iff%Z.eqb_eq Hy%negb_false_iff%Z.eqb_eq].
      destruct Hcfg. lia.
    + apply loop_body_return in Hret as [[Hz _]|(_ & _ & Hstuck)]; [lia|].
      by destruct (walk_never_stuck cfg m st' Hcfg Hconn Hreach Hgo).
  - split; [done|]. intros _. injection Hrun as Hz _. done.
Qed.

Lemma score_minus_one_iff_no_path_witness :
  calculate_score config_2x2 (Maze_new config_2x2) ≠ -1.
Proof.
  intros Hscore.
  apply (score_minus_one_iff_no_path config_2x2 (Maze_new config_2x2)) in Hscore.
  - vm_compute in Hscore. discriminate.
  - split; reflexivity.
Defined.

(** ** The score is a function of the canonical key *)

Section SameCells.
Variables (cfg : Config) (m1 m2 : Maze).
Hypothesis Hcells :
  ∀ p, is_within_bounds cfg p = true → is_wall_at m1 p = is_wall_at m2 p.

Lemma bfs_visit_same_cells cur acc d :
  bfs_visit cfg m1 cur acc d = bfs_visit cfg m2 cur acc d.
Proof.
  destruct acc as [q visited]. unfold bfs_visit.
  destruct (is_within_bounds cfg (Point_add cur (delta d))) eqn:Hin; [|done].
  by rewrite (Hcells _ Hin).
Qed.

Lemma bfs_fold_same_cells cur ds acc :
  fold_left (bfs_visit cfg m1 cur) ds acc = fold_left (bfs_visit cfg m2 cur) ds acc.
Proof.
  revert acc. induction ds as [|d ds IH]; intros acc; [done|].
  cbn [fold_left]. by rewrite bfs_visit_same_cells, IH.
Qed.

Lemma bfs_loop_same_cells fuel q visited :
  bfs_loop cfg m1 fuel q visited = bfs_loop cfg m2 fuel q visited.
Proof.
  revert q visited. induction fuel as [|fuel IH]; intros q visited; [done|].
  cbn [bfs_loop]. destruct q as [|cur q]; [done|].
  destruct (Point_eqb cur (FINISH_POINT cfg)); [done|].
  rewrite bfs_fold_same_cells.
  destruct (fold_left _ _ _) as [q2 v2]. apply IH.
Qed.

Lemma init_visit_counts_same_cells :
  init_visit_counts cfg m1 = init_visit_counts cfg m2.
Proof.
  unfold init_visit_counts.
  apply list_fmap_ext. intros i r Hr%lookup_seqZ.
  apply list_fmap_ext. intros j c Hc%lookup_seqZ.
  rewrite Hcells; [done|]. apply is_within_bounds_spec. simpl. lia.
Qed.

Lemma calculate_score_same_cells :
  config_wf cfg → calculate_score cfg m1 = calculate_score cfg m2.
Proof.
  intros [Hw Hh]. unfold calculate_score, calculate_score_run, has_path_to_finish_run.
  rewrite (Hcells START_POINT) by (apply is_within_bounds_spec; simpl; lia).
  rewrite (Hcells (FINISH_POINT cfg)) by (apply is_within_bounds_spec; simpl; lia).
  rewrite bfs_loop_same_cells.
  unfold init_state. by rewrite init_visit_counts_same_cells.
Qed.
End SameCells.

Lemma calculate_score_same_key cfg m1 m2 :
  config_wf cfg →
  to_string_representation cfg m1 = to_string_representation cfg m2 →
  calculate_score cfg m1 = calculate_score cfg m2.
Proof.
  intros Hcfg Hkey. apply calculate_score_same_cells; [|done].
  intros p Hp. by apply (to_string_representation_cells cfg).
Qed.

(* ===================================================================== *)
(** * The searches: what a run keeps *)
(* ===================================================================== *)

Lemma base_grows_refl b : base_grows b b.
Proof. by unfold base_grows. Qed.

Lemma base_grows_trans b1 b2 b3 :
  base_grows b1 b2 → base_grows b2 b3 → base_grows b1 b3.
Proof.
  intros (? & ? & ?) (? & ? & ?). split_and!; [by etrans|by etrans|lia].
Qed.

Lemma frontier_ok_grows cfg b b' frontier :
  base_grows b b' → frontier_ok cfg b frontier → frontier_ok cfg b' frontier.
Proof.
  intros (Hv & _ & Hh) (Hscored & Hle & Hin & Hnodup). split_and!; [done| | |done].
  - eapply Forall_impl; [exact Hle|]. simpl. intros; lia.
  - eapply Forall_impl; [exact Hin|]. simpl. intros e He. by apply Hv.
Qed.

Lemma frontier_ok_perm cfg b pq pq' :
  pq ≡ₚ pq' → frontier_ok cfg b pq → frontier_ok cfg b pq'.
Proof. unfold frontier_ok. by intros ->. Qed.

Lemma Maze_new_is_wall_at cfg p : is_wall_at (Maze_new cfg) p = false.
Proof. apply grid_get_replicate_false. Qed.

Lemma Maze_new_valid cfg : valid_layout cfg (Maze_new cfg).
Proof. split_and!; [apply Maze_new_wf|apply Maze_new_is_wall_at..]. Qed.

Lemma set_wall_at_valid cfg m p :
  valid_layout cfg m →
  is_within_bounds cfg p = true → is_placeable cfg m p = true →
  valid_layout cfg (set_wall_at m p true).
Proof.
  intros (Hwf & Hs & Hf) Hin Hplace.
  destruct (set_wall_at_same_ends cfg m p Hin Hplace) as [Hs' Hf'].
  split_and!; [by apply set_wall_at_wf|congruence|congruence].
Qed.

(** ** The base under the operations of [SolverBase] *)

Lemma get_score_for_maze_ok cfg b maze :
  config_wf cfg → base_ok cfg b →
  fst (get_score_for_maze cfg b maze) = calculate_score cfg maze
  ∧ base_ok cfg (snd (get_score_for_maze cfg b maze))
  ∧ base_grows b (snd (get_score_for_maze cfg b maze)).
Proof.
  intros Hcfg (Hcache & Hcalls & Hrecords). unfold get_score_for_maze.
  destruct (score_cache_ b !! to_string_representation cfg maze) as [cached|] eqn:Hhit;
    simpl.
  - split_and!; [by apply Hcache|done|apply base_grows_refl].
  - split_and!; [done| |].
    + split_and!; simpl; [|by rewrite map_size_insert_None, Hcalls|done].
      intros maze' score. simpl.
      destruct (decide (to_string_representation cfg maze
                        = to_string_representation cfg maze')) as [Heq|Hne].
      * rewrite <- Heq, lookup_insert_eq. intros [= <-].
        by apply calculate_score_same_key.
      * rewrite lookup_insert_ne by done. apply Hcache.
    + split_and!; simpl; [done|by apply insert_subseteq|lia].
Qed.

Lemma update_record_ok cfg b maze score :
  base_ok cfg b → scored cfg (maze, score) →
  base_ok cfg (update_record b maze score)
  ∧ base_grows b (update_record b maze score)
  ∧ score <= highest_known_score_ (update_record b maze score).
Proof.
  intros (Hcache & Hcalls & Hrecords) Hscored. unfold update_record.
  destruct (highest_known_score_ b <? score) eqn:Hlt.
  - apply Z.ltb_lt in Hlt. split_and!; simpl; [|split_and!; simpl; [done|done|lia]|lia].
    split_and!; simpl; [done|done|].
    apply Forall_app. split; [done|by apply Forall_singleton].
  - apply Z.ltb_ge in Hlt. split_and!; [done|apply base_grows_refl|lia].
Qed.

Lemma mark_visited_ok cfg b repr :
  (base_ok cfg b → base_ok cfg (mark_visited repr b))
  ∧ base_grows b (mark_visited repr b).
Proof.
  split; [done|]. split_and!; simpl; [|done|lia].
  intros key Hkey. by apply elem_of_union_r.
Qed.

Lemma print_if_ok cfg b cond line :
  (base_ok cfg b → base_ok cfg (print_if cond line b))
  ∧ base_grows b (print_if cond line b)
  ∧ globally_visited_layouts_ (print_if cond line b) = globally_visited_layouts_ b
  ∧ highest_known_score_ (print_if cond line b) = highest_known_score_ b.
Proof. destruct cond; split_and!; try done; apply base_grows_refl. Qed.

Lemma constructor_ok cfg :
  config_wf cfg →
  base_ok cfg (SolverBase_new cfg)
  ∧ highest_known_score_ (SolverBase_new cfg) = calculate_score cfg (Maze_new cfg).
Proof.
  intros Hcfg. unfold SolverBase_new.
  assert (base_ok cfg fresh_members) as Hfresh.
  { split_and!; [|done|constructor]. intros maze score. simpl.
    by rewrite lookup_empty. }
  destruct (get_score_for_maze_ok cfg fresh_members (Maze_new cfg) Hcfg Hfresh)
    as (Hscore & (Hcache & Hcalls & Hrecords) & _).
  assert (records (snd (get_score_for_maze cfg fresh_members (Maze_new cfg))) = [])
    as Hnone by (by destruct (get_score_for_maze_base cfg fresh_members (Maze_new cfg))
                      as (-> & _)).
  destruct (get_score_for_maze cfg fresh_members (Maze_new cfg)) as [score b].
  simpl in *. subst score. split; [|done].
  split_and!; simpl; [done|done|]. rewrite Hnone. simpl.
  apply Forall_singleton. split; [apply Maze_new_valid|done].
Qed.

(** ** The generator keeps what walling a cell keeps *)

Section GeneratorKeeps.
Variables (cfg : Config) (globally_visited : gset string) (P : Maze → Prop).
Hypothesis P_wall :
  ∀ m p, is_within_bounds cfg p = true → is_placeable cfg m p = true →
         P m → P (set_wall_at m p true).

Lemma expand_cell_keeps current_maze depth candidates q local p
    candidates' q' local' :
  is_within_bounds cfg p = true → P current_maze →
  Forall P candidates → Forall (λ e, P (fst e)) q →
  expand_cell cfg globally_visited current_maze depth (candidates, q, local) p
  = (candidates', q', local') →
  Forall P candidates' ∧ Forall (λ e, P (fst e)) q'.
Proof.
  intros Hin Hcur Hcands Hq. unfold expand_cell.
  destruct (is_placeable cfg current_maze p) eqn:Hplace; [|by intros [= <- <- <-]].
  pose proof (P_wall _ _ Hin Hplace Hcur) as Hnext.
  destruct (decide (_ ∈ local)); [by intros [= <- <- <-]|].
  destruct (decide (_ ∈ globally_visited)); intros [= <- <- <-].
  - split; [done|]. apply Forall_app. split; [done|by apply Forall_singleton].
  - split; apply Forall_app; (split; [done|by apply Forall_singleton]).
Qed.

Lemma expand_fold_keeps current_maze depth cells candidates q local
    candidates' q' local' :
  Forall (λ p, is_within_bounds cfg p = true) cells → P current_maze →
  Forall P candidates → Forall (λ e, P (fst e)) q →
  fold_left (expand_cell cfg globally_visited current_maze depth) cells
            (candidates, q, local) = (candidates', q', local') →
  Forall P candidates' ∧ Forall (λ e, P (fst e)) q'.
Proof.
  intros Hcells Hcur. revert candidates q local.
  induction Hcells as [|p cells Hp Hcells IH]; intros candidates q local Hc Hq.
  - by intros [= <- <- <-].
  - cbn [fold_left].
    destruct (expand_cell cfg globally_visited current_maze depth
                (candidates, q, local) p) as [[c1 q1] l1] eqn:Hstep.
    destruct (expand_cell_keeps _ _ _ _ _ _ _ _ _ Hp Hcur Hc Hq Hstep).
    by apply IH.
Qed.

Lemma generate_loop_keeps jump_depth fuel candidates q local result :
  Forall P candidates → Forall (λ e, P (fst e)) q →
  generate_loop cfg globally_visited jump_depth fuel candidates q local
  = Some result →
  Forall P result.
Proof.
  revert candidates q local.
  induction fuel as [|fuel IH]; intros candidates q local Hc Hq; [done|].
  cbn [generate_loop]. destruct q as [|[current_maze depth] rest].
  - by intros [= <-].
  - apply Forall_cons in Hq as [Hcur Hq]. simpl in Hcur.
    destruct (jump_depth <=? depth); [by apply IH|].
    destruct (fold_left _ _ _) as [[c1 q1] l1] eqn:Hfold.
    eapply expand_fold_keeps in Hfold as [? ?]; [by apply IH| |done|done|done].
    apply Forall_forall. intros p. by rewrite elem_of_all_cells.
Qed.
End GeneratorKeeps.

Lemma generate_unique_candidates_keeps cfg b base jump_depth (P : Maze → Prop) :
  (∀ m p, is_within_bounds cfg p = true → is_placeable cfg m p = true →
          P m → P (set_wall_at m p true)) →
  P base →
  Forall P (generate_unique_candidates cfg b base jump_depth).
Proof.
  intros HP Hbase.
  pose proof (generate_unique_candidates_run_total cfg b base jump_depth) as Hrun.
  unfold generate_unique_candidates_run in Hrun.
  eapply generate_loop_keeps in Hrun; [done|done|constructor|].
  by apply Forall_singleton.
Qed.

(** X7.  The generator at any depth, the depth of the deep jump included: it
    returns, and what it returns is never the base layout, never a layout
    of a visited key, never two layouts of one key; every candidate keeps
    all the walls of the base layout, and is a valid layout when the base
    layout is. *)
Theorem generator_any_depth cfg b base jump_depth :
  generate_unique_candidates_run cfg b base jump_depth
  = Some (generate_unique_candidates cfg b base jump_depth)
  ∧ NoDup (to_string_representation cfg
             <$> generate_unique_candidates cfg b base jump_depth)
  ∧ (∀ c, c ∈ generate_unique_candidates cfg b base jump_depth →
          c ≠ base
          ∧ (to_string_representation cfg c ∉ globally_visited_layouts_ b)
          ∧ (∀ p, is_wall_at base p = true → is_wall_at c p = true)
          ∧ (valid_layout cfg base → valid_layout cfg c)).
Proof.
  destruct (generate_unique_candidates_spec cfg b base jump_depth) as [Hnodup Hc].
  split_and!; [apply generate_unique_candidates_run_total|done|].
  intros c Hin. destruct (Hc c Hin) as (Hnew & Hne & _).
  split_and!; [by intros ->|done| |].
  - assert (Forall (λ c, ∀ p, is_wall_at base p = true → is_wall_at c p = true)
                   (generate_unique_candidates cfg b base jump_depth)) as Hwalls.
    { apply generate_unique_candidates_keeps; [|done].
      intros m p _ _ Hm q Hq. by apply grid_set_true_mono, Hm. }
    rewrite Forall_forall in Hwalls. by apply Hwalls.
  - intros Hvalid.
    assert (Forall (valid_layout cfg)
                   (generate_unique_candidates cfg b base jump_depth)) as Hall.
    { apply generate_unique_candidates_keeps; [|done].
      intros m p Hp Hplace Hm. by apply set_wall_at_valid. }
    rewrite Forall_forall in Hall. by apply Hall.
Qed.

(** ** Depth 1: the single-wall neighbours *)

Lemma generate_loop_drain cfg globally_visited jump_depth fuel candidates q local result :
  Forall (λ e, jump_depth <= snd e) q →
  generate_loop cfg globally_visited jump_depth fuel candidates q local = Some result →
  result = candidates.
Proof.
  revert q. induction fuel as [|fuel IH]; intros q Hq; [done|].
  cbn [generate_loop]. destruct q as [|[current_maze depth] rest]; [by intros [= <-]|].
  apply Forall_cons in Hq as [Hdepth Hq]. simpl in Hdepth.
  destruct (jump_depth <=? depth) eqn:Hle; [by apply IH|].
  apply Z.leb_gt in Hle. lia.
Qed.

Lemma expand_fold_depth_one cfg globally_visited base cells candidates q local :
  NoDup ((λ p, to_string_representation cfg (set_wall_at base p true))
           <$> filter (λ p, is_placeable cfg base p = true) cells) →
  (∀ p, p ∈ cells → is_placeable cfg base p = true →
        to_string_representation cfg (set_wall_at base p true) ∉ local) →
  Forall (λ e, 1 <= snd e) q →
  ∃ q' local',
    fold_left (expand_cell cfg globally_visited base 0) cells (candidates, q, local)
    = (candidates
         ++ filter (λ c, to_string_representation cfg c ∉ globally_visited)
              ((λ p, set_wall_at base p true)
                 <$> filter (λ p, is_placeable cfg base p = true) cells),
       q', local')
    ∧ Forall (λ e, 1 <= snd e) q'.
Proof.
  revert candidates q local.
  induction cells as [|p cells IH]; intros candidates q local Hnodup Hfresh Hq.
  - exists q, local. simpl. by rewrite app_nil_r.
  - cbn [fold_left]. unfold expand_cell at 2.
    destruct (is_placeable cfg base p) eqn:Hplace.
    + rewrite filter_cons_True in * by done.
      rewrite fmap_cons in *. apply NoDup_cons in Hnodup as [Hp Hnodup].
      rewrite decide_False by (apply Hfresh; [left|done]).
      set (c := set_wall_at base p true) in *.
      destruct (IH (if decide (to_string_representation cfg c ∈ globally_visited)
                    then candidates else candidates ++ [c])
                   (q ++ [(c, 0 + 1)])
                   ({[to_string_representation cfg c]} ∪ local))
        as (q' & local' & -> & Hq'); [done| | |].
      * intros p' Hp' Hplace' [Heq%elem_of_singleton|Hin]%elem_of_union.
        -- apply Hp. rewrite <- Heq.
           apply (list_elem_of_fmap_2
                    (λ p, to_string_representation cfg (set_wall_at base p true))).
           by apply list_elem_of_filter.
        -- by apply (Hfresh p'); [right|..].
      * apply Forall_app. split; [done|]. apply Forall_singleton. simpl. lia.
      * exists q', local'. split; [|done]. f_equal. f_equal.
        destruct (decide (to_string_representation cfg c ∈ globally_visited)).
        -- by rewrite filter_cons_False by (by intros Hn; apply Hn).
        -- rewrite filter_cons_True by done. by rewrite <- app_assoc.
    + rewrite filter_cons_False in * by (by rewrite Hplace).
      by apply IH; [|intros p' Hp'; apply Hfresh; right|].
Qed.

Lemma generate_unique_candidates_depth_one cfg b base :
  maze_wf cfg base →
  generate_unique_candidates cfg b base 1
  = filter (λ c, to_string_representation cfg c ∉ globally_visited_layouts_ b)
      ((λ p, set_wall_at base p true) <$> placeable_cells cfg base).
Proof.
  intros Hwf.
  pose proof (generate_unique_candidates_run_total cfg b base 1) as Hrun.
  unfold generate_unique_candidates_run, generate_fuel in Hrun.
  cbn [generate_loop] in Hrun. change (1 <=? 0) with false in Hrun. cbv iota in Hrun.
  destruct (expand_fold_depth_one cfg (globally_visited_layouts_ b) base
              (all_cells cfg) [] [] {[to_string_representation cfg base]})
    as (q' & local' & Hfold & Hq').
  - by apply NoDup_candidate_keys.
  - intros p Hp Hplace Heq%elem_of_singleton.
    apply elem_of_all_cells in Hp.
    pose proof (to_string_representation_cells _ _ _ p Heq Hp) as Hcell.
    rewrite (is_wall_at_set_same cfg base p true Hwf Hp) in Hcell.
    apply is_placeable_spec in Hplace as (_ & _ & Hopen). congruence.
  - constructor.
  - rewrite Hfold in Hrun. rewrite app_nil_l in Hrun.
    by apply generate_loop_drain in Hrun.
Qed.

(** X8.  With depth 1 the generator returns exactly the layouts that add one
    wall to the base layout on a cell that may be walled, in the order of
    the cells, less those whose key is in the visited set. *)
Theorem generator_depth_one_neighbours cfg b base :
  maze_wf cfg base →
  generate_unique_candidates cfg b base 1
  = filter (λ c, to_string_representation cfg c ∉ globally_visited_layouts_ b)
      ((λ p, set_wall_at base p true) <$> placeable_cells cfg base).
Proof. apply generate_unique_candidates_depth_one. Qed.

Lemma generator_depth_one_neighbours_witness :
  length (generate_unique_candidates config_2x2 fresh_members (Maze_new config_2x2) 1)
  = 2%nat.
Proof.
  rewrite (generator_depth_one_neighbours config_2x2 fresh_members
             (Maze_new config_2x2)).
  - vm_compute. reflexivity.
  - split; [reflexivity|]. repeat constructor.
Defined.

(** ** Greedy-Backtrack *)

Lemma evaluate_candidate_ok cfg state b acc c :
  config_wf cfg → base_ok cfg b → valid_layout cfg c →
  ∃ b1 new,
    evaluate_candidate cfg state (b, acc) c = (b1, acc ++ new)
    ∧ base_ok cfg b1 ∧ base_grows b b1
    ∧ globally_visited_layouts_ b1 = globally_visited_layouts_ b
    ∧ highest_known_score_ b1 = highest_known_score_ b
    ∧ Forall (scored cfg) new
    ∧ fst <$> new `sublist_of` [c].
Proof.
  intros Hcfg Hb Hc. unfold evaluate_candidate.
  destruct (get_score_for_maze_ok cfg b c Hcfg Hb) as (Hscore & Hok & Hgrows).
  destruct (get_score_for_maze_base cfg b c) as (_ & Hh & Hv & _).
  destruct (get_score_for_maze cfg b c) as [score b1]. simpl in *.
  destruct (snd state <? score).
  - exists b1, [(c, score)].
    split_and!; [done|done|done|done|done|by apply Forall_singleton|done].
  - exists b1, []. rewrite app_nil_r.
    split_and!; [done|done|done|done|done|done|apply sublist_nil_l].
Qed.

Lemma evaluate_fold_ok cfg state candidates b acc :
  config_wf cfg → base_ok cfg b → Forall (valid_layout cfg) candidates →
  ∃ b' new,
    fold_left (evaluate_candidate cfg state) candidates (b, acc) = (b', acc ++ new)
    ∧ base_ok cfg b' ∧ base_grows b b'
    ∧ globally_visited_layouts_ b' = globally_visited_layouts_ b
    ∧ highest_known_score_ b' = highest_known_score_ b
    ∧ Forall (scored cfg) new
    ∧ fst <$> new `sublist_of` candidates.
Proof.
  intros Hcfg. revert b acc.
  induction candidates as [|c candidates IH]; intros b acc Hb Hvalid.
  - exists b, []. rewrite app_nil_r.
    split_and!; try done.
  - apply Forall_cons in Hvalid as [Hc Hvalid]. cbn [fold_left].
    destruct (evaluate_candidate_ok cfg state b acc c Hcfg Hb Hc)
      as (b1 & new1 & -> & Hb1 & Hg1 & Hv1 & Hh1 & Hs1 & Hsub1).
    destruct (IH b1 (acc ++ new1) Hb1 Hvalid)
      as (b' & new & -> & Hb' & Hg' & Hv' & Hh' & Hs' & Hsub').
    exists b', (new1 ++ new). rewrite app_assoc.
    split_and!; [done|done|by eapply base_grows_trans|congruence|congruence| |].
    + by apply Forall_app.
    + rewrite fmap_app. change (c :: candidates) with ([c] ++ candidates).
      by apply sublist_app.
Qed.

Lemma push_fold_ok cfg improvements g :
  base_ok cfg (greedy_base g) →
  frontier_ok cfg (greedy_base g) (states_to_explore_stack_ g) →
  Forall (scored cfg) improvements →
  NoDup ((λ e, to_string_representation cfg (fst e)) <$> improvements) →
  (∀ e, e ∈ improvements →
        to_string_representation cfg (fst e)
          ∉ globally_visited_layouts_ (greedy_base g)) →
  base_ok cfg (greedy_base (fold_left (push_improvement cfg) improvements g))
  ∧ base_grows (greedy_base g)
      (greedy_base (fold_left (push_improvement cfg) improvements g))
  ∧ frontier_ok cfg
      (greedy_base (fold_left (push_improvement cfg) improvements g))
      (states_to_explore_stack_ (fold_left (push_improvement cfg) improvements g)).
Proof.
  revert g. induction improvements as [|s improvements IH];
    intros g Hb Hf Hscored Hnodup Hnew.
  - simpl. split_and!; [done|apply base_grows_refl|done].
  - cbn [fold_left].
    apply Forall_cons in Hscored as [Hs Hscored].
    rewrite fmap_cons in Hnodup. apply NoDup_cons in Hnodup as [Hfresh Hnodup].
    destruct (update_record_ok cfg (greedy_base g) (fst s) (snd s) Hb)
      as (Hb1 & Hg1 & Hle1); [by destruct s|].
    destruct (mark_visited_ok cfg
                (update_record (greedy_base g) (fst s) (snd s))
                (to_string_representation cfg (fst s))) as [Hb2 Hg2].
    assert (base_grows (greedy_base g) (greedy_base (push_improvement cfg g s)))
      as Hgrows by (by eapply base_grows_trans).
    destruct (IH (push_improvement cfg g s)) as (Hb' & Hg' & Hf').
    + by apply Hb2.
    + pose proof (frontier_ok_grows cfg _ _ _ Hgrows Hf) as (Hsc & Hle & Hin & Hnd).
      unfold push_improvement at 2. cbn [states_to_explore_stack_].
      split_and!.
      * by constructor.
      * constructor; [|done]. unfold push_improvement. simpl. lia.
      * constructor; [|done]. unfold push_improvement. simpl.
        by apply elem_of_union_l, elem_of_singleton.
      * rewrite fmap_cons. apply NoDup_cons. split; [|done].
        intros (e & Heq & He)%list_elem_of_fmap.
        destruct Hf as (_ & _ & Hin0 & _). rewrite Forall_forall in Hin0.
        apply (Hnew s); [left|]. rewrite Heq. by apply Hin0.
    + done.
    + done.
    + intros e He. unfold push_improvement. simpl.
      destruct (update_record_base (greedy_base g) (fst s) (snd s)) as (-> & _).
      intros [Heq%elem_of_singleton|Hin]%elem_of_union.
      * apply Hfresh. rewrite <- Heq.
        by apply (list_elem_of_fmap_2 (λ e, to_string_representation cfg (fst e))).
      * by apply (Hnew e); [right|].
    + split_and!; [done|by eapply base_grows_trans|done].
Qed.

Lemma with_base_frontier_ok cfg b g :
  globally_visited_layouts_ b = globally_visited_layouts_ (greedy_base g) →
  highest_known_score_ b = highest_known_score_ (greedy_base g) →
  frontier_ok cfg (greedy_base g) (states_to_explore_stack_ g) →
  frontier_ok cfg b (states_to_explore_stack_ g).
Proof. unfold frontier_ok. by intros -> ->. Qed.

Lemma find_and_push_ok {sorter : Sorter} cfg g state depth :
  config_wf cfg →
  base_ok cfg (greedy_base g) →
  frontier_ok cfg (greedy_base g) (states_to_explore_stack_ g) →
  valid_layout cfg (fst state) →
  base_ok cfg (greedy_base (snd (find_and_push_potential_next_states cfg g state depth)))
  ∧ base_grows (greedy_base g)
      (greedy_base (snd (find_and_push_potential_next_states cfg g state depth)))
  ∧ frontier_ok cfg
      (greedy_base (snd (find_and_push_potential_next_states cfg g state depth)))
      (states_to_explore_stack_
         (snd (find_and_push_potential_next_states cfg g state depth))).
Proof.
  intros Hcfg Hb Hf Hvalid. unfold find_and_push_potential_next_states.
  destruct (generate_unique_candidates_spec cfg (greedy_base g) (fst state) depth)
    as (Hnodup & Hcands).
  pose proof (generate_unique_candidates_keeps cfg (greedy_base g) (fst state)
                depth (valid_layout cfg)
                (λ m p Hp Hplace Hm, set_wall_at_valid cfg m p Hm Hp Hplace)
                Hvalid) as Hvalids.
  destruct (generate_unique_candidates cfg (greedy_base g) (fst state) depth)
    as [|c candidates] eqn:Hgen; [split_and!; [done|apply base_grows_refl|done]|].
  unfold evaluate_and_process_candidates.
  set (b0 := print_if (1 <? depth) (EvaluatingNewStates (length (c :: candidates)))
                      (greedy_base g)).
  destruct (print_if_ok cfg (greedy_base g) (1 <? depth)
              (EvaluatingNewStates (length (c :: candidates))))
    as (Hb0 & Hg0 & Hv0 & Hh0). fold b0 in Hb0, Hg0, Hv0, Hh0.
  destruct (evaluate_fold_ok cfg state (c :: candidates) b0 [] Hcfg (Hb0 Hb))
    as (b1 & improvements & -> & Hb1 & Hg1 & Hv1 & Hh1 & Hscored & Hsub).
  { done. }
  rewrite app_nil_l.
  set (b2 := print_if (1 <? depth) _ b1).
  destruct (print_if_ok cfg b1 (1 <? depth)
              (match improvements with
               | [] => JumpUnsuccessful
               | _ => JumpSuccessful (length improvements)
               end)) as (Hb2 & Hg2 & Hv2 & Hh2). fold b2 in Hb2, Hg2, Hv2, Hh2.
  assert (base_grows (greedy_base g) b2) as Hgrows.
  { eapply base_grows_trans; [exact Hg0|]. by eapply base_grows_trans. }
  assert (frontier_ok cfg b2 (states_to_explore_stack_ g)) as Hf2
    by (by eapply frontier_ok_grows).
  destruct improvements as [|s improvements]; simpl.
  - split_and!; [by apply Hb2|done|done].
  - destruct (push_fold_ok cfg (sort (s :: improvements)) (with_base b2 g))
      as (Hb' & Hg' & Hf').
    + by apply Hb2.
    + done.
    + by rewrite sort_perm.
    + rewrite sort_perm.
      replace ((λ e : SolverState, to_string_representation cfg (fst e))
                 <$> s :: improvements)
        with (to_string_representation cfg <$> (fst <$> s :: improvements))
        by (by rewrite <- list_fmap_compose).
      pose proof (fmap_sublist (to_string_representation cfg) _ _ Hsub) as Hkeys.
      by eapply sublist_NoDup.
    + intros e He. rewrite sort_perm in He. simpl.
      rewrite Hv2, Hv1, Hv0. apply Hcands.
      eapply elem_of_sublist; [|exact Hsub].
      by apply (list_elem_of_fmap_2 fst).
    + split_and!; [done|by eapply base_grows_trans|done].
Qed.

Lemma greedy_iter_ok {sorter : Sorter} cfg g g' :
  config_wf cfg →
  base_ok cfg (greedy_base g) →
  frontier_ok cfg (greedy_base g) (states_to_explore_stack_ g) →
  greedy_iter cfg g = Some g' →
  base_ok cfg (greedy_base g')
  ∧ base_grows (greedy_base g) (greedy_base g')
  ∧ frontier_ok cfg (greedy_base g') (states_to_explore_stack_ g').
Proof.
  intros Hcfg Hb Hf. unfold greedy_iter.
  destruct (states_to_explore_stack_ g) as [|current rest]; [done|].
  set (g0 := {| greedy_base := greedy_base g; states_to_explore_stack_ := rest |}).
  destruct Hf as (Hscored & Hle & Hin & Hnodup).
  apply Forall_cons in Hscored as [[Hvalid _] Hscored].
  apply Forall_cons in Hle as [_ Hle]. apply Forall_cons in Hin as [_ Hin].
  rewrite fmap_cons in Hnodup. apply NoDup_cons in Hnodup as [_ Hnodup].
  assert (frontier_ok cfg (greedy_base g0) (states_to_explore_stack_ g0)) as Hf0
    by done.
  destruct (find_and_push_ok cfg g0 current 1 Hcfg Hb Hf0 Hvalid)
    as (Hb1 & Hg1 & Hf1).
  destruct (find_and_push_potential_next_states cfg g0 current 1) as [found g1].
  simpl in Hb1, Hg1, Hf1.
  destruct (negb found && (1 <? DEEP_JUMP_DEPTH cfg)); intros [= <-]; [|done].
  set (g2 := with_base (print_line DeadEndFound (greedy_base g1)) g1).
  destruct (find_and_push_ok cfg g2 current (DEEP_JUMP_DEPTH cfg) Hcfg)
    as (Hb3 & Hg3 & Hf3); [done|done|done|].
  split_and!; [done| |done].
  eapply base_grows_trans; [exact Hg1|exact Hg3].
Qed.

Lemma greedy_loop_ok {sorter : Sorter} cfg n g :
  config_wf cfg →
  base_ok cfg (greedy_base g) →
  frontier_ok cfg (greedy_base g) (states_to_explore_stack_ g) →
  base_ok cfg (greedy_base (greedy_loop cfg n g))
  ∧ base_grows (greedy_base g) (greedy_base (greedy_loop cfg n g))
  ∧ frontier_ok cfg (greedy_base (greedy_loop cfg n g))
      (states_to_explore_stack_ (greedy_loop cfg n g)).
Proof.
  intros Hcfg. revert g. induction n as [|n IH]; intros g Hb Hf.
  - split_and!; [done|apply base_grows_refl|done].
  - cbn [greedy_loop]. destruct (greedy_iter cfg g) as [g'|] eqn:Hiter.
    + destruct (greedy_iter_ok cfg g g' Hcfg Hb Hf Hiter) as (Hb' & Hg' & Hf').
      destruct (IH g' Hb' Hf') as (? & ? & ?).
      split_and!; [done|by eapply base_grows_trans|done].
    + split_and!; [done|apply base_grows_refl|done].
Qed.

Lemma start_ok cfg :
  config_wf cfg →
  base_ok cfg (mark_visited (to_string_representation cfg (Maze_new cfg))
                 (SolverBase_new cfg))
  ∧ frontier_ok cfg
      (mark_visited (to_string_representation cfg (Maze_new cfg)) (SolverBase_new cfg))
      [(Maze_new cfg, highest_known_score_ (SolverBase_new cfg))].
Proof.
  intros Hcfg. destruct (constructor_ok cfg Hcfg) as [Hb Hh].
  split; [done|]. split_and!.
  - apply Forall_singleton. split; [apply Maze_new_valid|done].
  - apply Forall_singleton. simpl. lia.
  - apply Forall_singleton. simpl. by apply elem_of_union_l, elem_of_singleton.
  - simpl. apply NoDup_singleton.
Qed.

(** ** Best-First *)

Lemma best_first_start_ok `{Shuffler G} {Q} {queue : PriorityQueue Q} cfg (seed : G) :
  config_wf cfg →
  base_ok cfg (best_first_base (best_first_start cfg seed))
  ∧ frontier_ok cfg (best_first_base (best_first_start cfg seed))
      (pq_entries (pq_ (best_first_start cfg seed))).
Proof.
  intros Hcfg. destruct (start_ok cfg Hcfg) as [Hb Hf]. split; [done|].
  unfold best_first_start. cbn [best_first_base pq_].
  eapply frontier_ok_perm; [|exact Hf].
  by rewrite pq_entries_push, pq_entries_empty.
Qed.

Lemma best_first_visit_step_ok {Q} {queue : PriorityQueue Q} cfg current_maze p b pq :
  config_wf cfg → valid_layout cfg current_maze →
  is_within_bounds cfg p = true → is_placeable cfg current_maze p = true →
  base_ok cfg b → frontier_ok cfg b (pq_entries pq) →
  base_ok cfg (fst (best_first_visit cfg current_maze (b, pq) p))
  ∧ base_grows b (fst (best_first_visit cfg current_maze (b, pq) p))
  ∧ frontier_ok cfg (fst (best_first_visit cfg current_maze (b, pq) p))
                    (pq_entries (snd (best_first_visit cfg current_maze (b, pq) p))).
Proof.
  intros Hcfg Hcur Hp Hplace Hb Hf. unfold best_first_visit.
  set (c := set_wall_at current_maze p true).
  destruct (decide (to_string_representation cfg c ∈ globally_visited_layouts_ b))
    as [|Hnew]; [split_and!; [done|apply base_grows_refl|done]|].
  destruct (get_score_for_maze_ok cfg b c Hcfg Hb) as (Hscore & Hb1 & Hg1).
  destruct (get_score_for_maze cfg b c) as [score b1]. simpl in Hscore, Hb1, Hg1.
  assert (scored cfg (c, score)) as Hsc
    by (split; [by apply set_wall_at_valid|done]).
  destruct (update_record_ok cfg b1 c score Hb1 Hsc) as (Hb2 & Hg2 & Hle2).
  destruct (mark_visited_ok cfg (update_record b1 c score)
              (to_string_representation cfg c)) as [Hb3 Hg3].
  assert (base_grows b (mark_visited (to_string_representation cfg c)
                          (update_record b1 c score))) as Hgrows.
  { eapply base_grows_trans; [exact Hg1|]. by eapply base_grows_trans. }
  cbn [fst snd]. split_and!; [by apply Hb3|done|].
  pose proof (frontier_ok_grows cfg _ _ _ Hgrows Hf) as (Hs & Hl & Hi & Hn).
  apply (frontier_ok_perm cfg _ ((c, score) :: pq_entries pq));
    [symmetry; apply pq_entries_push|].
  split_and!.
  - by constructor.
  - constructor; [simpl; lia|done].
  - constructor; [|done]. simpl. by apply elem_of_union_l, elem_of_singleton.
  - rewrite fmap_cons. apply NoDup_cons. split; [|done]. simpl.
    intros (e & Heq & He)%list_elem_of_fmap.
    destruct Hf as (_ & _ & Hin0 & _). rewrite Forall_forall in Hin0.
    apply Hnew. rewrite Heq. by apply Hin0.
Qed.

Lemma best_first_visit_ok {Q} {queue : PriorityQueue Q} cfg current_maze cells b pq :
  config_wf cfg → valid_layout cfg current_maze →
  Forall (λ p, is_within_bounds cfg p = true
               ∧ is_placeable cfg current_maze p = true) cells →
  base_ok cfg b → frontier_ok cfg b (pq_entries pq) →
  base_ok cfg (fst (fold_left (best_first_visit cfg current_maze) cells (b, pq)))
  ∧ base_grows b (fst (fold_left (best_first_visit cfg current_maze) cells (b, pq)))
  ∧ frontier_ok cfg
      (fst (fold_left (best_first_visit cfg current_maze) cells (b, pq)))
      (pq_entries (snd (fold_left (best_first_visit cfg current_maze) cells (b, pq)))).
Proof.
  intros Hcfg Hcur Hcells. revert b pq.
  induction Hcells as [|p cells [Hp Hplace] Hcells IH]; intros b pq Hb Hf.
  - split_and!; [done|apply base_grows_refl|done].
  - cbn [fold_left].
    destruct (best_first_visit_step_ok cfg current_maze p b pq Hcfg Hcur Hp Hplace Hb Hf)
      as (Hb1 & Hg1 & Hf1).
    destruct (best_first_visit cfg current_maze (b, pq) p) as [b1 pq1].
    simpl in Hb1, Hg1, Hf1.
    destruct (IH b1 pq1 Hb1 Hf1) as (? & ? & ?).
    split_and!; [done|by eapply base_grows_trans|done].
Qed.

Lemma best_first_loop_ok `{Shuffler G} {Q} {queue : PriorityQueue Q}
    cfg n (s : BestFirstSolver G Q) :
  config_wf cfg →
  base_ok cfg (best_first_base s) →
  frontier_ok cfg (best_first_base s) (pq_entries (pq_ s)) →
  base_ok cfg (best_first_base (best_first_loop cfg n s))
  ∧ base_grows (best_first_base s) (best_first_base (best_first_loop cfg n s))
  ∧ frontier_ok cfg (best_first_base (best_first_loop cfg n s))
      (pq_entries (pq_ (best_first_loop cfg n s))).
Proof.
  intros Hcfg. revert s. induction n as [|n IH]; intros s Hb Hf.
  - split_and!; [done|apply base_grows_refl|done].
  - cbn [best_first_loop]. unfold best_first_iter.
    destruct (pq_pop (pq_ s)) as [[current rest]|] eqn:Hpop;
      [|split_and!; [done|apply base_grows_refl|done]].
    apply pq_pop_Some in Hpop as [Hperm _].
    apply (frontier_ok_perm cfg _ _ _ Hperm) in Hf.
    destruct Hf as (Hscored & Hle & Hin & Hnodup).
    apply Forall_cons in Hscored as [[Hvalid _] Hscored].
    apply Forall_cons in Hle as [_ Hle]. apply Forall_cons in Hin as [_ Hin].
    rewrite fmap_cons in Hnodup. apply NoDup_cons in Hnodup as [_ Hnodup].
    pose proof (visiting_order_perm cfg (rng_ s) (fst current)) as Horder.
    destruct (visiting_order cfg (rng_ s) (fst current)) as [order rng'].
    simpl in Horder.
    destruct (best_first_visit_ok cfg (fst current) order (best_first_base s) rest)
      as (Hb' & Hg' & Hf'); [done|done| |done|done|].
    { apply Forall_forall. intros p Hp. rewrite Horder in Hp.
      by apply elem_of_placeable_cells. }
    destruct (fold_left _ _ _) as [b pq'] eqn:Hfold. simpl in Hb', Hg', Hf'.
    destruct (IH {| best_first_base := b; pq_ := pq'; rng_ := rng' |})
      as (? & ? & ?); [done|done|].
    split_and!; [done|by eapply base_grows_trans|done].
Qed.

(** ** One iteration of Greedy-Backtrack *)

Lemma may_be_walled_placeable cfg m p :
  may_be_walled cfg m p ↔ p ∈ placeable_cells cfg m.
Proof.
  unfold may_be_walled. rewrite elem_of_placeable_cells, is_placeable_spec. tauto.
Qed.

(** The depth-1 candidates are what the generator returns at depth 1. *)
Lemma depth_one_candidate_generated cfg b m c :
  maze_wf cfg m →
  c ∈ generate_unique_candidates cfg b m 1
  ↔ depth_one_candidate cfg (globally_visited_layouts_ b) m c.
Proof.
  intros Hwf. rewrite generate_unique_candidates_depth_one by done.
  unfold depth_one_candidate, single_wall_neighbour.
  rewrite list_elem_of_filter, list_elem_of_fmap. split.
  - intros [Hnew (p & -> & Hp)]. split; [|done].
    exists p. by rewrite may_be_walled_placeable.
  - intros [(p & Hp & ->) Hnew]. split; [done|].
    exists p. by rewrite <- may_be_walled_placeable.
Qed.

Lemma generate_unique_candidates_visited cfg b b' base jump_depth :
  globally_visited_layouts_ b = globally_visited_layouts_ b' →
  generate_unique_candidates cfg b base jump_depth
  = generate_unique_candidates cfg b' base jump_depth.
Proof.
  intros Heq. unfold generate_unique_candidates, generate_unique_candidates_run.
  by rewrite Heq.
Qed.

(** The scoring loop collects, in the order of the candidates, those whose
    score is strictly above the score of the entry, each with its
    score. *)
Lemma evaluate_fold_exact cfg state candidates b acc :
  config_wf cfg → base_ok cfg b →
  ∃ b',
    fold_left (evaluate_candidate cfg state) candidates (b, acc)
    = (b', acc ++ (with_score cfg
                     <$> filter (λ c, snd state < calculate_score cfg c) candidates))
    ∧ base_ok cfg b'
    ∧ globally_visited_layouts_ b' = globally_visited_layouts_ b
    ∧ console b' = console b.
Proof.
  intros Hcfg. revert b acc.
  induction candidates as [|c candidates IH]; intros b acc Hb.
  - exists b. simpl. by rewrite app_nil_r.
  - cbn [fold_left]. unfold evaluate_candidate at 2.
    destruct (get_score_for_maze_ok cfg b c Hcfg Hb) as (Hscore & Hok & _).
    destruct (get_score_for_maze_base cfg b c) as (_ & _ & Hv & Hc).
    destruct (get_score_for_maze cfg b c) as [score b1]. simpl in *. subst score.
    destruct (snd state <? calculate_score cfg c) eqn:Hlt.
    + apply Z.ltb_lt in Hlt. rewrite filter_cons_True by done.
      destruct (IH b1 (acc ++ [(c, calculate_score cfg c)]) Hok)
        as (b' & -> & Hb' & Hv' & Hc').
      exists b'. rewrite fmap_cons, <- app_assoc.
      split_and!; [done|done|congruence|congruence].
    + apply Z.ltb_ge in Hlt. rewrite filter_cons_False by lia.
      destruct (IH b1 acc Hok) as (b' & -> & Hb' & Hv' & Hc').
      exists b'. split_and!; [done|done|congruence|congruence].
Qed.

Lemma print_if_console cond line b :
  ∃ lines, console (print_if cond line b) = console b ++ lines
           ∧ (cond = false → lines = [])
           ∧ Forall (λ l, l = line) lines.
Proof.
  destruct cond; simpl.
  - exists [line]. split_and!; [done|done|by apply Forall_singleton].
  - exists []. by rewrite app_nil_r.
Qed.

(** What [find_and_push_potential_next_states] does at any depth: the
    candidates of strictly greater score, sorted, are pushed in order. *)
Lemma find_and_push_exact {sorter : Sorter} cfg g state depth :
  config_wf cfg → base_ok cfg (greedy_base g) →
  ∃ b1 pushed lines,
    find_and_push_potential_next_states cfg g state depth
    = (negb (bool_decide (pushed = [])),
       fold_left (push_improvement cfg) pushed (with_base b1 g))
    ∧ pushed ≡ₚ with_score cfg
                 <$> filter (λ c, snd state < calculate_score cfg c)
                       (generate_unique_candidates cfg (greedy_base g) (fst state) depth)
    ∧ StronglySorted score_le pushed
    ∧ base_ok cfg b1
    ∧ globally_visited_layouts_ b1 = globally_visited_layouts_ (greedy_base g)
    ∧ console b1 = console (greedy_base g) ++ lines
    ∧ (depth <= 1 → lines = [])
    ∧ DeadEndFound ∉ lines.
Proof.
  intros Hcfg Hb. unfold find_and_push_potential_next_states.
  destruct (generate_unique_candidates cfg (greedy_base g) (fst state) depth)
    as [|c candidates] eqn:Hgen.
  { exists (greedy_base g), [], []. rewrite app_nil_r.
    split_and!; [by destruct g|done|constructor|done|done|done|done|].
    by intros ?%elem_of_nil. }
  unfold evaluate_and_process_candidates.
  set (b0 := print_if (1 <? depth) (EvaluatingNewStates (length (c :: candidates)))
                      (greedy_base g)).
  destruct (print_if_console (1 <? depth)
              (EvaluatingNewStates (length (c :: candidates))) (greedy_base g))
    as (l0 & Hc0 & Hl0 & Hall0). fold b0 in Hc0.
  destruct (print_if_ok cfg (greedy_base g) (1 <? depth)
              (EvaluatingNewStates (length (c :: candidates))))
    as (Hb0 & _ & Hv0 & _). fold b0 in Hb0, Hv0.
  destruct (evaluate_fold_exact cfg state (c :: candidates) b0 [] Hcfg (Hb0 Hb))
    as (b1 & -> & Hb1 & Hv1 & Hc1).
  rewrite app_nil_l.
  set (improvements := with_score cfg <$> filter _ (c :: candidates)).
  set (b2 := print_if (1 <? depth) _ b1).
  destruct (print_if_console (1 <? depth)
              (match improvements with
               | [] => JumpUnsuccessful
               | _ => JumpSuccessful (length improvements)
               end) b1) as (l2 & Hc2 & Hl2 & Hall2). fold b2 in Hc2.
  destruct (print_if_ok cfg b1 (1 <? depth)
              (match improvements with
               | [] => JumpUnsuccessful
               | _ => JumpSuccessful (length improvements)
               end)) as (Hb2 & _ & Hv2 & _). fold b2 in Hb2, Hv2.
  assert (DeadEndFound ∉ l0 ++ l2) as Hnone.
  { intros [Hin|Hin]%elem_of_app.
    - rewrite Forall_forall in Hall0. by specialize (Hall0 _ Hin).
    - rewrite Forall_forall in Hall2. specialize (Hall2 _ Hin).
      by destruct improvements. }
  assert (depth <= 1 → l0 ++ l2 = []) as Hquiet.
  { intros Hd. apply Z.ltb_ge in Hd. by rewrite Hl0, Hl2. }
  destruct improvements as [|s improvements'] eqn:Himp.
  - exists b2, [], (l0 ++ l2).
    split_and!; [done|done|constructor|by apply Hb2|congruence| |done|done].
    by rewrite Hc2, Hc1, Hc0, app_assoc.
  - exists b2, (sort (s :: improvements')), (l0 ++ l2).
    assert (sort (s :: improvements') ≠ []) as Hne.
    { intros Hnil. pose proof (sort_perm (s :: improvements')) as Hperm.
      rewrite Hnil in Hperm. by apply Permutation_nil_cons in Hperm. }
    rewrite bool_decide_eq_false_2 by done.
    split_and!; [done|apply sort_perm|apply sort_sorted|by apply Hb2|congruence|
                 |done|done].
    by rewrite Hc2, Hc1, Hc0, app_assoc.
Qed.

Lemma fst_with_score cfg (l : list Maze) : fst <$> (with_score cfg <$> l) = l.
Proof. induction l as [|c l IH]; [done|]. rewrite !fmap_cons. by rewrite IH. Qed.

Lemma with_score_filter_elem cfg (P : Maze → Prop) `{∀ c, Decision (P c)}
    (candidates : list Maze) (pushed : list SolverState) :
  pushed ≡ₚ with_score cfg <$> filter P candidates →
  NoDup candidates →
  NoDup (fst <$> pushed)
  ∧ ∀ e, e ∈ pushed ↔
         fst e ∈ candidates ∧ P (fst e) ∧ snd e = calculate_score cfg (fst e).
Proof.
  intros Hperm Hnodup. split.
  - rewrite Hperm, fst_with_score. by apply NoDup_filter.
  - intros e. rewrite Hperm, list_elem_of_fmap. split.
    + intros (c & -> & [Hc Hin]%list_elem_of_filter). done.
    + intros (Hin & HP & Hscore). exists (fst e). split.
      * destruct e as [c score]. unfold with_score. simpl in *. by subst.
      * by apply list_elem_of_filter.
Qed.

(** C8.  A step of Greedy-Backtrack in a run: the [n]-th iteration pops
    [current] from the stack [current :: rest].  The entries [pushed] are
    pushed one after the other on the rest of the stack, in ascending
    order of score, and the key of each is in the visited set from the
    push on: after any number of pushes the stack holds what was pushed,
    the last on top, and the visited set has grown by exactly the keys
    pushed.  When an improving depth-1 candidate exists (a layout one
    wall away from the popped layout, of a key not visited, whose score
    is strictly above the score of the popped entry), the entries pushed
    are exactly the improving depth-1 candidates, each once and with its
    score, the entry on top is one of greatest score, and no deep jump is
    tried: the console receives record lines only.  When there is none,
    nothing is pushed if the deep-jump depth is at most 1; if it is
    greater than 1 the line "Dead end found. Attempting deep jump..." is
    printed and the entries pushed are exactly the layouts the generator
    returns at that depth from the same popped layout whose score is
    strictly above the score of the popped entry. *)
Theorem greedy_iteration {sorter : Sorter} cfg n current rest :
  config_wf cfg →
  states_to_explore_stack_ (greedy_run cfg n) = current :: rest →
  ∃ scored pushed new_lines,
    greedy_iter cfg (greedy_run cfg n) = Some (greedy_run cfg (S n))
    ∧ states_to_explore_stack_ scored = rest
    ∧ globally_visited_layouts_ (greedy_base scored)
      = globally_visited_layouts_ (greedy_base (greedy_run cfg n))
    ∧ fold_left (push_improvement cfg) pushed scored = greedy_run cfg (S n)
    ∧ (∀ pre post, pushed = pre ++ post →
         states_to_explore_stack_ (fold_left (push_improvement cfg) pre scored)
         = reverse pre ++ rest
         ∧ globally_visited_layouts_
             (greedy_base (fold_left (push_improvement cfg) pre scored))
           = keys_of cfg pre
             ∪ globally_visited_layouts_ (greedy_base (greedy_run cfg n)))
    ∧ states_to_explore_stack_ (greedy_run cfg (S n)) = reverse pushed ++ rest
    ∧ globally_visited_layouts_ (greedy_base (greedy_run cfg (S n)))
      = keys_of cfg pushed ∪ globally_visited_layouts_ (greedy_base (greedy_run cfg n))
    ∧ StronglySorted score_le pushed
    ∧ NoDup (fst <$> pushed)
    ∧ console (greedy_base (greedy_run cfg (S n)))
      = console (greedy_base (greedy_run cfg n)) ++ new_lines
    ∧ ((∃ c, improving_candidate cfg
               (globally_visited_layouts_ (greedy_base (greedy_run cfg n))) current c) →
       (∀ e, e ∈ pushed ↔
             improving_candidate cfg
               (globally_visited_layouts_ (greedy_base (greedy_run cfg n)))
               current (fst e)
             ∧ snd e = calculate_score cfg (fst e))
       ∧ (∃ top rest', states_to_explore_stack_ (greedy_run cfg (S n)) = top :: rest'
                       ∧ top ∈ pushed
                       ∧ ∀ e, e ∈ pushed → snd e <= snd top)
       ∧ Forall is_record_line new_lines)
    ∧ ((∀ c, ¬ improving_candidate cfg
                 (globally_visited_layouts_ (greedy_base (greedy_run cfg n))) current c) →
       (DEEP_JUMP_DEPTH cfg <= 1 → pushed = [] ∧ new_lines = [])
       ∧ (1 < DEEP_JUMP_DEPTH cfg →
          (∀ e, e ∈ pushed ↔
                fst e ∈ generate_unique_candidates cfg (greedy_base (greedy_run cfg n))
                          (fst current) (DEEP_JUMP_DEPTH cfg)
                ∧ snd current < calculate_score cfg (fst e)
                ∧ snd e = calculate_score cfg (fst e))
          ∧ ∃ lines, new_lines = DeadEndFound :: lines)).
Proof.
  intros Hcfg Hstack.
  destruct (start_ok cfg Hcfg) as [Hb0 Hf0].
  destruct (greedy_loop_ok cfg n (greedy_start cfg) Hcfg Hb0 Hf0) as (Hb & _ & Hf).
  fold (greedy_run cfg n) in Hb, Hf.
  assert (greedy_run cfg (S n)
          = match greedy_iter cfg (greedy_run cfg n) with
            | Some g' => g'
            | None => greedy_run cfg n
            end) as Hnext.
  { unfold greedy_run. replace (S n) with (n + 1)%nat by lia.
    rewrite greedy_loop_add. simpl. by destruct (greedy_iter _ _). }
  set (g := greedy_run cfg n) in *. rewrite Hnext. clear Hnext.
  rewrite Hstack in Hf. destruct Hf as (Hscored & _).
  apply Forall_cons in Hscored as [[(Hwf & _) _] _].
  unfold greedy_iter. rewrite Hstack.
  set (g0 := {| greedy_base := greedy_base g; states_to_explore_stack_ := rest |}).
  destruct (find_and_push_exact cfg g0 current 1 Hcfg Hb)
    as (b1 & pushed1 & lines1 & Hfp & Hperm1 & Hsorted1 & Hb1 & Hv1 & Hc1 & Hq1 & Hn1).
  rewrite Hfp. specialize (Hq1 ltac:(lia)). subst lines1. rewrite app_nil_r in Hc1.
  cbn [greedy_base g0] in Hperm1, Hv1, Hc1.
  destruct (generate_unique_candidates_spec cfg (greedy_base g) (fst current) 1)
    as [Hnodup1 _]. apply NoDup_fmap_1 in Hnodup1.
  destruct (with_score_filter_elem cfg _ _ _ Hperm1 Hnodup1) as [Hnd1 Hin1].
  assert (∀ e, e ∈ pushed1 ↔
               improving_candidate cfg (globally_visited_layouts_ (greedy_base g))
                 current (fst e)
               ∧ snd e = calculate_score cfg (fst e)) as Himp1.
  { intros e. rewrite Hin1, depth_one_candidate_generated by done.
    unfold improving_candidate. tauto. }
  destruct pushed1 as [|s pushed1].
  - (* no improving candidate *)
    rewrite bool_decide_eq_true_2 by done. cbn [negb andb fold_left].
    assert (∀ c, ¬ improving_candidate cfg (globally_visited_layouts_ (greedy_base g))
                   current c) as Hnone.
    { intros c Hc. apply (not_elem_of_nil (with_score cfg c)).
      apply Himp1. by split. }
    destruct (1 <? DEEP_JUMP_DEPTH cfg) eqn:Hdeep.
    + apply Z.ltb_lt in Hdeep.
      set (g2 := with_base (print_line DeadEndFound (greedy_base (with_base b1 g0)))
                           (with_base b1 g0)).
      destruct (find_and_push_exact cfg g2 current (DEEP_JUMP_DEPTH cfg) Hcfg)
        as (b3 & pushed & lines3 & Hfp3 & Hperm3 & Hsorted3 & Hb3 & Hv3 & Hc3 & _ & _).
      { done. }
      rewrite Hfp3. cbn [snd].
      cbn [greedy_base g2 with_base print_line globally_visited_layouts_ console]
        in Hperm3, Hv3, Hc3.
      rewrite (generate_unique_candidates_visited cfg _ (greedy_base g)) in Hperm3
        by done.
      destruct (generate_unique_candidates_spec cfg (greedy_base g) (fst current)
                  (DEEP_JUMP_DEPTH cfg)) as [Hnodup3 _].
      apply NoDup_fmap_1 in Hnodup3.
      destruct (with_score_filter_elem cfg _ _ _ Hperm3 Hnodup3) as [Hnd3 Hin3].
      destruct (push_fold_spec cfg pushed (with_base b3 g2))
        as (Hps & Hpv & lines & Hpc & _).
      exists (with_base b3 g2), pushed, (DeadEndFound :: lines3 ++ lines).
      split_and!; [done|done|by rewrite <- Hv1|done| |done| |done|done| | |].
      * intros pre post _.
        destruct (push_fold_spec cfg pre (with_base b3 g2)) as (-> & -> & _).
        split; [done|]. unfold keys_of. cbn [greedy_base with_base].
        by rewrite Hv3, Hv1.
      * rewrite Hpv. unfold keys_of. cbn [greedy_base with_base].
        by rewrite Hv3, Hv1.
      * rewrite Hpc. cbn [greedy_base with_base]. rewrite Hc3, Hc1.
        by rewrite <- !app_assoc.
      * intros [c Hc]. by destruct (Hnone c).
      * intros _. split; [lia|]. intros _. split; [|by eexists].
        intros e. rewrite Hin3. tauto.
    + apply Z.ltb_ge in Hdeep.
      exists (with_base b1 g0), [], [].
      split_and!; [done|done|done|done| |done| |constructor|constructor| | |].
      * intros pre post Hpre. symmetry in Hpre.
        apply app_eq_nil in Hpre as [-> _]. simpl. split; [done|].
        unfold keys_of. simpl. by rewrite union_empty_l_L.
      * unfold keys_of. simpl. by rewrite union_empty_l_L.
      * simpl. by rewrite app_nil_r.
      * intros [c Hc]. by destruct (Hnone c).
      * intros _. split; [done|lia].
  - (* improving candidates *)
    rewrite bool_decide_eq_false_2 by done. cbn [negb andb].
    destruct (push_fold_spec cfg (s :: pushed1) (with_base b1 g0))
      as (Hps & Hpv & lines & Hpc & Hlines).
    exists (with_base b1 g0), (s :: pushed1), lines.
    split_and!; [done|done|done|done| |done| |done|done| | |].
    + intros pre post _.
      destruct (push_fold_spec cfg pre (with_base b1 g0)) as (-> & -> & _).
      split; [done|]. unfold keys_of. cbn [greedy_base with_base]. by rewrite Hv1.
    + rewrite Hpv. unfold keys_of. cbn [greedy_base with_base]. by rewrite Hv1.
    + rewrite Hpc. cbn [greedy_base with_base]. by rewrite Hc1.
    + intros _. split_and!; [done| |done].
      destruct (sorted_top _ Hsorted1) as (top & Htop & Hin & Hmax); [done|].
      rewrite Hps. cbn [states_to_explore_stack_ with_base g0].
      destruct (reverse (s :: pushed1)) as [|top' rest'] eqn:Hrev; [done|].
      simpl in Htop. injection Htop as ->.
      exists top, (rest' ++ rest). done.
    + intros Hnone. destruct (Hnone (fst s)). apply Himp1. left.
Qed.

Lemma greedy_iteration_witness :
  ∃ top rest',
    states_to_explore_stack_ (greedy_run (sorter := insertion_sorter) config_3x3 1)
    = top :: rest'
    ∧ 4 < snd top.
Proof.
  destruct (greedy_iteration (sorter := insertion_sorter) config_3x3 0
              (Maze_new config_3x3, 4) [])
    as (scored & pushed & lines & _ & _ & _ & _ & _ & _ & _ & _ & _ & _ & Himp & _).
  - split; reflexivity.
  - vm_compute. reflexivity.
  - destruct Himp as (Hin & (top & rest' & Htop & Hmem & _) & _).
    + exists (set_wall_at (Maze_new config_3x3) (at_xy 1 2) true).
      split; [split|].
      * exists (at_xy 1 2). split; [|reflexivity].
        split_and!; [reflexivity|discriminate|discriminate|reflexivity].
      * vm_compute. discriminate.
      * vm_compute. reflexivity.
    + exists top, rest'. split; [done|].
      apply Hin in Hmem as [[_ Hlt] ->]. exact Hlt.
Defined.

(** On the 2 x 2 grid the first step finds no improving candidate, as a
    wall on either cell leaves the score at 2: the deep jump is tried, at
    depth 2, finds three layouts, none of them improving, and the stack
    is left empty. *)
Lemma greedy_deep_jump_2x2 :
  console (greedy_base (greedy_run (sorter := insertion_sorter) config_2x2 1))
  = [RecordFound 2; DeadEndFound; EvaluatingNewStates 3; JumpUnsuccessful]
  ∧ states_to_explore_stack_ (greedy_run (sorter := insertion_sorter) config_2x2 1)
    = [].
Proof. vm_compute. done. Qed.

(** ** One iteration of Best-First *)






(** ** What the runs keep *)

(** X9.  Throughout a run of Greedy-Backtrack every entry of the stack is a
    valid layout (well formed, start and finish open) paired with its own
    score, its score is at most the best-known score, its key is in the
    visited set, and no two entries have the same key: a layout enters the
    frontier once. *)
Theorem greedy_stack_entries {sorter : Sorter} cfg n :
  config_wf cfg →
  Forall (λ e, valid_layout cfg (fst e)
               ∧ snd e = calculate_score cfg (fst e)
               ∧ snd e <= highest_known_score_ (greedy_base (greedy_run cfg n))
               ∧ to_string_representation cfg (fst e)
                   ∈ globally_visited_layouts_ (greedy_base (greedy_run cfg n)))
         (states_to_explore_stack_ (greedy_run cfg n))
  ∧ NoDup ((λ e, to_string_representation cfg (fst e))
             <$> states_to_explore_stack_ (greedy_run cfg n)).
Proof.
  intros Hcfg. destruct (start_ok cfg Hcfg) as [Hb Hf].
  destruct (greedy_loop_ok cfg n (greedy_start cfg) Hcfg Hb Hf)
    as (_ & _ & Hscored & Hle & Hin & Hnodup).
  split; [|done]. fold (greedy_run cfg n) in *.
  rewrite Forall_forall in Hscored, Hle, Hin. apply Forall_forall. intros e He.
  destruct (Hscored e He). split_and!; auto.
Qed.

Lemma greedy_stack_entries_witness :
  NoDup ((λ e, to_string_representation config_2x2 (fst e))
           <$> states_to_explore_stack_
                 (greedy_run (sorter := insertion_sorter) config_2x2 1)).
Proof.
  apply (greedy_stack_entries (sorter := insertion_sorter) config_2x2 1).
  split; reflexivity.
Defined.

(** X10.  Throughout a run of Best-First, whatever the shuffle and whichever
    entry of greatest score the queue hands out, every entry of the
    priority queue is a valid layout paired with its own score, its
    score is at most the best-known score, its key is in the visited set,
    and no two entries have the same key. *)
Theorem best_first_frontier_entries `{Shuffler G} {Q} {queue : PriorityQueue Q}
    cfg (seed : G) n :
  config_wf cfg →
  Forall (λ e, valid_layout cfg (fst e)
               ∧ snd e = calculate_score cfg (fst e)
               ∧ snd e <= highest_known_score_ (best_first_base (best_first_run cfg seed n))
               ∧ to_string_representation cfg (fst e)
                   ∈ globally_visited_layouts_
                       (best_first_base (best_first_run cfg seed n)))
         (pq_entries (pq_ (best_first_run cfg seed n)))
  ∧ NoDup ((λ e, to_string_representation cfg (fst e))
             <$> pq_entries (pq_ (best_first_run cfg seed n))).
Proof.
  intros Hcfg. destruct (best_first_start_ok cfg seed Hcfg) as [Hb Hf].
  destruct (best_first_loop_ok cfg n (best_first_start cfg seed) Hcfg Hb Hf)
    as (_ & _ & Hscored & Hle & Hin & Hnodup).
  split; [|done]. fold (best_first_run cfg seed n) in *.
  rewrite Forall_forall in Hscored, Hle, Hin. apply Forall_forall. intros e He.
  destruct (Hscored e He). split_and!; auto.
Qed.

Lemma best_first_frontier_entries_witness :
  NoDup ((λ e, to_string_representation config_2x2 (fst e))
           <$> pq_entries (PriorityQueue := list_priority_queue)
                 (pq_ (best_first_run (queue := list_priority_queue)
                         config_2x2 tt 1))).
Proof.
  apply (best_first_frontier_entries (queue := list_priority_queue) config_2x2 tt 1).
  split; reflexivity.
Defined.

(** X11.  Every record a run passes to the sink is a valid layout with the
    score the simulator gives it. *)
Theorem records_are_true_scores {sorter : Sorter} cfg n :
  config_wf cfg →
  Forall (λ r, valid_layout cfg (fst r) ∧ snd r = calculate_score cfg (fst r))
         (records (greedy_base (greedy_run cfg n)))
  ∧ ∀ G (shuffler : Shuffler G) Q (queue : PriorityQueue Q) (seed : G),
      Forall (λ r, valid_layout cfg (fst r) ∧ snd r = calculate_score cfg (fst r))
             (records (best_first_base (best_first_run cfg seed n))).
Proof.
  intros Hcfg. destruct (start_ok cfg Hcfg) as [Hb Hf]. split.
  - by destruct (greedy_loop_ok cfg n (greedy_start cfg) Hcfg Hb Hf)
      as ((_ & _ & ?) & _).
  - intros G shuffler Q queue seed.
    destruct (best_first_start_ok cfg seed Hcfg) as [Hb' Hf'].
    by destruct (best_first_loop_ok cfg n (best_first_start cfg seed) Hcfg Hb' Hf')
      as ((_ & _ & ?) & _).
Qed.

Lemma records_are_true_scores_witness :
  Forall (λ r, valid_layout config_2x2 (fst r)
               ∧ snd r = calculate_score config_2x2 (fst r))
         (records (greedy_base (greedy_run (sorter := insertion_sorter) config_2x2 2))).
Proof.
  apply (records_are_true_scores (sorter := insertion_sorter) config_2x2 2).
  split; reflexivity.
Defined.

(** X12.  Over a whole run the simulator runs once for each key in the cache
    and never twice for a key, and [get_score_for_maze] returns for any
    layout the score the simulator gives it, cached or not. *)
Theorem one_simulation_for_each_key {sorter : Sorter} cfg n maze :
  config_wf cfg →
  (simulator_calls (greedy_base (greedy_run cfg n))
   = size (score_cache_ (greedy_base (greedy_run cfg n)))
   ∧ fst (get_score_for_maze cfg (greedy_base (greedy_run cfg n)) maze)
     = calculate_score cfg maze)
  ∧ ∀ G (shuffler : Shuffler G) Q (queue : PriorityQueue Q) (seed : G),
      simulator_calls (best_first_base (best_first_run cfg seed n))
      = size (score_cache_ (best_first_base (best_first_run cfg seed n)))
      ∧ fst (get_score_for_maze cfg (best_first_base (best_first_run cfg seed n)) maze)
        = calculate_score cfg maze.
Proof.
  intros Hcfg. destruct (start_ok cfg Hcfg) as [Hb Hf]. split.
  - destruct (greedy_loop_ok cfg n (greedy_start cfg) Hcfg Hb Hf) as (Hok & _).
    split; [by destruct Hok as (_ & ? & _)|].
    by destruct (get_score_for_maze_ok cfg _ maze Hcfg Hok).
  - intros G shuffler Q queue seed.
    destruct (best_first_start_ok cfg seed Hcfg) as [Hb' Hf'].
    destruct (best_first_loop_ok cfg n (best_first_start cfg seed) Hcfg Hb' Hf')
      as (Hok & _).
    split; [by destruct Hok as (_ & ? & _)|].
    by destruct (get_score_for_maze_ok cfg _ maze Hcfg Hok).
Qed.

Lemma one_simulation_for_each_key_witness :
  simulator_calls (greedy_base (greedy_run (sorter := insertion_sorter) config_2x2 2))
  = size (score_cache_
            (greedy_base (greedy_run (sorter := insertion_sorter) config_2x2 2))).
Proof.
  apply (one_simulation_for_each_key (sorter := insertion_sorter) config_2x2 2
           (Maze_new config_2x2)).
  split; reflexivity.
Defined.

(** X13.  The visited set and the cache are never shrunk and the best-known
    score never lowered: what they hold after [n] iterations they hold
    after [n + k]. *)
Theorem visited_and_cache_only_grow {sorter : Sorter} cfg n k :
  config_wf cfg →
  base_grows (greedy_base (greedy_run cfg n)) (greedy_base (greedy_run cfg (n + k)))
  ∧ ∀ G (shuffler : Shuffler G) Q (queue : PriorityQueue Q) (seed : G),
      base_grows (best_first_base (best_first_run cfg seed n))
                 (best_first_base (best_first_run cfg seed (n + k))).
Proof.
  intros Hcfg. destruct (start_ok cfg Hcfg) as [Hb Hf]. split.
  - unfold greedy_run. rewrite greedy_loop_add.
    destruct (greedy_loop_ok cfg n (greedy_start cfg) Hcfg Hb Hf) as (Hb' & _ & Hf').
    by destruct (greedy_loop_ok cfg k _ Hcfg Hb' Hf') as (_ & ? & _).
  - intros G shuffler Q queue seed. unfold best_first_run. rewrite best_first_loop_add.
    destruct (best_first_start_ok cfg seed Hcfg) as [Hb0 Hf0].
    destruct (best_first_loop_ok cfg n (best_first_start cfg seed) Hcfg Hb0 Hf0)
      as (Hb' & _ & Hf').
    by destruct (best_first_loop_ok cfg k _ Hcfg Hb' Hf') as (_ & ? & _).
Qed.

Lemma visited_and_cache_only_grow_witness :
  base_grows (greedy_base (greedy_run (sorter := insertion_sorter) config_2x2 1))
             (greedy_base (greedy_run (sorter := insertion_sorter) config_2x2 (1 + 1))).
Proof.
  apply (visited_and_cache_only_grow (sorter := insertion_sorter) config_2x2 1 1).
  split; reflexivity.
Defined.

(* ===================================================================== *)
(** * Stochastic-Hill-Climb *)
(* ===================================================================== *)

#[local] Arguments hill_visit : simpl never.

(** The greedy step: the base stays in order, and [best_next_state] ends
    as the first neighbour of greatest score if that score is above -1,
    and as it started otherwise. *)
Lemma hill_visit_fold cfg current_maze cells b best :
  config_wf cfg → base_ok cfg b → records_inv cfg b →
  ∃ b' best',
    fold_left (hill_visit cfg current_maze) cells (b, best) = (b', best')
    ∧ base_ok cfg b' ∧ records_inv cfg b'
    ∧ snd best <= snd best'
    ∧ (∀ p, p ∈ cells →
            calculate_score cfg (set_wall_at current_maze p true) <= snd best')
    ∧ (best' = best
       ∨ ∃ p, p ∈ cells
              ∧ best' = (set_wall_at current_maze p true,
                         calculate_score cfg (set_wall_at current_maze p true))
              ∧ snd best < snd best').
Proof.
  intros Hcfg. revert b best.
  induction cells as [|p cells IH]; intros b best Hb Hr.
  - exists b, best. split_and!; [done|done|done|lia| |by left].
    by intros p ?%elem_of_nil.
  - cbn [fold_left]. unfold hill_visit at 2.
    destruct (get_score_for_maze_ok cfg b (set_wall_at current_maze p true) Hcfg Hb)
      as (Hscore & Hb1 & _).
    pose proof (records_inv_get_score cfg b (set_wall_at current_maze p true) Hr)
      as Hr1.
    destruct (get_score_for_maze cfg b (set_wall_at current_maze p true))
      as [score b1]. simpl in Hscore, Hb1, Hr1. subst score.
    destruct (snd best <? calculate_score cfg (set_wall_at current_maze p true))
      eqn:Hlt.
    + apply Z.ltb_lt in Hlt.
      destruct (IH b1 (set_wall_at current_maze p true,
                       calculate_score cfg (set_wall_at current_maze p true))
                  Hb1 Hr1)
        as (b' & best' & Hfold & Hb' & Hr' & Hle & Hmax & Hbest).
      exists b', best'. simpl in Hle.
      split_and!; [done|done|done|lia| |].
      * intros q [->|Hq]%elem_of_cons; [done|by apply Hmax].
      * right. destruct Hbest as [->|(q & Hq & -> & Hlt')].
        -- exists p. split_and!; [left|done|done].
        -- exists q. split_and!; [by right|done|simpl in *; lia].
    + apply Z.ltb_ge in Hlt.
      destruct (IH b1 best Hb1 Hr1)
        as (b' & best' & Hfold & Hb' & Hr' & Hle & Hmax & Hbest).
      exists b', best'.
      split_and!; [done|done|done|done| |].
      * intros q [->|Hq]%elem_of_cons; [lia|by apply Hmax].
      * destruct Hbest as [->|(q & Hq & -> & Hlt')]; [by left|].
        right. exists q. split_and!; [by right|done|done].
Qed.

Lemma hill_adopt_ok {G} cfg b maze counter (rng : G) :
  config_wf cfg → base_ok cfg b → records_inv cfg b → valid_layout cfg maze →
  base_ok cfg (hill_base (hill_adopt cfg b maze counter rng))
  ∧ records_inv cfg (hill_base (hill_adopt cfg b maze counter rng))
  ∧ hill_current_maze (hill_adopt cfg b maze counter rng) = maze.
Proof.
  intros Hcfg Hb Hr Hvalid. unfold hill_adopt.
  destruct (get_score_for_maze_ok cfg b maze Hcfg Hb) as (Hscore & Hb1 & _).
  pose proof (records_inv_get_score cfg b maze Hr) as Hr1.
  destruct (get_score_for_maze cfg b maze) as [score b1]. simpl in *.
  split_and!; [|by apply records_inv_update_record|done].
  by apply update_record_ok.
Qed.

Lemma hill_iter_ok `{HillRandom G} cfg (s : StochasticHillClimber G) :
  config_wf cfg →
  base_ok cfg (hill_base s) → records_inv cfg (hill_base s) →
  valid_layout cfg (hill_current_maze s) →
  base_ok cfg (hill_base (hill_iter cfg s))
  ∧ records_inv cfg (hill_base (hill_iter cfg s))
  ∧ valid_layout cfg (hill_current_maze (hill_iter cfg s)).
Proof.
  intros Hcfg Hb Hr Hvalid. unfold hill_iter.
  destruct (placeable_cells cfg (hill_current_maze s)) as [|p0 cells0] eqn:Hcells.
  { simpl. split_and!; [done|done|apply Maze_new_valid]. }
  pose proof (visiting_order_perm cfg (hill_rng s) (hill_current_maze s)) as Horder.
  destruct (visiting_order cfg (hill_rng s) (hill_current_maze s)) as [cells rng1].
  simpl in Horder.
  assert (∀ p, p ∈ cells → valid_layout cfg (set_wall_at (hill_current_maze s) p true))
    as Hneighbour.
  { intros p Hp. rewrite Horder in Hp.
    apply elem_of_placeable_cells in Hp as [? ?]. by apply set_wall_at_valid. }
  destruct (draw_accept_worse rng1) as [[|] rng2].
  - destruct (draw_index rng2 (length cells)) as [index rng3].
    destruct (cells !! index) as [p|] eqn:Hp.
    + destruct (hill_adopt_ok cfg (hill_base s)
                  (set_wall_at (hill_current_maze s) p true)
                  (hill_run_counter s + 1) rng3 Hcfg Hb Hr) as (? & ? & ->).
      * apply Hneighbour. by eapply list_elem_of_lookup_2.
      * split_and!; [done|done|]. apply Hneighbour. by eapply list_elem_of_lookup_2.
    + by destruct (hill_adopt_ok cfg (hill_base s) (hill_current_maze s)
                     (hill_run_counter s + 1) rng3 Hcfg Hb Hr Hvalid) as (? & ? & ->).
  - destruct (hill_visit_fold cfg (hill_current_maze s) cells (hill_base s)
                (hill_current_maze s, -1) Hcfg Hb Hr)
      as (b' & best' & Hfold & Hb' & Hr' & Hle & Hmax & Hbest).
    unfold SolverState in *. rewrite Hfold. clear Hfold.
    destruct (snd best' =? -1) eqn:Hnone.
    + simpl. split_and!; [done|done|apply Maze_new_valid].
    + assert (valid_layout cfg (fst best')) as Hbestvalid.
      { destruct Hbest as [->|(p & Hp & -> & _)]; [done|by apply Hneighbour]. }
      by destruct (hill_adopt_ok cfg b' (fst best') (hill_run_counter s + 1) rng2
                     Hcfg Hb' Hr' Hbestvalid) as (? & ? & ->).
Qed.

(** X14.  Throughout a run of Stochastic-Hill-Climb, whatever the draws: the
    current layout is a valid layout; the scores passed to the record sink
    are strictly increasing, each the simulator's score of a valid layout;
    and the simulator has run once for each key in the cache. *)
Theorem hill_climb_keeps `{HillRandom G} cfg (seed : G) n :
  config_wf cfg →
  valid_layout cfg (hill_current_maze (hill_run cfg seed n))
  ∧ StronglySorted Z.lt (snd <$> records (hill_base (hill_run cfg seed n)))
  ∧ Forall (λ r, valid_layout cfg (fst r) ∧ snd r = calculate_score cfg (fst r))
           (records (hill_base (hill_run cfg seed n)))
  ∧ simulator_calls (hill_base (hill_run cfg seed n))
    = size (score_cache_ (hill_base (hill_run cfg seed n))).
Proof.
  intros Hcfg.
  assert (base_ok cfg (hill_base (hill_run cfg seed n))
          ∧ records_inv cfg (hill_base (hill_run cfg seed n))
          ∧ valid_layout cfg (hill_current_maze (hill_run cfg seed n)))
    as ((_ & Hcalls & Hrecords) & (_ & Hsorted & _) & Hvalid).
  { unfold hill_run. induction n as [|n (Hb & Hr & Hv)].
    - simpl. split_and!; [by apply constructor_ok|apply records_inv_constructor
                         |apply Maze_new_valid].
    - rewrite Nat.iter_succ. by apply hill_iter_ok. }
  done.
Qed.

Lemma hill_climb_keeps_witness :
  valid_layout config_2x2 (hill_current_maze (hill_run config_2x2 tt 3)).
Proof.
  apply (hill_climb_keeps config_2x2 tt 3). split; reflexivity.
Defined.

(** X15.  A greedy step of Stochastic-Hill-Climb (the draw does not accept a
    worse layout): either no single-wall neighbour of the current layout
    has a score above -1 and the current layout is reset to the empty one,
    or the new current layout is a single-wall neighbour whose score is
    above -1 and at least the score of every single-wall neighbour. *)
Theorem hill_greedy_step `{HillRandom G} cfg (s : StochasticHillClimber G) :
  config_wf cfg →
  base_ok cfg (hill_base s) → records_inv cfg (hill_base s) →
  placeable_cells cfg (hill_current_maze s) ≠ [] →
  fst (draw_accept_worse
         (snd (visiting_order cfg (hill_rng s) (hill_current_maze s)))) = false →
  (hill_current_maze (hill_iter cfg s) = Maze_new cfg
   ∧ ∀ p, p ∈ placeable_cells cfg (hill_current_maze s) →
          calculate_score cfg (set_wall_at (hill_current_maze s) p true) <= -1)
  ∨ (∃ p, p ∈ placeable_cells cfg (hill_current_maze s)
          ∧ hill_current_maze (hill_iter cfg s)
            = set_wall_at (hill_current_maze s) p true
          ∧ -1 < calculate_score cfg (hill_current_maze (hill_iter cfg s))
          ∧ ∀ q, q ∈ placeable_cells cfg (hill_current_maze s) →
                 calculate_score cfg (set_wall_at (hill_current_maze s) q true)
                 <= calculate_score cfg (hill_current_maze (hill_iter cfg s))).
Proof.
  intros Hcfg Hb Hr Hcells Hdraw. unfold hill_iter.
  destruct (placeable_cells cfg (hill_current_maze s)) as [|p0 cells0] eqn:Hplace;
    [done|]. rewrite <- Hplace. clear Hcells.
  pose proof (visiting_order_perm cfg (hill_rng s) (hill_current_maze s)) as Horder.
  destruct (visiting_order cfg (hill_rng s) (hill_current_maze s)) as [cells rng1].
  simpl in Horder, Hdraw.
  destruct (draw_accept_worse rng1) as [accept rng2]. simpl in Hdraw. subst accept.
  destruct (hill_visit_fold cfg (hill_current_maze s) cells (hill_base s)
              (hill_current_maze s, -1) Hcfg Hb Hr)
    as (b' & best' & Hfold & Hb' & Hr' & Hle & Hmax & Hbest).
  unfold SolverState in *. rewrite Hfold. clear Hfold.
  destruct (snd best' =? -1) eqn:Hnone.
  - apply Z.eqb_eq in Hnone. left. simpl. split; [done|].
    intros p Hp. rewrite <- Hnone. apply Hmax. by rewrite Horder.
  - apply Z.eqb_neq in Hnone. right.
    destruct Hbest as [->|(p & Hp & -> & Hlt)]; [done|].
    exists p. simpl in Hlt, Hmax. unfold hill_adopt.
    destruct (get_score_for_maze cfg b' _) as [score b1]. simpl.
    split_and!; [by rewrite <- Horder|done|lia|].
    intros q Hq. apply Hmax. by rewrite Horder.
Qed.

Lemma hill_greedy_step_witness :
  let s : StochasticHillClimber unit := hill_start config_2x2 tt in
  (hill_current_maze (hill_iter config_2x2 s) = Maze_new config_2x2
   ∧ ∀ p, p ∈ placeable_cells config_2x2 (hill_current_maze s) →
          calculate_score config_2x2 (set_wall_at (hill_current_maze s) p true)
          <= -1)
  ∨ (∃ p, p ∈ placeable_cells config_2x2 (hill_current_maze s)
          ∧ hill_current_maze (hill_iter config_2x2 s)
            = set_wall_at (hill_current_maze s) p true
          ∧ -1 < calculate_score config_2x2 (hill_current_maze (hill_iter config_2x2 s))
          ∧ ∀ q, q ∈ placeable_cells config_2x2 (hill_current_maze s) →
                 calculate_score config_2x2 (set_wall_at (hill_current_maze s) q true)
                 <= calculate_score config_2x2
                      (hill_current_maze (hill_iter config_2x2 s))).
Proof.
  intros s. apply (hill_greedy_step config_2x2 s).
  - split; reflexivity.
  - apply constructor_ok. split; reflexivity.
  - apply records_inv_constructor.
  - vm_compute. discriminate.
  - reflexivity.
Defined.

(** X16.  A step of Stochastic-Hill-Climb whose draw accepts a worse layout puts
    one wall on a placeable cell of the current layout, whatever the
    scores: the index drawn is always inside the vector of cells. *)
Theorem hill_random_step `{HillRandom G} cfg (s : StochasticHillClimber G) :
  placeable_cells cfg (hill_current_maze s) ≠ [] →
  fst (draw_accept_worse
         (snd (visiting_order cfg (hill_rng s) (hill_current_maze s)))) = true →
  ∃ p, p ∈ placeable_cells cfg (hill_current_maze s)
       ∧ hill_current_maze (hill_iter cfg s)
         = set_wall_at (hill_current_maze s) p true
       ∧ hill_run_counter (hill_iter cfg s) = hill_run_counter s + 1.
Proof.
  intros Hcells Hdraw. unfold hill_iter.
  destruct (placeable_cells cfg (hill_current_maze s)) as [|p0 cells0] eqn:Hplace;
    [done|]. rewrite <- Hplace. clear Hcells.
  pose proof (visiting_order_perm cfg (hill_rng s) (hill_current_maze s)) as Horder.
  destruct (visiting_order cfg (hill_rng s) (hill_current_maze s)) as [cells rng1].
  simpl in Horder, Hdraw.
  destruct (draw_accept_worse rng1) as [accept rng2]. simpl in Hdraw. subst accept.
  assert (0 < length cells)%nat as Hlen.
  { rewrite Horder, Hplace. simpl. lia. }
  pose proof (draw_index_lt rng2 (length cells) Hlen) as Hindex.
  destruct (draw_index rng2 (length cells)) as [index rng3]. simpl in Hindex.
  destruct (lookup_lt_is_Some_2 cells index Hindex) as [p Hp]. rewrite Hp.
  exists p. unfold hill_adopt.
  destruct (get_score_for_maze cfg (hill_base s) _) as [score b1]. simpl.
  split_and!; [|done|done].
  rewrite <- Horder. by eapply list_elem_of_lookup_2.
Qed.

Lemma hill_random_step_witness :
  let s : StochasticHillClimber unit := hill_start config_2x2 tt in
  ∃ p, p ∈ placeable_cells config_2x2 (hill_current_maze s)
       ∧ hill_current_maze (@hill_iter unit bold_hill_random config_2x2 s)
         = set_wall_at (hill_current_maze s) p true
       ∧ hill_run_counter (@hill_iter unit bold_hill_random config_2x2 s)
         = hill_run_counter s + 1.
Proof.
  intros s. apply (@hill_random_step unit bold_hill_random config_2x2 s).
  - vm_compute. discriminate.
  - reflexivity.
Defined.

(* ===================================================================== *)
(** * The saved file *)
(* ===================================================================== *)












(* ===================================================================== *)
(** * The walk on the empty layout *)
(* ===================================================================== *)

Section EmptyLayout.
Variable cfg : Config.
Hypothesis Hcfg : config_wf cfg.

(** The direction the walk takes next: down as long as it can, then
    right. *)
Lemma corner_next_direction st :
  corner_inv cfg st → not_at_finish cfg (pos st) = true →
  ∃ t, (t = Directions.DOWN ∧ coordinate_x (pos st) = 0
        ∧ coordinate_y (pos st) < MAZE_HEIGHT cfg - 1
        ∨ t = Directions.RIGHT ∧ coordinate_y (pos st) = MAZE_HEIGHT cfg - 1
          ∧ coordinate_x (pos st) < MAZE_WIDTH cfg - 1)
       ∧ ∃ d l, best_dirs_of cfg (visit_counts st) (pos st) = d :: l
                ∧ choose_direction (last_dir st) d l = t.
Proof.
  intros (Hdims & Hin & Hedge & Hsteps & Hlast & Hcounts) Hgo.
  destruct (pos st) as [x y] eqn:Hpos. simpl in *.
  apply is_within_bounds_spec in Hin. simpl in Hin.
  unfold not_at_finish in Hgo. simpl in Hgo.
  assert (x ≠ MAZE_WIDTH cfg - 1 ∨ y ≠ MAZE_HEIGHT cfg - 1) as Hgo'.
  { apply orb_true_iff in Hgo as [?%negb_true_iff%Z.eqb_neq|?%negb_true_iff%Z.eqb_neq];
      auto. }
  clear Hgo.
  (* every count is 0 or 1 *)
  assert (∀ e, eligible cfg (visit_counts st) (at_xy x y) e →
               0 <= neighbor_visits_of (visit_counts st) (at_xy x y) e) as Hnonneg.
  { intros e [Hein _]. unfold neighbor_visits_of. rewrite (Hcounts _ Hein).
    by destruct (corner_visited _ _ _). }
  set (t := if y <? MAZE_HEIGHT cfg - 1 then Directions.DOWN else Directions.RIGHT).
  assert (t ∈ Directions.ALL) as HtALL.
  { unfold t, Directions.ALL. rewrite !elem_of_cons. destruct (y <? _); auto. }
  assert (is_within_bounds cfg (Point_add (at_xy x y) (delta t)) = true) as Htin.
  { apply is_within_bounds_spec. unfold t.
    destruct (Z.ltb_spec y (MAZE_HEIGHT cfg - 1)); simpl; lia. }
  assert (neighbor_visits_of (visit_counts st) (at_xy x y) t = 0) as Htcount.
  { unfold neighbor_visits_of. rewrite (Hcounts _ Htin). unfold corner_visited, t.
    destruct (Z.ltb_spec y (MAZE_HEIGHT cfg - 1)); simpl.
    - replace (y + 1 <=? y) with false by (symmetry; apply Z.leb_gt; lia).
      replace (y + 1 =? y) with false by (symmetry; apply Z.eqb_neq; lia).
      by rewrite andb_false_r.
    - replace (x + 1 =? 0) with false by (symmetry; apply Z.eqb_neq; lia).
      replace (x + 1 <=? x) with false by (symmetry; apply Z.leb_gt; lia).
      by rewrite andb_false_r. }
  assert (t ∈ best_dirs_of cfg (visit_counts st) (at_xy x y)) as Htie.
  { apply best_dirs_of_least_visited; [done|]. split_and!; [done| |].
    - split; [done|]. unfold neighbor_visits_of in Htcount. rewrite Htcount. lia.
    - intros e _ He. rewrite Htcount. by apply Hnonneg. }
  exists t. split.
  { unfold t. destruct (Z.ltb_spec y (MAZE_HEIGHT cfg - 1)); [left|right];
      (split_and!; [done|lia..]). }
  destruct (best_dirs_of cfg (visit_counts st) (at_xy x y)) as [|d l] eqn:Hbest;
    [by apply elem_of_nil in Htie|].
  exists d, l. split; [done|].
  unfold choose_direction.
  destruct (existsb _ (d :: l)) eqn:Hmomentum.
  - (* momentum: the last direction is in the tie set *)
    apply existsb_Direction_eqb in Hmomentum as (z & Hz & Hdelta).
    rewrite <- Hbest in Hz.
    apply best_dirs_of_least_visited in Hz as (_ & [Hzin _] & _); [|done].
    rewrite Hlast. unfold t.
    apply is_within_bounds_spec in Hzin. rewrite Hdelta, Hlast in Hzin.
    destruct (Z.eqb_spec x 0), (Z.ltb_spec y (MAZE_HEIGHT cfg - 1));
      simpl in Hzin; try done; lia.
  - (* no momentum: the greatest priority of the tie set *)
    destruct (max_element_priority_spec d l) as [Hmem Hmax].
    specialize (Hmax t Htie). rewrite <- Hbest in Hmem.
    assert (¬ ∃ z, z ∈ d :: l ∧ delta z = delta (last_dir st)) as Hnone.
    { intros Hex. apply existsb_Direction_eqb in Hex. congruence. }
    apply best_dirs_of_least_visited in Hmem as (HmALL & [Hmin _] & _); [|done].
    destruct (decide (last_dir st = t)) as [Heq|Hne].
    { exfalso. apply Hnone. exists t. split; [done|by rewrite Heq]. }
    (* the walk has come down the first column to the last row *)
    assert (x = 0 ∧ y = MAZE_HEIGHT cfg - 1) as [-> Hy].
    { rewrite Hlast in Hne. unfold t in Hne.
      destruct (Z.eqb_spec x 0), (Z.ltb_spec y (MAZE_HEIGHT cfg - 1)); try done; lia. }
    assert (t = Directions.RIGHT) as Ht.
    { unfold t. destruct (Z.ltb_spec y (MAZE_HEIGHT cfg - 1)); [lia|done]. }
    rewrite Ht in *. apply is_within_bounds_spec in Hmin.
    revert Hmin Hmax. unfold Directions.ALL in HmALL.
    rewrite !elem_of_cons, elem_of_nil in HmALL.
    destruct HmALL as [->|[->|[->|[->|[]]]]]; simpl; intros; try done; lia.
Qed.

Lemma corner_visited_spec x y p :
  corner_visited x y p = true ↔
  (coordinate_x p = 0 ∧ coordinate_y p <= y)
  ∨ (coordinate_y p = y ∧ coordinate_x p <= x).
Proof.
  unfold corner_visited.
  rewrite orb_true_iff, !andb_true_iff, !Z.eqb_eq, !Z.leb_le. done.
Qed.

Lemma corner_visited_eq x y x' y' p :
  (corner_visited x y p = true ↔ corner_visited x' y' p = true) →
  corner_visited x y p = corner_visited x' y' p.
Proof. destruct (corner_visited x y p), (corner_visited x' y' p); intuition. Qed.

(** One iteration of the loop on the empty layout. *)
Lemma corner_step st :
  corner_inv cfg st → not_at_finish cfg (pos st) = true →
  ∃ st', loop_body cfg st = Continue st'
         ∧ corner_inv cfg st'
         ∧ coordinate_x (pos st') + coordinate_y (pos st')
           = coordinate_x (pos st) + coordinate_y (pos st) + 1.
Proof.
  intros Hinv Hgo.
  destruct (corner_next_direction st Hinv Hgo) as (t & Ht & d & l & Hbest & Hchoose).
  destruct Hinv as (Hdims & Hin & Hedge & Hsteps & Hlast & Hcounts).
  pose proof Hin as Hin'. apply is_within_bounds_spec in Hin'.
  destruct Hcfg as [HW HH].
  assert (is_within_bounds cfg (Point_add (pos st) (delta t)) = true) as Htin.
  { apply is_within_bounds_spec.
    destruct Ht as [(-> & ? & ?)|(-> & ? & ?)]; simpl; lia. }
  assert (corner_visited (coordinate_x (pos st)) (coordinate_y (pos st))
            (Point_add (pos st) (delta t)) = false) as Hfresh.
  { apply not_true_is_false. rewrite corner_visited_spec.
    destruct Ht as [(-> & ? & ?)|(-> & ? & ?)]; simpl; lia. }
  unfold loop_body.
  replace (step_budget cfg <? steps st) with false.
  2: { symmetry. apply Z.ltb_ge. unfold step_budget. rewrite Hsteps. nia. }
  rewrite Hbest, Hchoose.
  eexists. split; [done|]. unfold corner_inv. simpl.
  rewrite (Hcounts _ Htin), Hfresh.
  split_and!.
  - by apply grid_set_dims.
  - done.
  - destruct Ht as [(-> & ? & ?)|(-> & ? & ?)]; simpl; lia.
  - rewrite Hsteps. destruct Ht as [(-> & ? & ?)|(-> & ? & ?)]; simpl; lia.
  - destruct Ht as [(-> & Hx & ?)|(-> & ? & ?)]; simpl.
    + rewrite Hx. done.
    + replace (coordinate_x (pos st) + 1 =? 0) with false; [done|].
      symmetry. apply Z.eqb_neq. lia.
  - intros p Hp.
    destruct (decide (Point_add (pos st) (delta t) = p)) as [<-|Hne].
    + rewrite grid_get_set_same; [|done|done|].
      * replace (corner_visited _ _ _) with true; [done|].
        symmetry. apply corner_visited_spec. right. simpl. lia.
      * apply is_within_bounds_nat in Htin as [? ?].
        by eapply grid_dims_lookup.
    + rewrite grid_get_set_other by (by apply (in_bounds_distinct cfg)).
      rewrite (Hcounts p Hp).
      replace (corner_visited (coordinate_x (pos st) + coordinate_x (delta t))
                 (coordinate_y (pos st) + coordinate_y (delta t)) p)
        with (corner_visited (coordinate_x (pos st)) (coordinate_y (pos st)) p);
        [done|].
      apply corner_visited_eq. rewrite !corner_visited_spec.
      apply is_within_bounds_spec in Hp.
      assert (coordinate_x p ≠ coordinate_x (Point_add (pos st) (delta t))
              ∨ coordinate_y p ≠ coordinate_y (Point_add (pos st) (delta t)))
        as Hdiff.
      { destruct (decide (coordinate_x p
                          = coordinate_x (Point_add (pos st) (delta t))));
          [|by left].
        right. intros Hy. apply Hne. destruct p. simpl in *. by subst. }
      revert Hdiff.
      destruct Ht as [(-> & ? & ?)|(-> & ? & ?)]; simpl; lia.
  - destruct Ht as [(-> & ? & ?)|(-> & ? & ?)]; simpl; lia.
Qed.

(** The walk on the empty layout comes to the finish after
    [(W - 1) + (H - 1)] steps. *)
Lemma corner_walk n st fuel :
  corner_inv cfg st →
  Z.of_nat n = (MAZE_WIDTH cfg - 1) + (MAZE_HEIGHT cfg - 1)
               - (coordinate_x (pos st) + coordinate_y (pos st)) →
  (n < fuel)%nat →
  ∃ k, walk_loop cfg fuel st
       = Some ((MAZE_WIDTH cfg - 1) + (MAZE_HEIGHT cfg - 1), k).
Proof.
  revert st fuel. induction n as [|n IH]; intros st fuel Hinv Hn Hfuel;
    (destruct fuel as [|fuel]; [lia|]); cbn [walk_loop].
  - pose proof Hinv as (_ & Hin%is_within_bounds_spec & _ & Hsteps & _).
    replace (not_at_finish cfg (pos st)) with false.
    + exists 0%nat. do 2 f_equal. lia.
    + symmetry. unfold not_at_finish.
      apply orb_false_iff. rewrite !negb_false_iff, !Z.eqb_eq. lia.
  - pose proof Hinv as (_ & Hin%is_within_bounds_spec & _).
    assert (not_at_finish cfg (pos st) = true) as Hgo.
    { unfold not_at_finish. apply orb_true_iff. rewrite !negb_true_iff, !Z.eqb_neq. lia. }
    rewrite Hgo.
    destruct (corner_step st Hinv Hgo) as (st' & -> & Hinv' & Hmove).
    destruct (IH st' fuel Hinv') as [k ->]; [lia|lia|].
    by exists (S k).
Qed.

Lemma corner_inv_init : corner_inv cfg (init_state cfg (Maze_new cfg)).
Proof.
  destruct Hcfg as [HW HH].
  assert (is_within_bounds cfg START_POINT = true) as Hstart
    by (apply is_within_bounds_spec; simpl; lia).
  unfold corner_inv, init_state. simpl. split_and!; [|done|by left|done|done|].
  - apply grid_set_dims, init_visit_counts_dims.
  - intros p Hp. destruct (decide (START_POINT = p)) as [<-|Hne].
    + rewrite grid_get_set_same; [done|done|done|].
      apply is_within_bounds_nat in Hstart as [? ?].
      eapply grid_dims_lookup; [apply init_visit_counts_dims|done|done].
    + rewrite grid_get_set_other by (by apply (in_bounds_distinct cfg)).
      rewrite init_visit_counts_get, Maze_new_is_wall_at by done.
      replace (corner_visited 0 0 p) with false; [done|].
      symmetry. apply not_true_is_false. rewrite corner_visited_spec.
      apply is_within_bounds_spec in Hp. intros Hvisited. apply Hne.
      destruct p as [px py]. unfold START_POINT. simpl in *. f_equal; lia.
Qed.

(** The empty layout has a path: down the first column, along the last
    row. *)
Lemma empty_layout_connected :
  connected cfg (Maze_new cfg) START_POINT (FINISH_POINT cfg).
Proof.
  destruct Hcfg as [HW HH].
  assert (∀ p, is_within_bounds cfg p = true → open_cell cfg (Maze_new cfg) p)
    as Hopen by (intros p Hp; split; [done|apply Maze_new_is_wall_at]).
  assert (∀ n : nat, Z.of_nat n < MAZE_HEIGHT cfg →
            connected cfg (Maze_new cfg) START_POINT (at_xy 0 (Z.of_nat n)))
    as Hdown.
  { induction n as [|n IH]; intros Hn.
    - apply connected_here, Hopen, is_within_bounds_spec. simpl. lia.
    - apply (connected_step _ _ _ (at_xy 0 (Z.of_nat n))); [apply IH; lia| |].
      + exists Directions.DOWN. split; [unfold Directions.ALL; rewrite !elem_of_cons; auto|].
        unfold at_xy, Point_add. simpl. f_equal. lia.
      + apply Hopen, is_within_bounds_spec. simpl. lia. }
  assert (∀ n : nat, Z.of_nat n < MAZE_WIDTH cfg →
            connected cfg (Maze_new cfg) START_POINT
                      (at_xy (Z.of_nat n) (MAZE_HEIGHT cfg - 1)))
    as Hright.
  { induction n as [|n IH]; intros Hn.
    - replace (MAZE_HEIGHT cfg - 1) with (Z.of_nat (Z.to_nat (MAZE_HEIGHT cfg - 1)))
        by lia.
      apply Hdown. lia.
    - apply (connected_step _ _ _ (at_xy (Z.of_nat n) (MAZE_HEIGHT cfg - 1)));
        [apply IH; lia| |].
      + exists Directions.RIGHT. split; [unfold Directions.ALL; rewrite !elem_of_cons; auto|].
        unfold at_xy, Point_add. simpl. f_equal; lia.
      + apply Hopen, is_within_bounds_spec. simpl. lia. }
  replace (FINISH_POINT cfg)
    with (at_xy (Z.of_nat (Z.to_nat (MAZE_WIDTH cfg - 1))) (MAZE_HEIGHT cfg - 1)).
  - apply Hright. lia.
  - unfold FINISH_POINT, at_xy. f_equal. lia.
Qed.

End EmptyLayout.

(** X18.  The empty layout scores [(W - 1) + (H - 1)], the least a layout with a
    path can score: this is the best-known score a solver starts from. *)
Theorem empty_layout_score cfg :
  config_wf cfg →
  calculate_score cfg (Maze_new cfg)
  = (MAZE_WIDTH cfg - 1) + (MAZE_HEIGHT cfg - 1)
  ∧ highest_known_score_ (SolverBase_new cfg)
    = (MAZE_WIDTH cfg - 1) + (MAZE_HEIGHT cfg - 1).
Proof.
  intros Hcfg.
  assert (calculate_score cfg (Maze_new cfg)
          = (MAZE_WIDTH cfg - 1) + (MAZE_HEIGHT cfg - 1)) as Hscore.
  { unfold calculate_score, calculate_score_run.
    rewrite has_path_to_finish_run_total.
    rewrite (has_path_to_finish_complete cfg _ Hcfg (empty_layout_connected cfg Hcfg)).
    destruct (corner_walk cfg Hcfg
                (Z.to_nat ((MAZE_WIDTH cfg - 1) + (MAZE_HEIGHT cfg - 1)))
                (init_state cfg (Maze_new cfg)) (walk_fuel cfg)
                (corner_inv_init cfg Hcfg)) as [k ->]; [| |done].
    - destruct Hcfg. simpl. lia.
    - destruct Hcfg. unfold walk_fuel, step_budget. nia. }
  split; [done|].
  by destruct (constructor_ok cfg Hcfg) as [_ ->].
Qed.

Lemma empty_layout_score_witness :
  calculate_score shipped_config (Maze_new shipped_config) = 46.
Proof.
  apply (empty_layout_score shipped_config). split; reflexivity.
Defined.

(* ===================================================================== *)
(** * The generator: how far a candidate is from the base *)
(* ===================================================================== *)

Section GeneratorDepth.
Variables (cfg : Config) (globally_visited : gset string) (jump_depth : Z).
Variable Q : Maze → Z → Prop.
Hypothesis Q_wall :
  ∀ m d p, is_within_bounds cfg p = true → is_placeable cfg m p = true →
           Q m d → Q (set_wall_at m p true) (d + 1).

Lemma expand_cell_depth current_maze depth candidates q local p
    candidates' q' local' :
  is_within_bounds cfg p = true →
  0 <= depth < jump_depth → Q current_maze depth →
  Forall (λ c, ∃ d, 0 < d <= jump_depth ∧ Q c d) candidates →
  Forall (λ e, 0 <= snd e ∧ Q (fst e) (snd e)) q →
  expand_cell cfg globally_visited current_maze depth (candidates, q, local) p
  = (candidates', q', local') →
  Forall (λ c, ∃ d, 0 < d <= jump_depth ∧ Q c d) candidates'
  ∧ Forall (λ e, 0 <= snd e ∧ Q (fst e) (snd e)) q'.
Proof.
  intros Hin Hdepth Hcur Hcands Hq. unfold expand_cell.
  destruct (is_placeable cfg current_maze p) eqn:Hplace; [|by intros [= <- <- <-]].
  pose proof (Q_wall _ _ _ Hin Hplace Hcur) as Hnext.
  destruct (decide (_ ∈ local)); [by intros [= <- <- <-]|].
  assert (Forall (λ e, 0 <= snd e ∧ Q (fst e) (snd e))
                 (q ++ [(set_wall_at current_maze p true, depth + 1)])) as Hq'.
  { apply Forall_app. split; [done|]. apply Forall_singleton. simpl.
    split; [lia|done]. }
  destruct (decide (_ ∈ globally_visited)); intros [= <- <- <-]; [done|].
  split; [|done]. apply Forall_app. split; [done|]. apply Forall_singleton.
  exists (depth + 1). split; [lia|done].
Qed.

Lemma expand_fold_depth current_maze depth cells candidates q local
    candidates' q' local' :
  Forall (λ p, is_within_bounds cfg p = true) cells →
  0 <= depth < jump_depth → Q current_maze depth →
  Forall (λ c, ∃ d, 0 < d <= jump_depth ∧ Q c d) candidates →
  Forall (λ e, 0 <= snd e ∧ Q (fst e) (snd e)) q →
  fold_left (expand_cell cfg globally_visited current_maze depth) cells
            (candidates, q, local) = (candidates', q', local') →
  Forall (λ c, ∃ d, 0 < d <= jump_depth ∧ Q c d) candidates'
  ∧ Forall (λ e, 0 <= snd e ∧ Q (fst e) (snd e)) q'.
Proof.
  intros Hcells Hdepth Hcur. revert candidates q local.
  induction Hcells as [|p cells Hp Hcells IH]; intros candidates q local Hc Hq.
  - by intros [= <- <- <-].
  - cbn [fold_left].
    destruct (expand_cell cfg globally_visited current_maze depth
                (candidates, q, local) p) as [[c1 q1] l1] eqn:Hstep.
    destruct (expand_cell_depth _ _ _ _ _ _ _ _ _ Hp Hdepth Hcur Hc Hq Hstep).
    by apply IH.
Qed.

Lemma generate_loop_depth fuel candidates q local result :
  Forall (λ c, ∃ d, 0 < d <= jump_depth ∧ Q c d) candidates →
  Forall (λ e, 0 <= snd e ∧ Q (fst e) (snd e)) q →
  generate_loop cfg globally_visited jump_depth fuel candidates q local
  = Some result →
  Forall (λ c, ∃ d, 0 < d <= jump_depth ∧ Q c d) result.
Proof.
  revert candidates q local.
  induction fuel as [|fuel IH]; intros candidates q local Hc Hq; [done|].
  cbn [generate_loop]. destruct q as [|[current_maze depth] rest].
  - by intros [= <-].
  - apply Forall_cons in Hq as [[Hdepth Hcur] Hq]. simpl in Hdepth, Hcur.
    destruct (Z.leb_spec jump_depth depth); [by apply IH|].
    destruct (fold_left _ _ _) as [[c1 q1] l1] eqn:Hfold.
    eapply expand_fold_depth in Hfold as [? ?]; [by apply IH| |lia|done|done|done].
    apply Forall_forall. intros p. by rewrite elem_of_all_cells.
Qed.
End GeneratorDepth.

Lemma add_walls_snoc base cells p :
  add_walls base (cells ++ [p]) = set_wall_at (add_walls base cells) p true.
Proof. unfold add_walls. by rewrite fold_left_app. Qed.

Lemma add_walls_wf cfg base cells :
  maze_wf cfg base → maze_wf cfg (add_walls base cells).
Proof.
  intros Hwf. induction cells as [|p cells IH] using rev_ind; [done|].
  rewrite add_walls_snoc. by apply set_wall_at_wf.
Qed.

(** The walls of a layout with walls added. *)
Lemma add_walls_is_wall_at cfg base cells q :
  maze_wf cfg base →
  Forall (λ p, is_within_bounds cfg p = true) cells →
  is_within_bounds cfg q = true →
  is_wall_at (add_walls base cells) q = true ↔
  q ∈ cells ∨ is_wall_at base q = true.
Proof.
  intros Hwf Hcells Hq.
  induction cells as [|p cells IH] using rev_ind.
  - unfold add_walls. simpl. rewrite elem_of_nil. tauto.
  - apply Forall_app in Hcells as [Hcells Hp]. rewrite Forall_singleton in Hp.
    rewrite add_walls_snoc, elem_of_app, list_elem_of_singleton.
    destruct (decide (p = q)) as [->|Hne].
    + rewrite (is_wall_at_set_same cfg); [|by apply add_walls_wf|done].
      split; [intros _; left; by right|done].
    + rewrite (is_wall_at_set_other cfg) by done. rewrite IH by done.
      split; [tauto|]. intros [[?|?]|?]; [tauto|congruence|tauto].
Qed.

(** X19.  Every candidate of the generator is the base layout with walls added
    on between one and [jump_depth] of its placeable cells, no cell
    twice. *)
Theorem generator_adds_walls cfg b base jump_depth c :
  maze_wf cfg base →
  c ∈ generate_unique_candidates cfg b base jump_depth →
  ∃ cells, c = add_walls base cells
           ∧ NoDup cells
           ∧ (∀ p, p ∈ cells → p ∈ placeable_cells cfg base)
           ∧ 0 < Z.of_nat (length cells) <= jump_depth.
Proof.
  intros Hwf Hin.
  pose proof (generate_unique_candidates_run_total cfg b base jump_depth) as Hrun.
  unfold generate_unique_candidates_run in Hrun.
  eapply (generate_loop_depth cfg _ jump_depth
            (λ m d, ∃ cells, m = add_walls base cells ∧ NoDup cells
                             ∧ (∀ p, p ∈ cells → p ∈ placeable_cells cfg base)
                             ∧ Z.of_nat (length cells) = d)) in Hrun.
  - rewrite Forall_forall in Hrun.
    destruct (Hrun c Hin) as (d & Hd & cells & -> & Hnodup & Hcells & Hlen).
    exists cells. split_and!; [done|done|done|lia|lia].
  - intros m d p Hp Hplace (cells & -> & Hnodup & Hcells & Hlen).
    apply is_placeable_spec in Hplace as (Hstart & Hfinish & Hopen).
    assert (Forall (λ p, is_within_bounds cfg p = true) cells) as Hbounds.
    { apply Forall_forall. intros q Hq%Hcells.
      by apply elem_of_placeable_cells in Hq as [? _]. }
    assert (¬ (p ∈ cells ∨ is_wall_at base p = true)) as Hfresh.
    { rewrite <- (add_walls_is_wall_at cfg) by done. by rewrite Hopen. }
    exists (cells ++ [p]). split_and!.
    + by rewrite add_walls_snoc.
    + apply NoDup_app. split_and!; [done| |apply NoDup_singleton].
      intros q Hq ->%list_elem_of_singleton. tauto.
    + intros q [Hq| ->%list_elem_of_singleton]%elem_of_app; [by apply Hcells|].
      apply elem_of_placeable_cells. split; [done|].
      apply is_placeable_spec. split_and!; [done|done|].
      apply not_true_is_false. tauto.
    + rewrite length_app. simpl. lia.
  - constructor.
  - apply Forall_singleton. simpl. split; [done|].
    exists []. split_and!; [done|constructor| |done].
    by intros p ?%elem_of_nil.
Qed.

Lemma generator_adds_walls_witness :
  ∃ cells, set_wall_at (Maze_new config_2x2) (at_xy 1 0) true
           = add_walls (Maze_new config_2x2) cells
           ∧ NoDup cells
           ∧ (∀ p, p ∈ cells → p ∈ placeable_cells config_2x2 (Maze_new config_2x2))
           ∧ 0 < Z.of_nat (length cells) <= 2.
Proof.
  apply (generator_adds_walls config_2x2 (SolverBase_new config_2x2)
           (Maze_new config_2x2) 2).
  - apply Maze_new_wf.
  - vm_compute. left.
Defined.

(* ===================================================================== *)
(** * binary_heap *)
(* ===================================================================== *)

Section binary_heap_facts.
Import binary_heap.
Context {T : Type} (Comparator : T → T → bool).
Local Open Scope nat_scope.

Lemma calculate_parent_Some i p :
  calculate_parent i = Some p ↔ i = 2 * p + 1 ∨ i = 2 * p + 2.
Proof.
  unfold calculate_parent.
  pose proof (Nat.div_mod_eq (i - 1) 2). pose proof (Nat.mod_upper_bound (i - 1) 2).
  destruct (0 <? i) eqn:Hi; [apply Nat.ltb_lt in Hi|apply Nat.ltb_ge in Hi].
  - split; [intros Heq; assert (p = (i - 1) / 2) by congruence; lia
          |intros ?; f_equal; lia].
  - split; [done|lia].
Qed.

Lemma swap_in_range (data : list T) i j x y :
  data !! i = Some x → data !! j = Some y →
  swap data i j = Some (<[j:=x]> (<[i:=y]> data)).
Proof. unfold swap. by intros -> ->. Qed.

Lemma swapped_lookup (data : list T) i j x y k v :
  data !! i = Some x → data !! j = Some y →
  <[j:=x]> (<[i:=y]> data) !! k = Some v →
  (k = j ∧ v = x) ∨ (k ≠ j ∧ k = i ∧ v = y)
  ∨ (k ≠ j ∧ k ≠ i ∧ data !! k = Some v).
Proof.
  intros Hi Hj Hk.
  destruct (decide (k = j)) as [->|Hkj].
  - left. rewrite list_lookup_insert_eq in Hk; [by injection Hk|].
    rewrite length_insert. by eapply lookup_lt_Some.
  - rewrite list_lookup_insert_ne in Hk by done.
    destruct (decide (k = i)) as [->|Hki].
    + right; left. rewrite list_lookup_insert_eq in Hk; [by injection Hk|].
      by eapply lookup_lt_Some.
    + right; right. by rewrite list_lookup_insert_ne in Hk.
Qed.

(** ** sift_up *)

Lemma sift_up_from_total fuel (data : list T) index :
  index ≤ fuel → index < length data →
  ∃ data', sift_up_from Comparator fuel data index = Some data' ∧ data' ≡ₚ data.
Proof.
  revert data index. induction fuel as [|fuel IH]; intros data index Hfuel Hlen;
    cbn [sift_up_from]; destruct (calculate_parent index) as [p|] eqn:Hp;
    try (by exists data).
  all: apply calculate_parent_Some in Hp.
  all: destruct (lookup_lt_is_Some_2 data index Hlen) as [x Hx].
  all: destruct (lookup_lt_is_Some_2 data p ltac:(lia)) as [y Hy].
  all: rewrite Hx, Hy; cbn [mbind option_bind].
  all: destruct (Comparator x y); [|by exists data].
  - lia.
  - rewrite (swap_in_range _ _ _ _ _ Hy Hx). cbn [mbind option_bind].
    destruct (IH (<[index:=y]> (<[p:=x]> data)) p) as (data' & -> & Hperm);
      [lia|rewrite !length_insert; lia|].
    exists data'. split; [done|]. rewrite Hperm.
    by apply Permutation_insert_swap.
Qed.

Section Ordered.
Hypothesis Hswo : strict_weak_order Comparator.

Lemma comparator_trans_false x y z :
  Comparator x y = false → Comparator y z = false → Comparator x z = false.
Proof. apply Hswo. Qed.

Lemma comparator_beaten x y a :
  Comparator x y = true → Comparator a y = false → Comparator a x = false.
Proof.
  intros Hxy Hay. destruct (Comparator a x) eqn:Hax; [|done].
  apply (comparator_asym _ Hswo) in Hax.
  by rewrite (comparator_negtrans _ Hswo _ _ _ Hax Hay) in Hxy.
Qed.

Lemma up_inv_swapped (data : list T) index p x y :
  calculate_parent index = Some p →
  data !! index = Some x → data !! p = Some y → Comparator x y = true →
  up_inv Comparator data index →
  up_inv Comparator (<[index:=y]> (<[p:=x]> data)) p.
Proof.
  intros Hp Hx Hy Hxy [Hedges Hgrand].
  pose proof Hp as Hp'. apply calculate_parent_Some in Hp'.
  split.
  - intros i q a b Hq Hi Ha Hb.
    pose proof Hq as Hq'. apply calculate_parent_Some in Hq'.
    apply (swapped_lookup _ _ _ _ _ _ _ Hy Hx) in Ha, Hb.
    destruct Ha as [[-> ->]|[(_ & -> & _)|(Hi1 & _ & Ha)]]; [|done|].
    + (* the edge from [index] to [p] *)
      assert (q = p) as -> by lia.
      destruct Hb as [[? _]|[(_ & _ & ->)|(_ & ? & _)]]; [lia| |done].
      by apply (comparator_asym _ Hswo).
    + destruct Hb as [[-> ->]|[(_ & -> & ->)|(Hq1 & Hq2 & Hb)]].
      * (* a child of [index] *)
        by apply (Hgrand i p a y).
      * (* the other child of [p] *)
        apply (comparator_beaten _ _ _ Hxy). by apply (Hedges i p a y).
      * by apply (Hedges i q a b).
  - intros c g a b Hc Hg Ha Hb.
    pose proof Hc as Hc'. apply calculate_parent_Some in Hc'.
    pose proof Hg as Hg'. apply calculate_parent_Some in Hg'.
    apply (swapped_lookup _ _ _ _ _ _ _ Hy Hx) in Ha, Hb.
    destruct Hb as [[? _]|[(_ & ? & _)|(_ & _ & Hb)]]; [lia|lia|].
    assert (Comparator y b = false) as Hyb
      by (apply (Hedges p g y b); [done|lia|done|done]).
    destruct Ha as [[-> ->]|[(_ & ? & _)|(Hc1 & _ & Ha)]]; [done|lia|].
    apply (comparator_trans_false _ y); [|done].
    by apply (Hedges c p a y).
Qed.

Lemma sift_up_from_ordered fuel (data data' : list T) index :
  sift_up_from Comparator fuel data index = Some data' →
  up_inv Comparator data index → heap_ordered Comparator data'.
Proof.
  revert data index.
  assert (∀ (data : list T) index p x y,
            calculate_parent index = Some p →
            data !! index = Some x → data !! p = Some y →
            Comparator x y = false →
            up_inv Comparator data index → heap_ordered Comparator data) as Hstop.
  { intros data index p x y Hp Hx Hy Hxy [Hedges _] i q a b Hq _ Ha Hb.
    destruct (decide (i = index)) as [->|Hi]; [|by apply (Hedges i q a b)].
    congruence. }
  assert (∀ (data : list T) index,
            calculate_parent index = None →
            up_inv Comparator data index → heap_ordered Comparator data) as Hroot.
  { intros data index Hp [Hedges _] i q a b Hq _ Ha Hb.
    apply (Hedges i q a b); [done| |done|done]. congruence. }
  induction fuel as [|fuel IH]; intros data index Hrun Hinv;
    cbn [sift_up_from] in Hrun;
    destruct (calculate_parent index) as [p|] eqn:Hp.
  2, 4: injection Hrun as <-; by eapply Hroot.
  all: destruct (data !! index) as [x|] eqn:Hx; [|done].
  all: destruct (data !! p) as [y|] eqn:Hy; [|done].
  all: cbn [mbind option_bind] in Hrun.
  all: destruct (Comparator x y) eqn:Hxy;
    [|injection Hrun as <-; by eapply Hstop].
  - done.
  - rewrite (swap_in_range _ _ _ _ _ Hy Hx) in Hrun. cbn [mbind option_bind] in Hrun.
    apply (IH _ _ Hrun). by apply up_inv_swapped.
Qed.

End Ordered.

(** ** down_heapify *)

(** One call of [down_heapify]: either it stops, and then no child of
    [index] wins against it, or it exchanges [index] with a child [w] that
    wins against it and against which the other child does not win, and
    goes on from [w]. *)
Lemma down_heapify_from_cases fuel (data : list T) index :
  (down_heapify_from Comparator fuel data index = Some data
   ∧ (strict_weak_order Comparator →
      ∀ s xs x, calculate_parent s = Some index →
                data !! s = Some xs → data !! index = Some x →
                Comparator xs x = false))
  ∨ (∃ w x xw,
       calculate_parent w = Some index
       ∧ data !! w = Some xw ∧ data !! index = Some x
       ∧ Comparator xw x = true
       ∧ (strict_weak_order Comparator →
          ∀ s xs, calculate_parent s = Some index → s ≠ w →
                  data !! s = Some xs → Comparator xs xw = false)
       ∧ down_heapify_from Comparator fuel data index
         = match fuel with
           | O => None
           | S fuel' =>
               down_heapify_from Comparator fuel' (<[index:=xw]> (<[w:=x]> data)) w
           end).
Proof.
  assert (∀ s, calculate_parent s = Some index → s = 2 * index + 1 ∨ s = 2 * index + 2)
    as Hchild by (by intros s ?%calculate_parent_Some).
  assert (calculate_parent (2 * index + 1) = Some index) as Hfirst
    by (apply calculate_parent_Some; lia).
  assert (calculate_parent (2 * index + 2) = Some index) as Hsecond
    by (apply calculate_parent_Some; lia).
  destruct fuel as [|fuel]; cbn [down_heapify_from]; unfold calculate_children;
    cbn [fst snd].
  all: destruct (2 * index + 2 <? length data) eqn:H2;
    [apply Nat.ltb_lt in H2|apply Nat.ltb_ge in H2].
  all: destruct (2 * index + 1 <? length data) eqn:H1;
    [apply Nat.ltb_lt in H1|apply Nat.ltb_ge in H1]; try lia.
  all: cbn [mbind option_bind].
  (* no child *)
  3, 6: left; split; [done|]; intros _ s xs x [->| ->]%Hchild Hs _;
    apply lookup_lt_Some in Hs; lia.
  all: destruct (lookup_lt_is_Some_2 data (2 * index + 1) H1) as [x1 Hx1].
  all: destruct (lookup_lt_is_Some_2 data index ltac:(lia)) as [x Hx].
  (* one child *)
  2, 4: rewrite Hx1, Hx; cbn [mbind option_bind];
    destruct (Comparator x1 x) eqn:Hc;
    [right; exists (2 * index + 1), x, x1;
     rewrite ?(swap_in_range _ _ _ _ _ Hx1 Hx); cbn [mbind option_bind];
     split_and!; try done;
     intros _ s xs [->| ->]%Hchild Hne Hs; [done|];
     apply lookup_lt_Some in Hs; lia
    |left; split; [done|]; intros _ s xs x' [->| ->]%Hchild Hs Hx';
     [congruence|apply lookup_lt_Some in Hs; lia]].
  (* both children *)
  all: destruct (lookup_lt_is_Some_2 data (2 * index + 2) H2) as [x2 Hx2].
  all: rewrite Hx1, Hx2; cbn [mbind option_bind].
  all: destruct (Comparator x1 x2) eqn:H12.
  all: rewrite ?Hx1, ?Hx2, Hx; cbn [mbind option_bind].
  1, 3: destruct (Comparator x1 x) eqn:Hc;
    [right; exists (2 * index + 1), x, x1;
     rewrite ?(swap_in_range _ _ _ _ _ Hx1 Hx); cbn [mbind option_bind];
     split_and!; try done;
     intros Hswo s xs [->| ->]%Hchild Hne Hs; [done|];
     assert (xs = x2) as -> by congruence;
     by apply (comparator_asym _ Hswo)
    |left; split; [done|]; intros Hswo s xs x' [->| ->]%Hchild Hs Hx';
     [congruence|];
     assert (xs = x2) as -> by congruence; assert (x' = x) as -> by congruence;
     apply (comparator_negtrans _ Hswo _ x1); [|done];
     by apply (comparator_asym _ Hswo)].
  all: destruct (Comparator x2 x) eqn:Hc;
    [right; exists (2 * index + 2), x, x2;
     rewrite ?(swap_in_range _ _ _ _ _ Hx2 Hx); cbn [mbind option_bind];
     split_and!; try done;
     intros Hswo s xs [->| ->]%Hchild Hne Hs; [|done];
     congruence
    |left; split; [done|]; intros Hswo s xs x' [->| ->]%Hchild Hs Hx';
     [|congruence];
     assert (xs = x1) as -> by congruence; assert (x' = x) as -> by congruence;
     by apply (comparator_negtrans _ Hswo _ x2)].
Qed.

Lemma down_heapify_from_total fuel (data : list T) index :
  length data ≤ fuel + index →
  ∃ data', down_heapify_from Comparator fuel data index = Some data'
           ∧ data' ≡ₚ data.
Proof.
  revert data index. induction fuel as [|fuel IH]; intros data index Hfuel.
  1: destruct (down_heapify_from_cases 0 data index)
    as [[Hstop _]|(w & x & xw & Hw & Hxw & Hx & _ & _ & Hgo)]; [by exists data|].
  2: destruct (down_heapify_from_cases (S fuel) data index)
    as [[Hstop _]|(w & x & xw & Hw & Hxw & Hx & _ & _ & Hgo)]; [by exists data|].
  all: apply calculate_parent_Some in Hw; pose proof (lookup_lt_Some _ _ _ Hxw).
  - lia.
  - destruct (IH (<[index:=xw]> (<[w:=x]> data)) w) as (data' & Hrun & Hperm);
      [rewrite !length_insert; lia|].
    exists data'. split; [by rewrite Hgo|].
    rewrite Hperm. by apply Permutation_insert_swap.
Qed.

Lemma down_heapify_total (data : list T) index :
  ∃ data', down_heapify Comparator data index = Some data' ∧ data' ≡ₚ data.
Proof. apply down_heapify_from_total. lia. Qed.

Section OrderedDown.
Hypothesis Hswo : strict_weak_order Comparator.

Lemma down_inv_swapped lo (data : list T) index w x xw :
  calculate_parent w = Some index →
  data !! w = Some xw → data !! index = Some x →
  (∀ s xs, calculate_parent s = Some index → s ≠ w →
           data !! s = Some xs → Comparator xs xw = false) →
  Comparator xw x = true →
  down_inv Comparator lo data index →
  down_inv Comparator lo (<[index:=xw]> (<[w:=x]> data)) w.
Proof.
  intros Hw Hxw Hx Hother Hc [Hedges Hgrand].
  pose proof Hw as Hw'. apply calculate_parent_Some in Hw'.
  split.
  - intros i q a b Hq Hlo Hqw Ha Hb.
    pose proof Hq as Hq'. apply calculate_parent_Some in Hq'.
    apply (swapped_lookup _ _ _ _ _ _ _ Hxw Hx) in Ha, Hb.
    destruct Hb as [[-> ->]|[(_ & ? & _)|(Hq1 & Hq2 & Hb)]]; [|done|].
    + (* the children of [index] *)
      destruct Ha as [[? _]|[(_ & -> & ->)|(Hi1 & Hi2 & Ha)]]; [lia| |].
      * by apply (comparator_asym _ Hswo).
      * by apply (Hother i a).
    + destruct Ha as [[-> ->]|[(_ & -> & _)|(Hi1 & Hi2 & Ha)]].
      * (* the edge from [index] to its parent *)
        by apply (Hgrand w q xw b).
      * congruence.
      * by apply (Hedges i q a b).
  - intros c g a b Hc' Hg Hlo Ha Hb.
    assert (g = index) as -> by congruence.
    pose proof Hc' as Hc''. apply calculate_parent_Some in Hc''.
    apply (swapped_lookup _ _ _ _ _ _ _ Hxw Hx) in Ha, Hb.
    destruct Hb as [[_ ->]|[(? & _)|(? & _)]]; [|done|done].
    destruct Ha as [[? _]|[(_ & ? & _)|(_ & _ & Ha)]]; [lia|lia|].
    apply (Hedges c w a xw); [done|lia|lia|done|done].
Qed.

Lemma down_heapify_from_ordered fuel lo (data data' : list T) index :
  down_heapify_from Comparator fuel data index = Some data' →
  down_inv Comparator lo data index → ordered_from Comparator lo data'.
Proof.
  revert data index.
  assert (∀ (data : list T) index,
            (∀ s xs x, calculate_parent s = Some index →
                       data !! s = Some xs → data !! index = Some x →
                       Comparator xs x = false) →
            down_inv Comparator lo data index → ordered_from Comparator lo data)
    as Hstopped.
  { intros data index Hchildren [Hedges _] i q a b Hq Hlo Ha Hb.
    destruct (decide (q = index)) as [->|Hne];
      [by apply (Hchildren i a b)|by apply (Hedges i q a b)]. }
  induction fuel as [|fuel IH]; intros data index Hrun Hinv.
  - destruct (down_heapify_from_cases 0 data index)
      as [[Hstop Hchildren]|(w & x & xw & Hw & Hxw & Hx & Hc & Hother & Hgo)].
    + rewrite Hstop in Hrun. injection Hrun as <-.
      apply (Hstopped data index); [by apply Hchildren|done].
    + by rewrite Hgo in Hrun.
  - destruct (down_heapify_from_cases (S fuel) data index)
      as [[Hstop Hchildren]|(w & x & xw & Hw & Hxw & Hx & Hc & Hother & Hgo)].
    + rewrite Hstop in Hrun. injection Hrun as <-.
      apply (Hstopped data index); [by apply Hchildren|done].
    + rewrite Hgo in Hrun. apply (IH _ _ Hrun).
      apply (down_inv_swapped lo data index w x xw); [done|done|done| |done|done].
      by apply Hother.
Qed.

(** The loop of [heapify], from index [n - 1] down to 0. *)
Lemma heapify_loop n (data : list T) :
  ordered_from Comparator n data →
  ∃ data', fold_left (λ acc i, data' ← acc; down_heapify Comparator data' i)
                     (rev (seq 0 n)) (Some data) = Some data'
           ∧ data' ≡ₚ data ∧ heap_ordered Comparator data'.
Proof.
  revert data. induction n as [|k IH]; intros data Hord.
  - by exists data.
  - rewrite seq_S, rev_app_distr. cbn [rev app fold_left Nat.add mbind option_bind].
    destruct (down_heapify_total data k) as (data1 & Hrun & Hperm1).
    rewrite Hrun. cbn [mbind option_bind].
    destruct (IH data1) as (data' & Hfold & Hperm & Hheap).
    + apply (down_heapify_from_ordered _ _ _ _ _ Hrun). split.
      * intros i p x y Hp Hlo Hne. apply Hord; [done|lia].
      * intros c g x y _ Hg%calculate_parent_Some Hlo. lia.
    + exists data'. split_and!; [done|by rewrite Hperm|done].
Qed.

(** The first element of an ordered heap wins or ties against all. *)
Lemma heap_ordered_root (data : list T) t :
  heap_ordered Comparator data → data !! 0 = Some t →
  ∀ i x, data !! i = Some x → Comparator x t = false.
Proof.
  intros Hheap Ht i. induction (lt_wf i) as [i _ IH]. intros x Hx.
  destruct (calculate_parent i) as [p|] eqn:Hp.
  - pose proof Hp as Hp'. apply calculate_parent_Some in Hp'.
    pose proof (lookup_lt_Some _ _ _ Hx).
    destruct (lookup_lt_is_Some_2 data p ltac:(lia)) as [y Hy].
    apply (comparator_negtrans _ Hswo _ y).
    + apply (Hheap i p x y); [done|lia|done|done].
    + apply (IH p); [lia|done].
  - assert (i = 0) as ->.
    { unfold calculate_parent in Hp. destruct i; [done|discriminate]. }
    assert (x = t) as -> by congruence.
    destruct (Comparator t t) eqn:Htt; [|done].
    by rewrite (comparator_asym _ Hswo _ _ Htt) in Htt.
Qed.

End OrderedDown.

Lemma removelast_snoc_lookup (data : list T) x :
  data !! (length data - 1) = Some x → data = removelast data ++ [x].
Proof.
  destruct data as [|a data _] using rev_ind; [done|].
  rewrite removelast_last, length_app. cbn [length].
  replace (length data + 1 - 1) with (length data) by lia.
  rewrite lookup_app_r, Nat.sub_diag by lia. by intros [= ->].
Qed.

End binary_heap_facts.

Lemma Z_ltb_strict_weak_order : binary_heap.strict_weak_order Z.ltb.
Proof. split; intros; lia. Qed.

Lemma push_ordered {T} (Comparator : T → T → bool) (data : list T) element :
  binary_heap.strict_weak_order Comparator →
  binary_heap.heap_ordered Comparator data →
  ∃ data', binary_heap.push Comparator data element = Some data'
           ∧ data' ≡ₚ element :: data
           ∧ binary_heap.heap_ordered Comparator data'.
Proof.
  intros Hswo Hheap. unfold binary_heap.push, binary_heap.sift_up.
  rewrite length_app. cbn [length].
  replace (length data + 1 - 1)%nat with (length data) by lia.
  destruct (sift_up_from_total Comparator (length data) (data ++ [element])
              (length data)) as (data' & Hrun & Hperm);
    [lia|rewrite length_app; cbn [length]; lia|].
  exists data'. split_and!; [done| |].
  - rewrite Hperm. symmetry. apply Permutation_cons_append.
  - apply (sift_up_from_ordered Comparator Hswo _ _ _ _ Hrun). split.
    + intros i p x y Hp Hi Hx Hy.
      pose proof Hp as Hp'. apply calculate_parent_Some in Hp'.
      assert (i < length data)%nat.
      { apply lookup_lt_Some in Hx. rewrite length_app in Hx. cbn [length] in Hx. lia. }
      rewrite lookup_app_l in Hx, Hy by lia.
      apply (Hheap i p x y); [done|lia|done|done].
    + intros c g x y Hc%calculate_parent_Some _ Hx _.
      apply lookup_lt_Some in Hx. rewrite length_app in Hx. cbn [length] in Hx. lia.
Qed.

(** X20.  [push] on an ordered heap gives an ordered heap that holds the old
    elements and the new one. *)
Theorem binary_heap_push {T} (Comparator : T → T → bool) (data : list T) element :
  binary_heap.strict_weak_order Comparator →
  binary_heap.heap_ordered Comparator data →
  ∃ data', binary_heap.push Comparator data element = Some data'
           ∧ data' ≡ₚ element :: data
           ∧ binary_heap.heap_ordered Comparator data'.
Proof. apply push_ordered. Qed.

Lemma heap_ordered_1_3_2 : binary_heap.heap_ordered Z.ltb [1; 3; 2].
Proof.
  intros i p x y Hp%calculate_parent_Some _ Hx Hy.
  destruct i as [|[|[|i]]]; [lia| | |done].
  all: assert (p = 0%nat) as -> by lia.
  all: injection Hx as <-; injection Hy as <-; reflexivity.
Qed.

Lemma binary_heap_push_witness :
  ∃ data', binary_heap.push Z.ltb [1; 3; 2] 0 = Some data'
           ∧ data' ≡ₚ 0 :: [1; 3; 2]
           ∧ binary_heap.heap_ordered Z.ltb data'.
Proof.
  apply (binary_heap_push Z.ltb [1; 3; 2] 0).
  - apply Z_ltb_strict_weak_order.
  - apply heap_ordered_1_3_2.
Defined.

Lemma pop_ordered {T} (Comparator : T → T → bool) (data : list T) :
  binary_heap.strict_weak_order Comparator →
  binary_heap.heap_ordered Comparator data →
  data ≠ [] →
  ∃ t data', binary_heap.top data = Some t
             ∧ binary_heap.pop Comparator data = Some (t, data')
             ∧ data ≡ₚ t :: data'
             ∧ binary_heap.heap_ordered Comparator data'
             ∧ ∀ x, x ∈ data → Comparator x t = false.
Proof.
  intros Hswo Hheap Hne.
  assert (0 < length data)%nat as Hlen
    by (destruct data; [done|cbn [length]; lia]).
  destruct (lookup_lt_is_Some_2 data 0 Hlen) as [t Ht].
  destruct (lookup_lt_is_Some_2 data (length data - 1) ltac:(lia)) as [z Hz].
  unfold binary_heap.top, binary_heap.pop. rewrite Ht. cbn [mbind option_bind].
  rewrite (swap_in_range _ _ _ _ _ Ht Hz). cbn [mbind option_bind].
  set (data1 := <[(length data - 1)%nat := t]> (<[0%nat := z]> data)).
  assert (data1 ≡ₚ data) as Hperm1 by (by apply Permutation_insert_swap).
  assert (data1 = removelast data1 ++ [t]) as Hlast.
  { apply removelast_snoc_lookup. unfold data1. rewrite !length_insert.
    apply list_lookup_insert_eq. rewrite length_insert. lia. }
  destruct (down_heapify_total Comparator (removelast data1) 0)
    as (data' & Hrun & Hperm).
  rewrite Hrun. cbn [mbind option_bind].
  exists t, data'. split_and!; [done|done| | |].
  - rewrite <- Hperm1, Hlast, Hperm. symmetry. apply Permutation_cons_append.
  - apply (down_heapify_from_ordered Comparator Hswo _ _ _ _ _ Hrun). split.
    + intros i p x y Hp _ Hp0 Hx Hy.
      pose proof Hp as Hp'. apply calculate_parent_Some in Hp'.
      assert (length data1 = length data) as Hlen1
        by (unfold data1; by rewrite !length_insert).
      assert (length (removelast data1) = length data - 1)%nat as Hlen2.
      { apply (f_equal length) in Hlast. rewrite length_app in Hlast.
        cbn [length] in Hlast. lia. }
      pose proof (lookup_lt_Some _ _ _ Hx) as Hi.
      assert (data1 !! i = Some x) as Hx1
        by (rewrite Hlast; by apply lookup_app_l_Some).
      assert (data1 !! p = Some y) as Hy1
        by (rewrite Hlast; by apply lookup_app_l_Some).
      apply (swapped_lookup _ _ _ _ _ _ _ Ht Hz) in Hx1, Hy1.
      destruct Hx1 as [[? _]|[(_ & ? & _)|(_ & _ & Hx1)]]; [lia|lia|].
      destruct Hy1 as [[? _]|[(_ & ? & _)|(_ & _ & Hy1)]]; [lia|lia|].
      apply (Hheap i p x y); [done|lia|done|done].
    + intros c g x y _ Hg. discriminate.
  - intros x [i Hi]%list_elem_of_lookup.
    by apply (heap_ordered_root Comparator Hswo data t Hheap Ht i).
Qed.

(** X21.  On an ordered heap that is not empty, [top] and [pop] return the first
    element, against which no element of the heap wins; [pop] leaves an
    ordered heap that holds the other elements. *)
Theorem binary_heap_pop {T} (Comparator : T → T → bool) (data : list T) :
  binary_heap.strict_weak_order Comparator →
  binary_heap.heap_ordered Comparator data →
  data ≠ [] →
  ∃ t data', binary_heap.top data = Some t
             ∧ binary_heap.pop Comparator data = Some (t, data')
             ∧ data ≡ₚ t :: data'
             ∧ binary_heap.heap_ordered Comparator data'
             ∧ ∀ x, x ∈ data → Comparator x t = false.
Proof. apply pop_ordered. Qed.

Lemma binary_heap_pop_witness :
  ∃ t data', binary_heap.top [1; 3; 2] = Some t
             ∧ binary_heap.pop Z.ltb [1; 3; 2] = Some (t, data')
             ∧ [1; 3; 2] ≡ₚ t :: data'
             ∧ binary_heap.heap_ordered Z.ltb data'
             ∧ ∀ x, x ∈ [1; 3; 2] → (x <? t) = false.
Proof.
  apply (binary_heap_pop Z.ltb [1; 3; 2]).
  - apply Z_ltb_strict_weak_order.
  - apply heap_ordered_1_3_2.
  - discriminate.
Defined.

(** X22.  The constructor orders any vector: the heap it builds holds the
    elements given and is ordered. *)
Theorem binary_heap_new {T} (Comparator : T → T → bool) (raw_data : list T) :
  binary_heap.strict_weak_order Comparator →
  ∃ data, binary_heap.new Comparator raw_data = Some data
          ∧ data ≡ₚ raw_data
          ∧ binary_heap.heap_ordered Comparator data.
Proof.
  intros Hswo. unfold binary_heap.new, binary_heap.heapify.
  apply (heapify_loop Comparator Hswo).
  intros i p x y Hp%calculate_parent_Some Hlo Hx _.
  apply lookup_lt_Some in Hx.
  pose proof (Nat.div_mod_eq (length raw_data) 2).
  pose proof (Nat.mod_upper_bound (length raw_data) 2). lia.
Qed.

Lemma binary_heap_new_witness :
  ∃ data, binary_heap.new Z.ltb [5; 4; 3; 2; 1] = Some data
          ∧ data ≡ₚ [5; 4; 3; 2; 1]
          ∧ binary_heap.heap_ordered Z.ltb data.
Proof.
  apply (binary_heap_new Z.ltb [5; 4; 3; 2; 1]).
  apply Z_ltb_strict_weak_order.
Defined.

(** ** operator<< *)

Section binary_heap_show.
Import binary_heap.
Context {T : Type}.
Local Open Scope nat_scope.

(** [(i + 1) & (i + 2)] is zero when [i + 2] is a power of two... *)
Lemma land_pred_pow2 n : Nat.land (2 ^ n - 1) (2 ^ n) = 0.
Proof.
  apply Nat.bits_inj. intros m.
  rewrite Nat.land_spec, Nat.bits_0, Nat.pow2_bits_eqb.
  replace (2 ^ n - 1) with (Nat.ones n) by (rewrite Nat.ones_equiv; lia).
  destruct (decide (m < n)) as [Hlt|Hge].
  - rewrite Nat.ones_spec_low by done.
    by replace (n =? m) with false by (symmetry; apply Nat.eqb_neq; lia).
  - by rewrite Nat.ones_spec_high by lia.
Qed.

(** ... and only then. *)
Lemma land_pred_between n x :
  2 ^ n < x < 2 ^ S n → Nat.land (x - 1) x ≠ 0.
Proof.
  intros Hx Hzero.
  pose proof (Nat.pow_nonzero 2 n ltac:(lia)) as Hpos.
  assert (Nat.testbit (Nat.land (x - 1) x) n = true) as Hbit.
  { rewrite Nat.land_spec.
    pose proof (Nat.bit_log2 (x - 1) ltac:(lia)) as Hlow.
    pose proof (Nat.bit_log2 x ltac:(lia)) as Hhigh.
    rewrite (Nat.log2_unique (x - 1) n) in Hlow by lia.
    rewrite (Nat.log2_unique x n) in Hhigh by lia.
    by rewrite Hlow, Hhigh. }
  by rewrite Hzero, Nat.bits_0 in Hbit.
Qed.

Lemma join_cons_app {A} (x : list A) (l : list (list A)) :
  mjoin (x :: l) = x ++ mjoin l.
Proof. done. Qed.

(** One line of the output: the cells of a level, then the newline. *)
Lemma show_row k size (row : list T) :
  row ≠ [] → length row ≤ 2 ^ k →
  length row = 2 ^ k ∨ 2 ^ k - 1 + length row = size →
  2 ^ k - 1 + length row ≤ size →
  mjoin (imap (λ j, show_item size (2 ^ k - 1 + j)) row) = show_level row.
Proof.
  intros Hne Hlen Hend Hsize. unfold show_level.
  pose proof (Nat.pow_nonzero 2 k ltac:(lia)) as Hpos.
  destruct row as [|z row _] using rev_ind; [done|]. clear Hne.
  rewrite length_app in *. cbn [length] in *.
  rewrite imap_app, fmap_app, !join_app, <- app_assoc. f_equal.
  - rewrite <- imap_const. f_equal. apply imap_ext. intros j x Hj.
    apply lookup_lt_Some in Hj. unfold const, show_item.
    replace (Nat.land (2 ^ k - 1 + j + 1) (2 ^ k - 1 + j + 2) =? 0) with false.
    + replace (2 ^ k - 1 + j =? size - 1) with false; [done|].
      symmetry. apply Nat.eqb_neq. lia.
    + symmetry. apply Nat.eqb_neq.
      replace (2 ^ k - 1 + j + 1) with (2 ^ k - 1 + j + 2 - 1) by lia.
      apply (land_pred_between k). rewrite Nat.pow_succ_r'. lia.
  - cbn [imap fmap list_fmap]. rewrite !join_cons_app. cbn [mjoin list_join].
    rewrite !app_nil_r, Nat.add_0_r. unfold show_item. do 2 f_equal.
    destruct Hend as [Hfull|Hlast].
    + replace (2 ^ k - 1 + length row + 1) with (2 ^ S k - 1)
        by (rewrite Nat.pow_succ_r'; lia).
      replace (2 ^ k - 1 + length row + 2) with (2 ^ S k)
        by (rewrite Nat.pow_succ_r'; lia).
      by rewrite land_pred_pow2.
    + replace (2 ^ k - 1 + length row =? size - 1) with true
        by (symmetry; apply Nat.eqb_eq; lia).
      by rewrite orb_true_r.
Qed.

(** The output from level [k] on, [m] levels being left. *)
Lemma show_from_level (data : list T) m k :
  (m = 0 → length data ≤ 2 ^ k - 1) →
  (0 < m → 2 ^ (k + m - 1) - 1 < length data ≤ 2 ^ (k + m) - 1) →
  mjoin (imap (λ j, show_item (length data) (2 ^ k - 1 + j))
              (drop (2 ^ k - 1) data))
  = mjoin (show_level
             <$> ((λ j, take (2 ^ j) (drop (2 ^ j - 1) data)) <$> seq k m)).
Proof.
  revert k. induction m as [|m IH]; intros k Hnone Hsome.
  - by rewrite drop_ge by auto.
  - clear Hnone. specialize (Hsome ltac:(lia)).
    pose proof (Nat.pow_nonzero 2 k ltac:(lia)) as Hpos.
    assert (2 ^ k ≤ 2 ^ (k + S m - 1)) as Hmono
      by (apply Nat.pow_le_mono_r; lia).
    assert (2 ^ S k - 1 = 2 ^ k - 1 + 2 ^ k) as Hnext
      by (rewrite Nat.pow_succ_r'; lia).
    cbn [seq]. rewrite !fmap_cons, join_cons_app.
    rewrite <- (take_drop (2 ^ k) (drop (2 ^ k - 1) data)) at 1.
    rewrite imap_app, join_app. f_equal.
    + apply show_row.
      * intros Hnil. apply (f_equal length) in Hnil.
        rewrite length_take, length_drop in Hnil. cbn [length] in Hnil. lia.
      * rewrite length_take. lia.
      * rewrite length_take, length_drop. lia.
      * rewrite length_take, length_drop. lia.
    + rewrite drop_drop, <- Hnext.
      rewrite <- (IH (S k)).
      * f_equal. apply imap_ext. intros j x Hj.
        apply lookup_lt_Some in Hj. rewrite length_drop in Hj.
        rewrite length_take, length_drop.
        by replace (2 ^ k - 1 + (2 ^ k `min` (length data - (2 ^ k - 1)) + j))
          with (2 ^ S k - 1 + j) by lia.
      * intros ->. replace (k + 1) with (S k) in Hsome by lia. lia.
      * intros Hm. replace (S k + m) with (k + S m) by lia.
        by replace (S k + m - 1) with (k + S m - 1) by lia.
Qed.

(** The levels from [k] on, put end to end, are the vector from index
    [2^k - 1] on. *)
Lemma levels_from_join (data : list T) m k :
  length data ≤ 2 ^ (k + m) - 1 →
  mjoin ((λ j, take (2 ^ j) (drop (2 ^ j - 1) data)) <$> seq k m)
  = drop (2 ^ k - 1) data.
Proof.
  revert k. induction m as [|m IH]; intros k Hlen.
  - rewrite Nat.add_0_r in Hlen. by rewrite drop_ge.
  - pose proof (Nat.pow_nonzero 2 k ltac:(lia)) as Hpos.
    cbn [seq]. rewrite fmap_cons, join_cons_app, IH.
    + rewrite <- (take_drop (2 ^ k) (drop (2 ^ k - 1) data)) at 2.
      f_equal. rewrite drop_drop. f_equal. rewrite Nat.pow_succ_r'. lia.
    + by replace (S k + m) with (k + S m) by lia.
Qed.

End binary_heap_show.

(** X23.  [operator<<] writes the heap level by level: line [k] holds
    [data[2^k - 1 .. 2^(k+1) - 2]], each element followed by a space. *)
Theorem binary_heap_show_levels {T} (data : list T) :
  binary_heap.show data = mjoin (binary_heap.show_level <$> binary_heap.levels data)
  ∧ mjoin (binary_heap.levels data) = data
  ∧ ∀ k row, binary_heap.levels data !! k = Some row →
             row = take (2 ^ k) (drop (2 ^ k - 1) data) ∧ row ≠ [].
Proof.
  destruct data as [|x0 data0] eqn:Hdata; [by split_and!|].
  rewrite <- Hdata. unfold binary_heap.levels, binary_heap.show.
  assert (0 < length data)%nat as Hlen by (rewrite Hdata; cbn [length]; lia).
  destruct (Nat.log2_spec (length data) Hlen) as [Hlow Hhigh].
  replace (match data with [] => [] | _ => _ end)
    with ((λ k, take (2 ^ k) (drop (2 ^ k - 1) data))
            <$> seq 0 (S (Nat.log2 (length data)))) by (by rewrite Hdata).
  split_and!.
  - apply (show_from_level data (S (Nat.log2 (length data))) 0); [done|].
    intros _.
    replace (0 + S (Nat.log2 (length data)) - 1)%nat
      with (Nat.log2 (length data)) by lia.
    replace (0 + S (Nat.log2 (length data)))%nat
      with (S (Nat.log2 (length data))) by lia.
    lia.
  - rewrite levels_from_join; [done|].
    replace (0 + S (Nat.log2 (length data)))%nat
      with (S (Nat.log2 (length data))) by lia.
    lia.
  - intros k row Hrow. rewrite list_lookup_fmap in Hrow.
    destruct (seq 0 (S (Nat.log2 (length data))) !! k) as [j|] eqn:Hk; [|done].
    apply lookup_seq in Hk as [-> Hk]. cbn [Nat.add] in Hrow.
    injection Hrow as <-. split; [done|].
    assert (2 ^ k ≤ 2 ^ Nat.log2 (length data))%nat
      by (apply Nat.pow_le_mono_r; lia).
    pose proof (Nat.pow_nonzero 2 k ltac:(lia)).
    intros Hnil. apply (f_equal length) in Hnil.
    rewrite length_take, length_drop in Hnil. cbn [length] in Hnil. lia.
Qed.

(** ** main *)

(** A run of [push] commands with elements in the range of [int] leaves
    an ordered heap of the elements pushed and those there before. *)
Lemma main_loop_pushes xs rest heap out :
  Forall (λ x, binary_heap.in_int_range x = true) xs →
  binary_heap.heap_ordered Z.ltb heap →
  ∃ heap', heap' ≡ₚ xs ++ heap
           ∧ binary_heap.heap_ordered Z.ltb heap'
           ∧ binary_heap.main_loop (binary_heap.pushes xs ++ rest) heap out
             = binary_heap.main_loop rest heap' out.
Proof.
  intros Hxs. revert heap. induction Hxs as [|x xs Hx Hxs IH]; intros heap Hheap.
  - by exists heap.
  - destruct (push_ordered Z.ltb heap x Z_ltb_strict_weak_order Hheap)
      as (heap1 & Hpush & Hperm1 & Hheap1).
    destruct (IH heap1 Hheap1) as (heap' & Hperm & Hheap' & Hrun).
    exists heap'. split_and!; [|done|].
    + rewrite Hperm, Hperm1. cbn [app]. symmetry. apply Permutation_middle.
    + unfold binary_heap.pushes in *. rewrite bind_cons.
      cbn [app binary_heap.main_loop].
      change (String.eqb "push" "push") with true. cbn match.
      by rewrite Hx, Hpush.
Qed.

(** As many [pop] commands as the heap has elements write them in
    ascending order and leave the heap empty. *)
Lemma main_loop_pops n rest heap out :
  binary_heap.heap_ordered Z.ltb heap → length heap = n →
  ∃ ys, ys ≡ₚ heap ∧ StronglySorted Z.le ys
        ∧ binary_heap.main_loop (replicate n (binary_heap.Word "pop") ++ rest) heap out
          = binary_heap.main_loop rest []
              (out ++ mjoin ((λ y, [binary_heap.Value y; binary_heap.Text newline])
                               <$> ys)).
Proof.
  revert heap out. induction n as [|n IH]; intros heap out Hheap Hlen.
  - apply nil_length_inv in Hlen as ->. exists [].
    split_and!; [done|constructor|]. cbn [replicate app fmap list_fmap mjoin list_join].
    by rewrite app_nil_r.
  - destruct (pop_ordered Z.ltb heap Z_ltb_strict_weak_order Hheap)
      as (t & heap1 & _ & Hpop & Hperm1 & Hheap1 & Hmin).
    { by intros ->. }
    assert (length heap1 = n) as Hlen1.
    { apply Permutation_length in Hperm1. cbn [length] in Hperm1. lia. }
    destruct (IH heap1 (out ++ [binary_heap.Value t; binary_heap.Text newline])
                Hheap1 Hlen1) as (ys & Hperm & Hsorted & Hrun).
    exists (t :: ys). split_and!.
    + by rewrite Hperm1, Hperm.
    + constructor; [done|]. apply Forall_forall. intros y Hy.
      assert (y ∈ heap) as Hin by (rewrite Hperm1, <- Hperm; by right).
      apply Hmin in Hin. lia.
    + cbn [replicate app binary_heap.main_loop].
      change (String.eqb "pop" "push") with false.
      change (String.eqb "pop" "pop") with true. cbn match.
      rewrite Hpop, Hrun, fmap_cons. cbn [mjoin list_join].
      by rewrite <- !app_assoc.
Qed.

(** An element outside the range of [int] ends the reading: whatever
    follows it is never seen and the program does not return. *)
Lemma main_element_out_of_range xs x rest :
  Forall (λ x, binary_heap.in_int_range x = true) xs →
  binary_heap.in_int_range x = false →
  binary_heap.main
    (binary_heap.pushes xs
     ++ binary_heap.Word "push" :: binary_heap.Number x :: rest)
  = binary_heap.NoReturn [].
Proof.
  intros Hxs Hx. unfold binary_heap.main.
  change (binary_heap.new Z.ltb []) with (Some (@nil Z)). cbn match.
  destruct (main_loop_pushes xs
              (binary_heap.Word "push" :: binary_heap.Number x :: rest) [] [] Hxs)
    as (heap & _ & _ & ->).
  { by intros i p y z _ _ Hy. }
  cbn [binary_heap.main_loop].
  change (String.eqb "push" "push") with true. cbn match. by rewrite Hx.
Qed.

(** X24.  The program sorts: on the input that pushes the elements of [xs],
    all of them values of [int], pops as many times and ends, it returns
    after writing the elements of [xs] in ascending order, one on a
    line. *)
Theorem binary_heap_main_sorts (xs : list Z) :
  Forall (λ x, -2147483648 <= x <= 2147483647) xs →
  ∃ ys, ys ≡ₚ xs ∧ StronglySorted Z.le ys
        ∧ binary_heap.main (binary_heap.pushes xs
                            ++ replicate (length xs) (binary_heap.Word "pop")
                            ++ [binary_heap.Word "end"])
          = binary_heap.Returned
              (mjoin ((λ y, [binary_heap.Value y; binary_heap.Text newline])
                        <$> ys)).
Proof.
  intros Hxs. unfold binary_heap.main.
  change (binary_heap.new Z.ltb []) with (Some (@nil Z)). cbn match.
  destruct (main_loop_pushes xs
              (replicate (length xs) (binary_heap.Word "pop")
               ++ [binary_heap.Word "end"]) [] [])
    as (heap & Hperm & Hheap & ->).
  { eapply Forall_impl; [exact Hxs|]. intros x [Hlo Hhi].
    unfold binary_heap.in_int_range.
    apply andb_true_iff. split; by apply Z.leb_le. }
  { by intros i p x y _ _ Hx. }
  rewrite app_nil_r in Hperm.
  destruct (main_loop_pops (length xs) [binary_heap.Word "end"] heap [] Hheap)
    as (ys & Hperm' & Hsorted & ->).
  { by rewrite Hperm. }
  exists ys. split_and!; [by rewrite Hperm', Hperm|done|done].
Qed.

Lemma binary_heap_main_sorts_witness :
  ∃ ys, ys ≡ₚ [3; 1; 2] ∧ StronglySorted Z.le ys
        ∧ binary_heap.main (binary_heap.pushes [3; 1; 2]
                            ++ replicate 3 (binary_heap.Word "pop")
                            ++ [binary_heap.Word "end"])
          = binary_heap.Returned
              (mjoin ((λ y, [binary_heap.Value y; binary_heap.Text newline])
                        <$> ys)).
Proof.
  apply (binary_heap_main_sorts [3; 1; 2]).
  repeat constructor; lia.
Defined.

(* ===================================================================== *)
(** * The calculator: evaluate *)
(* ===================================================================== *)

Section evaluate_facts.
Import calculator.
Context {A T : Type}.
Context (add sub mul div : T → T → T).
Context (read : A → T).

Lemma written_pending_term (t : term A) :
  written_of_term read t ++ pending_of_term t = postfix_of_term read t.
Proof.
  induction t as [f|f op t IH]; simpl.
  - by rewrite app_nil_r.
  - by rewrite <- IH, <- !app_assoc.
Qed.

Lemma written_pending_expr (e : expr A) :
  written_of_expr read e ++ pending_of_expr e = postfix_of_expr read e.
Proof.
  destruct e as [t|e op t]; simpl.
  - apply written_pending_term.
  - by rewrite <- written_pending_term, <- !app_assoc.
Qed.

(** The operators a term leaves on the stack are [*] and [/]. *)
Lemma pop_pending_term (t : term A) (stack postfix : list (token T)) :
  pop_to_parenthesis (pending_of_term (T:=T) t ++ stack) postfix
  = pop_to_parenthesis stack (postfix ++ pending_of_term t).
Proof.
  revert stack postfix. induction t as [f|f op t IH]; intros stack postfix; simpl.
  - by rewrite app_nil_r.
  - rewrite <- app_assoc, IH. simpl.
    rewrite <- app_assoc. by destruct op.
Qed.

Lemma pop_pending_expr (e : expr A) (stack postfix : list (token T)) :
  pop_to_parenthesis (pending_of_expr (T:=T) e ++ stack) postfix
  = pop_to_parenthesis stack (postfix ++ pending_of_expr e).
Proof.
  destruct e as [t|e op t]; simpl.
  - apply pop_pending_term.
  - rewrite <- app_assoc, pop_pending_term. simpl.
    rewrite <- app_assoc. by destruct op.
Qed.

Lemma pop_at_parenthesis (stack postfix : list (token T)) :
  stack = [] ∨ (∃ below, stack = special LEFT_PARENTHESIS :: below) →
  pop_to_parenthesis stack postfix = Some (stack, postfix).
Proof. by intros [->|[below ->]]. Qed.

(** The first loop of [evaluate] on the tokens of an expression, a term
    and a factor; an expression starts on the empty stack or on a left
    parenthesis. *)
Lemma shunt_tokens :
  (∀ e : expr A, ∀ stack postfix rest,
     stack = [] ∨ (∃ below, stack = special LEFT_PARENTHESIS :: below) →
     fold_left shunt_step (tokens_of_expr read e ++ rest) (Some (stack, postfix))
     = fold_left shunt_step rest
         (Some (pending_of_expr e ++ stack, postfix ++ written_of_expr read e)))
  ∧ (∀ t : term A, ∀ stack postfix rest,
       fold_left shunt_step (tokens_of_term read t ++ rest) (Some (stack, postfix))
       = fold_left shunt_step rest
           (Some (pending_of_term t ++ stack, postfix ++ written_of_term read t)))
  ∧ (∀ f : factor A, ∀ stack postfix rest,
       fold_left shunt_step (tokens_of_factor read f ++ rest) (Some (stack, postfix))
       = fold_left shunt_step rest
           (Some (stack, postfix ++ postfix_of_factor read f))).
Proof.
  apply expr_term_factor_ind.
  - (* Term *)
    intros t IHt stack postfix rest _. apply IHt.
  - (* Sum *)
    intros e IHe op t IHt stack postfix rest Hbase.
    cbn [tokens_of_expr pending_of_expr written_of_expr].
    rewrite <- !app_assoc, IHe by done. cbn [app fold_left].
    assert (shunt_step (Some (pending_of_expr e ++ stack,
                              postfix ++ written_of_expr read e))
                       (special (special_of_additive op))
            = Some (special (special_of_additive op) :: stack,
                    postfix ++ postfix_of_expr read e)) as ->.
    { unfold shunt_step. cbn [mbind option_bind].
      rewrite pop_pending_expr, pop_at_parenthesis by done.
      rewrite <- app_assoc, written_pending_expr. by destruct op. }
    rewrite IHt. by rewrite <- !app_assoc.
  - (* Factor *)
    intros f IHf stack postfix rest. apply IHf.
  - (* Product *)
    intros f IHf op t IHt stack postfix rest.
    cbn [tokens_of_term pending_of_term written_of_term].
    rewrite <- !app_assoc, IHf. cbn [app fold_left].
    assert (shunt_step (Some (stack, postfix ++ postfix_of_factor read f))
                       (special (special_of_multiplicative op))
            = Some (special (special_of_multiplicative op) :: stack,
                    postfix ++ postfix_of_factor read f)) as ->
      by (by destruct op).
    rewrite IHt. by rewrite <- !app_assoc.
  - (* Number *)
    by intros x stack postfix rest.
  - (* Parenthesised *)
    intros e IHe stack postfix rest.
    cbn [tokens_of_factor postfix_of_factor app fold_left].
    change (shunt_step (Some (stack, postfix)) (special LEFT_PARENTHESIS))
      with (Some (special (T:=T) LEFT_PARENTHESIS :: stack, postfix)).
    rewrite <- app_assoc, IHe by (right; by eexists). cbn [app fold_left].
    f_equal. unfold shunt_step. cbn [mbind option_bind].
    rewrite pop_pending_expr, pop_at_parenthesis by (right; by eexists).
    by rewrite <- app_assoc, written_pending_expr.
Qed.

(** The second loop of [evaluate] on the postfix form of an expression, a
    term and a factor: its value is pushed. *)
Lemma postfix_values :
  (∀ e : expr A, ∀ stack rest,
     fold_left (postfix_step add sub mul div) (postfix_of_expr read e ++ rest)
               (Some stack)
     = fold_left (postfix_step add sub mul div) rest
         (Some (value (value_of_expr add sub mul div read e) :: stack)))
  ∧ (∀ t : term A, ∀ stack rest,
       fold_left (postfix_step add sub mul div) (postfix_of_term read t ++ rest)
                 (Some stack)
       = fold_left (postfix_step add sub mul div) rest
           (Some (value (value_of_term add sub mul div read t) :: stack)))
  ∧ (∀ f : factor A, ∀ stack rest,
       fold_left (postfix_step add sub mul div) (postfix_of_factor read f ++ rest)
                 (Some stack)
       = fold_left (postfix_step add sub mul div) rest
           (Some (value (value_of_factor add sub mul div read f) :: stack))).
Proof.
  apply expr_term_factor_ind.
  - intros t IHt stack rest. apply IHt.
  - intros e IHe op t IHt stack rest. cbn [postfix_of_expr].
    rewrite <- !app_assoc, IHe, IHt. by destruct op.
  - intros f IHf stack rest. apply IHf.
  - intros f IHf op t IHt stack rest. cbn [postfix_of_term].
    rewrite <- !app_assoc, IHf, IHt. by destruct op.
  - by intros x stack rest.
  - intros e IHe stack rest. apply IHe.
Qed.

End evaluate_facts.

Lemma evaluate_tokens {A T} (add sub mul div : T → T → T)
    (read : A → T) (e : calculator.expr A) :
  calculator.evaluate add sub mul div (calculator.tokens_of_expr read e)
  = Some (calculator.value_of_expr add sub mul div read e).
Proof.
  unfold calculator.evaluate.
  destruct (shunt_tokens read) as (Hshunt & _ & _).
  rewrite <- (app_nil_r (calculator.tokens_of_expr read e)).
  rewrite Hshunt by (by left). cbn [fold_left mbind option_bind app].
  rewrite app_nil_r, written_pending_expr.
  destruct (postfix_values add sub mul div read) as (Hvalues & _ & _).
  rewrite <- (app_nil_r (calculator.postfix_of_expr read e)).
  by rewrite Hvalues.
Qed.

(** X25.  [evaluate] gives the tokens of an expression its value, with sums and
    differences taken from the left and products and quotients from the
    right: [a - b - c] is [(a - b) - c], but [a / b / c] is
    [a / (b / c)] and [a / b * c] is [a / (b * c)]. *)
Theorem evaluate_tokens_of_expr {A T} (add sub mul div : T → T → T)
    (read : A → T) (e : calculator.expr A) :
  calculator.evaluate add sub mul div (calculator.tokens_of_expr read e)
  = Some (calculator.value_of_expr add sub mul div read e).
Proof. apply evaluate_tokens. Qed.

Lemma evaluate_tokens_of_expr_witness :
  calculator.evaluate Z.add Z.sub Z.mul Z.div
    [calculator.value 8; calculator.special calculator.DIVIDE;
     calculator.value 4; calculator.special calculator.DIVIDE;
     calculator.value 2]
  = Some 4.
Proof.
  exact (evaluate_tokens_of_expr Z.add Z.sub Z.mul Z.div id
           (calculator.Term
              (calculator.Product (calculator.Number 8) calculator.over
                 (calculator.Product (calculator.Number 4) calculator.over
                    (calculator.Factor (calculator.Number 2)))))).
Defined.

(* ===================================================================== *)
(** * The calculator: parse *)
(* ===================================================================== *)

Section parse_facts.
Import calculator.
Context {T : Type}.
Context (read : list Ascii.ascii → T).

Lemma flush_app (tokens done : list (token T)) buffer :
  flush read (tokens ++ done) buffer = tokens ++ flush read done buffer.
Proof. unfold flush. destruct (is_empty buffer); [done|by rewrite app_assoc]. Qed.

(** The characters of a number go to the buffer. *)
Lemma parse_number s rest (tokens : list (token T)) prev buffer :
  Ascii.eqb prev ")" = false →
  forallb (λ c, match special_char_of c with None => true | Some _ => false end) s
  = true →
  fold_left (parse_step read) (s ++ rest) (tokens, prev, buffer)
  = fold_left (parse_step read) rest (tokens, default prev (last s), buffer ++ s).
Proof.
  revert prev buffer. induction s as [|c s IH]; intros prev buffer Hprev Hs.
  - by rewrite app_nil_r.
  - cbn [forallb] in Hs. apply andb_true_iff in Hs as [Hc Hs].
    destruct (special_char_of c) eqn:Hspecial; [done|].
    cbn [app fold_left]. unfold parse_step at 2. rewrite Hspecial, Hprev.
    rewrite IH; [|by destruct (Ascii.eqb_spec c ")") as [->|]|done].
    rewrite <- app_assoc. cbn [app]. do 3 f_equal.
    rewrite last_cons. by destruct (last s).
Qed.

(** An operator or a right parenthesis after an operand. *)
Lemma parse_operator c sc (tokens : list (token T)) prev buffer :
  special_char_of c = Some sc → sc ≠ LEFT_PARENTHESIS →
  ends_operand prev = true →
  parse_step read (tokens, prev, buffer) c
  = (flush read tokens buffer ++ [special sc], c, []).
Proof.
  intros Hc Hsc Hprev. unfold parse_step. rewrite Hc.
  destruct sc; try done.
  unfold ends_operand in Hprev. apply orb_true_iff in Hprev as [->| ->]; [done|].
  by rewrite andb_false_r.
Qed.

(** A left parenthesis at the start of an operand. *)
Lemma parse_left_parenthesis (tokens : list (token T)) prev :
  starts_operand prev = true →
  parse_step read (tokens, prev, []) "("
  = (tokens ++ [special LEFT_PARENTHESIS], "("%char, []).
Proof.
  intros Hprev. unfold parse_step. cbn [special_char_of Ascii.eqb].
  unfold starts_operand in Hprev.
  destruct (Ascii.eqb_spec prev ")") as [->|_]; [done|].
  cbn [is_empty negb andb flush].
  rewrite andb_false_r.
  replace (negb (Ascii.eqb prev "(") && negb (Ascii.eqb prev "+")
           && negb (Ascii.eqb prev "-") && negb (Ascii.eqb prev "*")
           && negb (Ascii.eqb prev "/") && negb (Ascii.eqb prev "000"))
    with false; [done|].
  symmetry. rewrite <- !negb_orb. by rewrite Hprev.
Qed.

Lemma starts_operand_not_right prev :
  starts_operand prev = true → Ascii.eqb prev ")" = false.
Proof. by destruct (Ascii.eqb_spec prev ")") as [->|]. Qed.

(** The text of a number ends with a digit. *)
Lemma numeral_last (n : numeral) :
  ∃ c, last (text n) = Some c ∧ is_digit c = true
       ∧ is_empty (text n) = false
       ∧ forallb (λ c, match special_char_of c with None => true | Some _ => false end)
                 (text n) = true.
Proof.
  destruct n as [s Hs]. simpl. unfold is_numeral in Hs.
  apply andb_true_iff in Hs as [Hchars Hlast].
  destruct (last s) as [c|] eqn:Hc; [|done].
  exists c. split_and!; [done|done| |done]. by destruct s.
Qed.

(** [parse] on the text of an expression, a term and a factor, at the
    start of an operand: [done] are the tokens written by the end of the
    text, [buffer] the text of a last number still to be written. *)
Lemma parse_print :
  (∀ e : expr numeral, ∃ done last buffer,
     (is_digit last = true ∨ last = ")"%char ∧ buffer = [])
     ∧ flush read done buffer = tokens_of_expr (λ n, read (text n)) e
     ∧ ∀ tokens prev rest, starts_operand prev = true →
         fold_left (parse_step read) (print_expr e ++ rest) (tokens, prev, [])
         = fold_left (parse_step read) rest (tokens ++ done, last, buffer))
  ∧ (∀ t : term numeral, ∃ done last buffer,
       (is_digit last = true ∨ last = ")"%char ∧ buffer = [])
       ∧ flush read done buffer = tokens_of_term (λ n, read (text n)) t
       ∧ ∀ tokens prev rest, starts_operand prev = true →
           fold_left (parse_step read) (print_term t ++ rest) (tokens, prev, [])
           = fold_left (parse_step read) rest (tokens ++ done, last, buffer))
  ∧ (∀ f : factor numeral, ∃ done last buffer,
       (is_digit last = true ∨ last = ")"%char ∧ buffer = [])
       ∧ flush read done buffer = tokens_of_factor (λ n, read (text n)) f
       ∧ ∀ tokens prev rest, starts_operand prev = true →
           fold_left (parse_step read) (print_factor f ++ rest) (tokens, prev, [])
           = fold_left (parse_step read) rest (tokens ++ done, last, buffer)).
Proof.
  assert (∀ last (buffer : list Ascii.ascii),
            is_digit last = true ∨ last = ")"%char ∧ buffer = [] →
            ends_operand last = true) as Hends.
  { intros last buffer [Hd|[-> _]]; unfold ends_operand; [by rewrite Hd|done]. }
  apply expr_term_factor_ind.
  - (* Term *) intros t IHt. exact IHt.
  - (* Sum *)
    intros e (d1 & l1 & b1 & Hclosed1 & Hflush1 & Hrun1) op t
           (d2 & l2 & b2 & Hclosed2 & Hflush2 & Hrun2).
    exists (flush read d1 b1 ++ [special (special_of_additive op)] ++ d2), l2, b2.
    split_and!; [done| |].
    + cbn [tokens_of_expr]. by rewrite app_assoc, flush_app, Hflush1, Hflush2, <- app_assoc.
    + intros tokens prev rest Hprev. cbn [print_expr].
      rewrite <- !app_assoc, Hrun1 by done. cbn [app fold_left].
      rewrite (parse_operator _ (special_of_additive op));
        [|by destruct op|by destruct op|by eapply Hends].
      rewrite Hrun2 by (by destruct op).
      by rewrite flush_app, <- !app_assoc.
  - (* Factor *) intros f IHf. exact IHf.
  - (* Product *)
    intros f (d1 & l1 & b1 & Hclosed1 & Hflush1 & Hrun1) op t
           (d2 & l2 & b2 & Hclosed2 & Hflush2 & Hrun2).
    exists (flush read d1 b1 ++ [special (special_of_multiplicative op)] ++ d2), l2, b2.
    split_and!; [done| |].
    + cbn [tokens_of_term]. by rewrite app_assoc, flush_app, Hflush1, Hflush2, <- app_assoc.
    + intros tokens prev rest Hprev. cbn [print_term].
      rewrite <- !app_assoc, Hrun1 by done. cbn [app fold_left].
      rewrite (parse_operator _ (special_of_multiplicative op));
        [|by destruct op|by destruct op|by eapply Hends].
      rewrite Hrun2 by (by destruct op).
      by rewrite flush_app, <- !app_assoc.
  - (* Number *)
    intros n. destruct (numeral_last n) as (c & Hlast & Hdigit & Hne & Hchars).
    exists [], c, (text n). split_and!; [by left| |].
    + unfold flush. by rewrite Hne.
    + intros tokens prev rest Hprev. cbn [print_factor].
      rewrite parse_number; [|by apply starts_operand_not_right|done].
      by rewrite Hlast, app_nil_r.
  - (* Parenthesised *)
    intros e (d & l & b & Hclosed & Hflush & Hrun).
    exists ([special LEFT_PARENTHESIS] ++ flush read d b ++ [special RIGHT_PARENTHESIS]),
           ")"%char, [].
    split_and!; [by right| |].
    + by rewrite Hflush.
    + intros tokens prev rest Hprev. cbn [print_factor app fold_left].
      rewrite parse_left_parenthesis by done.
      rewrite <- app_assoc, Hrun by done. cbn [app fold_left].
      rewrite (parse_operator _ RIGHT_PARENTHESIS); [|done|done|by eapply Hends].
      by rewrite flush_app, <- !app_assoc.
Qed.

End parse_facts.

(** X26.  [parse] turns the text of an expression into its tokens, the numbers
    read from their texts, and [evaluate] then gives its value: the two
    together compute an expression written with numbers, the four
    operators and parentheses. *)
Theorem parse_print_expr {T} (add sub mul div : T → T → T)
    (read : list Ascii.ascii → T) (e : calculator.expr calculator.numeral) :
  calculator.parse read None (calculator.print_expr e)
  = calculator.tokens_of_expr (λ n, read (calculator.text n)) e
  ∧ calculator.evaluate add sub mul div
      (calculator.parse read None (calculator.print_expr e))
    = Some (calculator.value_of_expr add sub mul div
              (λ n, read (calculator.text n)) e).
Proof.
  assert (calculator.parse read None (calculator.print_expr e)
          = calculator.tokens_of_expr (λ n, read (calculator.text n)) e) as Hparse.
  { destruct (parse_print read) as (Hexpr & _ & _).
    destruct (Hexpr e) as (done & last & buffer & _ & Hflush & Hrun).
    unfold calculator.parse.
    rewrite <- (app_nil_r (calculator.print_expr e)), Hrun by done.
    cbn [fold_left app]. done. }
  split; [done|]. rewrite Hparse. apply evaluate_tokens.
Qed.

Lemma parse_print_expr_witness :
  calculator.evaluate Z.add Z.sub Z.mul Z.div
    (calculator.parse calculator.read_decimal None
       ["2"; "*"; "("; "3"; "+"; "4"; ")"; "-"; "1"; "0"]%char)
  = Some 4.
Proof.
  exact (proj2 (parse_print_expr Z.add Z.sub Z.mul Z.div calculator.read_decimal
    (calculator.Sum
       (calculator.Term
          (calculator.Product
             (calculator.Number {| calculator.text := ["2"%char];
                                   calculator.text_is_numeral := eq_refl |})
             calculator.times
             (calculator.Factor
                (calculator.Parenthesised
                   (calculator.Sum
                      (calculator.Term (calculator.Factor
                         (calculator.Number
                            {| calculator.text := ["3"%char];
                               calculator.text_is_numeral := eq_refl |})))
                      calculator.plus
                      (calculator.Factor
                         (calculator.Number
                            {| calculator.text := ["4"%char];
                               calculator.text_is_numeral := eq_refl |})))))))
       calculator.minus
       (calculator.Factor
          (calculator.Number {| calculator.text := ["1"%char; "0"%char];
                                calculator.text_is_numeral := eq_refl |}))))).
Defined.

(** ** What [parse] makes of a minus sign, of two operands side by side
    and of the previous result *)

Section parse_more.
Import calculator.
Context {T : Type}.
Context (read : list Ascii.ascii → T).

Lemma is_digit_not_special prev :
  is_digit prev = true →
  Ascii.eqb prev ")" = false ∧ Ascii.eqb prev "(" = false
  ∧ Ascii.eqb prev "+" = false ∧ Ascii.eqb prev "-" = false
  ∧ Ascii.eqb prev "*" = false ∧ Ascii.eqb prev "/" = false
  ∧ Ascii.eqb prev "000" = false.
Proof.
  intros Hdigit.
  split_and!;
    match goal with
    | |- Ascii.eqb ?a ?b = false =>
        destruct (Ascii.eqb_spec a b) as [->|]; [by vm_compute in Hdigit|done]
    end.
Qed.

(** A left parenthesis after an operand: a multiplication is put in. *)
Lemma parse_left_parenthesis_juxtaposed (tokens : list (token T)) prev buffer :
  is_digit prev = true ∨ prev = ")"%char ∧ buffer = [] →
  parse_step read (tokens, prev, buffer) "("
  = (flush read tokens buffer ++ [special MULTIPLY; special LEFT_PARENTHESIS],
     "("%char, []).
Proof.
  intros [Hdigit|[-> ->]].
  - destruct (is_digit_not_special prev Hdigit) as (H1 & H2 & H3 & H4 & H5 & H6 & H7).
    unfold parse_step.
    change (special_char_of "(") with (Some LEFT_PARENTHESIS).
    rewrite H1, H4. cbn [andb negb]. rewrite H2, H3, H4, H5, H6, H7. cbn [andb negb].
    by rewrite <- app_assoc.
  - unfold parse_step. cbn. by rewrite <- app_assoc.
Qed.

Lemma parse_parenthesised (e : expr numeral) (tokens : list (token T)) rest :
  fold_left (parse_step read) (print_expr e ++ [")"%char] ++ rest)
            (tokens ++ [special LEFT_PARENTHESIS], "("%char, [])
  = fold_left (parse_step read) rest
      (tokens ++ tokens_of_factor (λ n, read (text n)) (Parenthesised e),
       ")"%char, []).
Proof.
  destruct (parse_print read) as (Hexpr & _ & _).
  destruct (Hexpr e) as (done & last & buffer & Hclosed & Hflush & Hrun).
  rewrite Hrun by done. cbn [app fold_left].
  rewrite (parse_operator read _ RIGHT_PARENTHESIS); [|done|done|].
  - rewrite flush_app, Hflush. cbn [tokens_of_factor]. by rewrite <- !app_assoc.
  - unfold ends_operand. destruct Hclosed as [->|[-> _]]; done.
Qed.

End parse_more.

(** X27.  A minus sign at the start of the line: before a number it goes into
    the text of the number, two of them cancel, and before a left
    parenthesis it makes the factor [-1] of a product. *)
Theorem parse_unary_minus {T} (read : list Ascii.ascii → T)
    (n : calculator.numeral) (e : calculator.expr calculator.numeral) :
  calculator.parse read None ("-"%char :: calculator.text n)
  = [calculator.value (read ("-"%char :: calculator.text n))]
  ∧ calculator.parse read None ("-"%char :: "-"%char :: calculator.text n)
    = [calculator.value (read (calculator.text n))]
  ∧ calculator.parse read None
      ("-"%char :: calculator.print_factor (calculator.Parenthesised e))
    = [calculator.value (read ["-"%char; "1"%char]);
       calculator.special calculator.MULTIPLY]
      ++ calculator.tokens_of_factor (λ n, read (calculator.text n))
           (calculator.Parenthesised e).
Proof.
  destruct (numeral_last n) as (c & Hlast & Hdigit & Hne & Hchars).
  unfold calculator.parse. split_and!.
  - cbn [fold_left].
    change (calculator.parse_step read ([], "000"%char, []) "-"%char)
      with (@nil (calculator.token T), "-"%char, ["-"%char]).
    rewrite <- (app_nil_r (calculator.text n)), parse_number by done.
    cbn [fold_left app calculator.flush calculator.is_empty].
    by rewrite app_nil_r.
  - cbn [fold_left].
    change (calculator.parse_step read
              (calculator.parse_step read ([], "000"%char, []) "-"%char) "-"%char)
      with (@nil (calculator.token T), "-"%char, @nil Ascii.ascii).
    rewrite <- (app_nil_r (calculator.text n)), parse_number by done.
    cbn [fold_left app]. unfold calculator.flush. rewrite !app_nil_r.
    by rewrite Hne.
  - cbn [calculator.print_factor app fold_left].
    change (calculator.parse_step read
              (calculator.parse_step read ([], "000"%char, []) "-"%char) "("%char)
      with ([calculator.value (read ["-"%char; "1"%char]);
             calculator.special (T:=T) calculator.MULTIPLY]
            ++ [calculator.special calculator.LEFT_PARENTHESIS],
            "("%char, @nil Ascii.ascii).
    rewrite <- (app_nil_r [")"%char]).
    rewrite (parse_parenthesised read e). by cbn [fold_left].
Qed.

(** X28.  Two operands side by side, one of them in parentheses, are
    multiplied: [parse] puts the operator in. *)
Theorem parse_juxtaposition {T} (read : list Ascii.ascii → T)
    (f : calculator.factor calculator.numeral)
    (e : calculator.expr calculator.numeral) (n : calculator.numeral) :
  calculator.parse read None
    (calculator.print_factor f
     ++ calculator.print_factor (calculator.Parenthesised e))
  = calculator.tokens_of_factor (λ n, read (calculator.text n)) f
    ++ [calculator.special calculator.MULTIPLY]
    ++ calculator.tokens_of_factor (λ n, read (calculator.text n))
         (calculator.Parenthesised e)
  ∧ calculator.parse read None
      (calculator.print_factor (calculator.Parenthesised e) ++ calculator.text n)
    = calculator.tokens_of_factor (λ n, read (calculator.text n))
        (calculator.Parenthesised e)
      ++ [calculator.special calculator.MULTIPLY;
          calculator.value (read (calculator.text n))].
Proof.
  unfold calculator.parse. split.
  - destruct (parse_print read) as (_ & _ & Hfactor).
    destruct (Hfactor f) as (done & last & buffer & Hclosed & Hflush & Hrun).
    rewrite Hrun by done. cbn [calculator.print_factor app fold_left].
    rewrite parse_left_parenthesis_juxtaposed by done.
    rewrite <- (app_nil_r [")"%char]).
    replace (calculator.flush read done buffer
             ++ [calculator.special calculator.MULTIPLY;
                 calculator.special calculator.LEFT_PARENTHESIS])
      with ((calculator.flush read done buffer
             ++ [calculator.special calculator.MULTIPLY])
            ++ [calculator.special calculator.LEFT_PARENTHESIS])
      by (by rewrite <- app_assoc).
    rewrite (parse_parenthesised read e). cbn [fold_left calculator.flush
      calculator.is_empty]. by rewrite Hflush, <- app_assoc.
  - destruct (numeral_last n) as (c & Hlast & Hdigit & Hne & Hchars).
    cbn [calculator.print_factor app fold_left].
    change (calculator.parse_step read ([], "000"%char, []) "("%char)
      with ([] ++ [calculator.special (T:=T) calculator.LEFT_PARENTHESIS],
            "("%char, @nil Ascii.ascii).
    rewrite <- !app_assoc. rewrite (parse_parenthesised read e).
    destruct (calculator.text n) as [|c0 s] eqn:Htext; [done|].
    cbn [forallb] in Hchars. apply andb_true_iff in Hchars as [Hc0 Hchars].
    destruct (calculator.special_char_of c0) eqn:Hspecial; [done|].
    cbn [fold_left]. unfold calculator.parse_step at 2. rewrite Hspecial.
    cbn [Ascii.eqb Bool.eqb andb].
    rewrite <- (app_nil_r s), parse_number;
      [|by destruct (Ascii.eqb_spec c0 ")") as [->|]|done].
    cbn [fold_left app]. unfold calculator.flush. cbn [calculator.is_empty].
    by rewrite app_nil_r, <- app_assoc.
Qed.

(** X29.  With a previous result, a line that starts with an operator goes on
    from it, and a line that starts with a left parenthesis multiplies it:
    [parse] puts the previous result first. *)
Theorem parse_previous_result {T} (read : list Ascii.ascii → T) (v : T)
    (t : calculator.term calculator.numeral)
    (e : calculator.expr calculator.numeral) :
  (∀ op, calculator.parse read (Some (calculator.value v))
           (calculator.char_of_additive op :: calculator.print_term t)
         = [calculator.value v;
            calculator.special (calculator.special_of_additive op)]
           ++ calculator.tokens_of_term (λ n, read (calculator.text n)) t)
  ∧ (∀ op, calculator.parse read (Some (calculator.value v))
             (calculator.char_of_multiplicative op :: calculator.print_term t)
           = [calculator.value v;
              calculator.special (calculator.special_of_multiplicative op)]
             ++ calculator.tokens_of_term (λ n, read (calculator.text n)) t)
  ∧ calculator.parse read (Some (calculator.value v))
      (calculator.print_factor (calculator.Parenthesised e))
    = [calculator.value v; calculator.special calculator.MULTIPLY]
      ++ calculator.tokens_of_factor (λ n, read (calculator.text n))
           (calculator.Parenthesised e).
Proof.
  destruct (parse_print read) as (_ & Hterm & _).
  destruct (Hterm t) as (done & last & buffer & Hclosed & Hflush & Hrun).
  unfold calculator.parse. split_and!.
  - intros op. cbn [fold_left].
    rewrite (parse_operator read _ (calculator.special_of_additive op));
      [|by destruct op|by destruct op|done].
    rewrite <- (app_nil_r (calculator.print_term t)), Hrun by (by destruct op).
    cbn [fold_left]. by rewrite flush_app, Hflush.
  - intros op. cbn [fold_left].
    rewrite (parse_operator read _ (calculator.special_of_multiplicative op));
      [|by destruct op|by destruct op|done].
    rewrite <- (app_nil_r (calculator.print_term t)), Hrun by (by destruct op).
    cbn [fold_left]. by rewrite flush_app, Hflush.
  - cbn [calculator.print_factor app fold_left].
    rewrite parse_left_parenthesis_juxtaposed by (by left).
    rewrite <- (app_nil_r [")"%char]).
    change (calculator.flush read [calculator.value v] []
            ++ [calculator.special calculator.MULTIPLY;
                calculator.special calculator.LEFT_PARENTHESIS])
      with ([calculator.value v; calculator.special calculator.MULTIPLY]
            ++ [calculator.special calculator.LEFT_PARENTHESIS]).
    rewrite (parse_parenthesised read e). by cbn [fold_left].
Qed.

(** ** Where [evaluate] has no result *)

Lemma shunt_step_none {T} (tokens : list (calculator.token T)) :
  fold_left calculator.shunt_step tokens None = None.
Proof. by induction tokens. Qed.

(** X30.  [evaluate] has no result on the empty expression, which [parse]
    returns for a line of two minus signs, and on an expression with a
    right parenthesis that no left parenthesis opens: its stack is empty
    when it takes the top, or when it pops. *)
Theorem evaluate_undefined {A T} (add sub mul div : T → T → T)
    (read : A → T) (read_text : list Ascii.ascii → T)
    (e : calculator.expr A) (rest : list (calculator.token T)) :
  calculator.evaluate add sub mul div [] = None
  ∧ calculator.parse read_text None ["-"%char; "-"%char] = []
  ∧ calculator.evaluate add sub mul div
      (calculator.tokens_of_expr read e
       ++ calculator.special calculator.RIGHT_PARENTHESIS :: rest)
    = None.
Proof.
  split_and!; [done|done|].
  unfold calculator.evaluate.
  destruct (shunt_tokens read) as (Hshunt & _ & _).
  rewrite Hshunt by (by left). cbn [fold_left].
  assert (calculator.shunt_step
            (Some (calculator.pending_of_expr e ++ [],
                   [] ++ calculator.written_of_expr read e))
            (calculator.special calculator.RIGHT_PARENTHESIS) = None) as ->.
  { unfold calculator.shunt_step. cbn [mbind option_bind].
    by rewrite pop_pending_expr. }
  by rewrite shunt_step_none.
Qed.
